(** * mcp-graphql-srv: the tool handlers, the API-key middleware and the
      session/transport multiplexer of [server.ts] and the reindex of
      [rag.ts], with the properties the specification states about them.

    The sources hold two revisions of [server.ts]; the development follows
    the later one, which has the [search-schema] tool and the idle timer.

    Part 1 holds the JavaScript values the server manipulates, Part 2 a small
    monad for [async] functions with [try]/[catch], Part 3 the two tool
    handlers, Part 4 the Express wiring with [authenticateApiKey], Part 5 the
    two transport registries and the handlers of [/mcp], [/sse] and
    [/messages], Part 6 the reindex ([refreshSchema] of [rag.ts]) with its
    embedding fan-out, and Part 7 the properties.

    Library code ([JSON.parse], [parse] of [graphql/language], the transports
    of the MCP SDK, [fetch]) is not modelled: pure functions are parameters,
    awaited calls are events answered by the outside world, and what the SDK
    does inside [handleRequest] is an input of the transition.  Of p-limit
    the bookkeeping is kept, its counter of running functions and its queue,
    as it stands between two turns of the event loop. *)

From Stdlib Require Import String Ascii List PrimFloat DecimalString.
From stdpp Require Import base option list gmap strings.

Open Scope string_scope.
Set Warnings "-register-all".

(* ===================================================================== *)
(** * Part 1. JavaScript values                                           *)
(* ===================================================================== *)

(** A thrown value.  Every handler of [server.ts] reads only [error.message]. *)
Record Error := { message : string }.

(** The result of [JSON.parse].  Numbers are IEEE doubles as in JavaScript;
    [fields] are the own properties of an object. *)
Inductive Json :=
| JNull
| JBool (b : bool)
| JNumber (n : float)
| JString (s : string)
| JArray (items : list Json)
| JObject (fields : list (string * Json)).

Definition nl : string := String "010"%char EmptyString.

(** [if (s)] on a string: the empty string is falsy. *)
Definition truthy_string (s : string) : bool := negb (String.eqb s "").

(** [if (x)] on [string | undefined]. *)
Definition truthy (x : option string) : bool :=
  match x with
  | Some s => truthy_string s
  | None => false
  end.

(** Truthiness of a JSON value: [null], [false], [0], [-0] and [""] are
    falsy, every array and object is truthy. *)
Definition truthy_json (v : Json) : bool :=
  match v with
  | JNull => false
  | JBool b => b
  | JNumber n => negb (PrimFloat.eqb n 0 || PrimFloat.is_nan n)
  | JString s => truthy_string s
  | JArray _ => true
  | JObject _ => true
  end.

(** [o[k]] restricted to the own properties of a parsed object; a repeated
    key keeps its last value, as [JSON.parse] does. *)
Fixpoint own_property (fields : list (string * Json)) (k : string) : option Json :=
  match fields with
  | [] => None
  | (k', v) :: rest =>
      match own_property rest k with
      | Some v' => Some v'
      | None => if String.eqb k' k then Some v else None
      end
  end.

(** [String(n)] for a natural number, used by template literals. *)
Definition string_of_nat (n : nat) : string :=
  NilZero.string_of_uint (Nat.to_uint n).

(** [s.startsWith(pre)]. *)
Fixpoint startsWith (s pre : string) {struct pre} : bool :=
  match pre with
  | EmptyString => true
  | String c pre' =>
      match s with
      | EmptyString => false
      | String d s' => Ascii.eqb c d && startsWith s' pre'
      end
  end.

(** [s.includes(sub)]. *)
Fixpoint includes (s sub : string) : bool :=
  startsWith s sub ||
  match s with
  | EmptyString => false
  | String _ s' => includes s' sub
  end.

(** The names every object literal inherits from [Object.prototype]; each of
    them is a function or an object, hence truthy. *)
Definition Object_prototype_keys : list string :=
  [ "constructor"; "__proto__"; "hasOwnProperty"; "isPrototypeOf";
    "propertyIsEnumerable"; "toLocaleString"; "toString"; "valueOf";
    "__defineGetter__"; "__defineSetter__"; "__lookupGetter__";
    "__lookupSetter__" ].

(* ===================================================================== *)
(** * Part 2. Async functions                                             *)
(* ===================================================================== *)

(** What the tool handlers send and what they get back. *)
Record RequestBody := { body_query : string; body_variables : option Json }.

Record RequestInit := {
  method : string;
  headers : list (string * Json);
  body : RequestBody   (* the argument of [JSON.stringify] *)
}.

Record Response := { ok : bool; status : nat; statusText : string }.

(** The awaited calls of the tool handlers.  [fetch] and [response.text()]
    talk to the upstream GraphQL endpoint, [semanticSearch] to the retrieval
    pipeline of [rag.js]. *)
Inductive Eff : Type -> Type :=
| fetch (url : string) (init : RequestInit) : Eff Response
| response_text (response : Response) : Eff string
| semanticSearch (question : string) (k : float) : Eff (list string).

(** An [async] function body: it returns, throws, or awaits a promise that
    is later rejected ([inl]) or fulfilled ([inr]). *)
Inductive Async (A : Type) : Type :=
| Ret (a : A)
| Throw (e : Error)
| Await {X : Type} (e : Eff X) (k : Error + X -> Async A).

Arguments Ret {A} a.
Arguments Throw {A} e.
Arguments Await {A X} e k.

Fixpoint bind {A B} (m : Async A) (f : A -> Async B) : Async B :=
  match m with
  | Ret a => f a
  | Throw e => Throw e
  | Await e k => Await e (fun x => bind (k x) f)
  end.

(** [try { m } catch (error) { h error }]. *)
Fixpoint try_catch {A} (m : Async A) (h : Error -> Async A) : Async A :=
  match m with
  | Ret a => Ret a
  | Throw e => h e
  | Await e k => Await e (fun x => try_catch (k x) h)
  end.

(** [await e]: a rejected promise is rethrown at the [await]. *)
Definition await {X} (e : Eff X) : Async X :=
  Await e (fun r => match r with inl err => Throw err | inr x => Ret x end).

(** A synchronous library call that may throw. *)
Definition call {A} (r : Error + A) : Async A :=
  match r with
  | inl err => Throw err
  | inr a => Ret a
  end.

Declare Scope async_scope.
Delimit Scope async_scope with async.
Notation "'let*' x ':=' c 'in' k" := (bind c (fun x => k))
  (at level 10, x name, c at level 100, k at level 200) : async_scope.

(** The awaited calls a computation performs when the outside world answers
    according to [w]; the run stops at a [return] or at an uncaught throw. *)
Definition World := forall X, Eff X -> Error + X.

Inductive Call :=
| Called {X : Type} (e : Eff X).

Fixpoint run {A} (w : World) (m : Async A) : list Call * (Error + A) :=
  match m with
  | Ret a => ([], inr a)
  | Throw e => ([], inl e)
  | Await e k => let '(calls, r) := run w (k (w _ e)) in (Called e :: calls, r)
  end.

(** No path through the computation ends in an uncaught exception. *)
Fixpoint never_throws {A} (m : Async A) : Prop :=
  match m with
  | Ret _ => True
  | Throw _ => False
  | Await e k => forall x, never_throws (k x)
  end.

(* ===================================================================== *)
(** * Part 3. The tool handlers of [buildMcpServer]                        *)
(* ===================================================================== *)

(** The parsed environment ([EnvSchema]). *)
Record Env := {
  NAME : string;
  ENDPOINT : string;
  ALLOW_MUTATIONS : bool;
  HEADERS : list (string * Json);
  SCHEMA : option string;
  MCP_API_KEY : option string
}.

(** The nodes of a parsed GraphQL document, as far as the handler reads
    them: [operation] is defined on operation definitions only. *)
Record DefinitionNode := { kind : string; operation : option string }.
Record DocumentNode := { definitions : list DefinitionNode }.

Record Content := { type : string; text : string }.
Record ToolResult := { isError : option bool; content : list Content }.

(** A block either falls through with a value or leaves the handler with
    [return r]. *)
Inductive Completion (A : Type) :=
| Normal (a : A)
| Return (r : ToolResult).
Arguments Normal {A} a.
Arguments Return {A} r.

Definition and_then {A} (blk : Async (Completion A)) (rest : A -> Async ToolResult)
  : Async ToolResult :=
  bind blk (fun c => match c with Return r => Ret r | Normal a => rest a end).

Notation "'let!' x ':=' c 'in' k" := (and_then c (fun x => k))
  (at level 10, x name, c at level 100, k at level 200) : async_scope.

Definition text_result (s : string) : ToolResult :=
  {| isError := None; content := [ {| type := "text"; text := s |} ] |}.

Definition error_result (s : string) : ToolResult :=
  {| isError := Some true; content := [ {| type := "text"; text := s |} ] |}.

(** The text of a result, as the test client's [getResultText] reads it. *)
Definition result_text (r : ToolResult) : string :=
  match content r with
  | c :: _ => text c
  | [] => ""
  end.

(** [{ "Content-Type": "application/json", ...env.HEADERS }]: a later key
    replaces an earlier one. *)
Fixpoint spread (base extra : list (string * Json)) : list (string * Json) :=
  match extra with
  | [] => base
  | (k, v) :: rest =>
      spread (if existsb (fun kv => String.eqb (fst kv) k) base
              then map (fun kv => if String.eqb (fst kv) k then (k, v) else kv) base
              else base ++ [(k, v)]) rest
  end.

Section Tools.

Variable env : Env.

(** Library functions the handlers call: [JSON.parse], [JSON.stringify(_,
    null, 2)], [parse] of [graphql/language], and the relational comparison
    [v > 0] of JavaScript on a string or an array, which goes through
    [ToPrimitive] and [ToNumber]; it throws a [TypeError] when [ToPrimitive]
    fails (an array whose [join] meets an object that cannot be converted). *)
Variable JSON_parse : string -> Error + Json.
Variable JSON_stringify : Json -> string.
Variable parse : string -> Error + DocumentNode.
Variable coerced_gt0 : Json -> Error + bool.

Open Scope async_scope.

(** ** search-schema *)

Definition no_results_text : string :=
  "No relevant schema information found for your question.".

Definition delimiter : string := nl ++ nl ++ "---" ++ nl ++ nl.

Definition search_schema (question : string) (k : float) : Async ToolResult :=
  try_catch
    (let* searchResults := await (semanticSearch question k) in
     if Nat.eqb (length searchResults) 0 then
       Ret (text_result no_results_text)
     else
       let combinedText := String.concat delimiter searchResults in
       Ret (text_result combinedText))
    (fun error => Ret (error_result ("Failed to search schema: " ++ message error))).

(** The zod schema gives [k] the default 5. *)
Definition search_schema_tool (question : string) (k : option float) : Async ToolResult :=
  search_schema question (default 5%float k).

(** ** query-graphql *)

(** [parsedQuery.definitions.some(def => def.kind === "OperationDefinition"
    && def.operation === "mutation")]. *)
Definition isMutation (parsedQuery : DocumentNode) : bool :=
  existsb
    (fun def =>
       String.eqb (kind def) "OperationDefinition" &&
       match operation def with
       | Some op => String.eqb op "mutation"
       | None => false
       end)
    (definitions parsedQuery).

(** [data.errors]: reading a property of [null] throws a [TypeError],
    primitives and arrays have no such property. *)
Definition data_errors (data : Json) : Error + option Json :=
  match data with
  | JNull => inl {| message := "Cannot read properties of null (reading 'errors')" |}
  | JObject fields => inr (own_property fields "errors")
  | _ => inr None
  end.

(** [v > 0] on a JSON value.  For an object [ToPrimitive] calls the
    inherited [valueOf], which gives the object itself, and then [toString]:
    the inherited one gives "[object Object]", which is [NaN] as a number; an
    own property [toString] hides it and, as no JSON value is callable, the
    conversion throws a [TypeError]. *)
Definition gt0 (v : Json) : Error + bool :=
  match v with
  | JNull => inr false
  | JBool b => inr b
  | JNumber n => inr (PrimFloat.ltb 0 n)
  | JString _ | JArray _ => coerced_gt0 v
  | JObject fields =>
      match own_property fields "toString" with
      | Some _ => inl {| message := "Cannot convert object to primitive value" |}
      | None => inr false
      end
  end.

(** [errors && errors.length > 0] for [errors = data.errors]; the comparison
    is evaluated only for a truthy [errors]. *)
Definition errors_present (errors : option Json) : Error + bool :=
  match errors with
  | None => inr false
  | Some v =>
      if truthy_json v then
        match v with
        | JArray items => inr (Nat.ltb 0 (length items))
        | JString s => inr (Nat.ltb 0 (String.length s))
        | JObject fields =>
            match own_property fields "length" with
            | Some l => gt0 l
            | None => inr false
            end
        | _ => inr false
        end
      else inr false
  end.

Definition request_init (query : string) (parsedVariables : option Json) : RequestInit :=
  {| method := "POST";
     headers := spread [("Content-Type", JString "application/json")] (HEADERS env);
     body := {| body_query := query; body_variables := parsedVariables |} |}.

(** First block: parse [variables] if provided. *)
Definition parse_variables (variables : option string)
  : Async (Completion (option Json)) :=
  match variables with
  | Some v =>
      if truthy_string v then
        try_catch
          (let* parsed := call (JSON_parse v) in Ret (Normal (Some parsed)))
          (fun error =>
             Ret (Return (error_result
               ("Invalid variables: Must be a valid JSON string. Error: "
                  ++ message error))))
      else Ret (Normal None)
  | None => Ret (Normal None)
  end.

(** Second block: validate the query and check for mutations. *)
Definition mutation_gate (query : string) : Async (Completion unit) :=
  try_catch
    (let* parsedQuery := call (parse query) in
     if isMutation parsedQuery && negb (ALLOW_MUTATIONS env) then
       Ret (Return (error_result
         "Mutations are not allowed. Set ALLOW_MUTATIONS=true to enable them."))
     else Ret (Normal tt))
    (fun error =>
       Ret (Return (error_result ("Invalid GraphQL query: " ++ message error)))).

(** The inner [try] of the third block: [JSON.parse(responseText)]. *)
Definition parse_response (responseText : string) : Async (Completion Json) :=
  try_catch
    (let* data := call (JSON_parse responseText) in Ret (Normal data))
    (fun parseError =>
       Ret (Return (error_result
         ("Failed to parse GraphQL JSON response: " ++ message parseError
            ++ nl ++ "Response Body Hint:" ++ nl
            ++ substring 0 200 responseText ++ "...")))).

(** Third block: execute the query. *)
Definition execute (query : string) (parsedVariables : option Json) : Async ToolResult :=
  try_catch
    (let* response := await (fetch (ENDPOINT env) (request_init query parsedVariables)) in
     let* responseText := await (response_text response) in
     if negb (ok response) then
       Ret (error_result
         ("GraphQL request failed: " ++ string_of_nat (status response) ++ " "
            ++ statusText response ++ nl ++ responseText))
     else
       let! data := parse_response responseText in
       let* errors := call (data_errors data) in
       let* present := call (errors_present errors) in
       if present then
         Ret (text_result
           ("GraphQL query executed, but the response contains errors: "
              ++ JSON_stringify data))
       else
         Ret (text_result (JSON_stringify data)))
    (fun fetchError =>
       Ret (error_result ("Failed to execute GraphQL query: " ++ message fetchError))).

Definition query_graphql (query : string) (variables : option string) : Async ToolResult :=
  let! parsedVariables := parse_variables variables in
  let! _ := mutation_gate query in
  execute query parsedVariables.

(** ** Vocabulary of the properties *)

(** The [variables] argument gets past the first block with
    [parsedVariables = pv]: it is absent or empty, or it parses. *)
Definition variables_accepted (variables : option string) (pv : option Json) : Prop :=
  match variables with
  | None => pv = None
  | Some s =>
      if truthy_string s
      then exists parsed, JSON_parse s = inr parsed /\ pv = Some parsed
      else pv = None
  end.

(** The document holds an operation definition whose operation is
    ["mutation"]. *)
Definition has_mutation_operation (doc : DocumentNode) : Prop :=
  exists def, In def (definitions doc) /\
              kind def = "OperationDefinition" /\ operation def = Some "mutation".


(** Every operation definition of the document is a query or a
    subscription. *)
Definition only_queries_or_subscriptions (doc : DocumentNode) : Prop :=
  forall def, In def (definitions doc) -> kind def = "OperationDefinition" ->
              operation def = Some "query" \/ operation def = Some "subscription".

(** The call gets past both checks that precede the request. *)
Definition passes_checks (query : string) (variables : option string)
    (pv : option Json) : Prop :=
  variables_accepted variables pv /\
  exists doc, parse query = inr doc /\
              isMutation doc && negb (ALLOW_MUTATIONS env) = false.

(** The ways a [query-graphql] call can fail. *)
Inductive FailureMode :=
| InvalidVariables | InvalidQuery | DisallowedMutation
| HttpFailure | NonJsonBody | GraphQLErrors
| NetworkFailure.

Inductive FailureClass :=
| RejectedBeforeSend | UpstreamResponded | UpstreamUnreachable.

Definition class_of (mode : FailureMode) : FailureClass :=
  match mode with
  | InvalidVariables | InvalidQuery | DisallowedMutation => RejectedBeforeSend
  | HttpFailure | NonJsonBody | GraphQLErrors => UpstreamResponded
  | NetworkFailure => UpstreamUnreachable
  end.

(** The label the handler puts in front of the explanation. *)
Definition label_of (mode : FailureMode) : string :=
  match mode with
  | InvalidVariables => "Invalid variables: "
  | InvalidQuery => "Invalid GraphQL query: "
  | DisallowedMutation => "Mutations are not allowed."
  | HttpFailure => "GraphQL request failed: "
  | NonJsonBody => "Failed to parse GraphQL JSON response: "
  | GraphQLErrors => "GraphQL query executed, but the response contains errors: "
  | NetworkFailure => "Failed to execute GraphQL query: "
  end.

Definition all_modes : list FailureMode :=
  [ InvalidVariables; InvalidQuery; DisallowedMutation;
    HttpFailure; NonJsonBody; GraphQLErrors; NetworkFailure ].

(** What a caller can tell from the text alone. *)
Definition class_of_text (txt : string) : option FailureClass :=
  class_of <$> List.find (fun mode => startsWith txt (label_of mode)) all_modes.

(** The failure [mode] occurs for the call [query-graphql(query, variables)]
    when the outside world answers according to [w]. *)
Definition happens (w : World) (query : string) (variables : option string)
    (mode : FailureMode) : Prop :=
  match mode with
  | InvalidVariables =>
      exists s err, variables = Some s /\ truthy_string s = true /\
                    JSON_parse s = inl err
  | InvalidQuery =>
      (exists pv, variables_accepted variables pv) /\
      exists err, parse query = inl err
  | DisallowedMutation =>
      (exists pv, variables_accepted variables pv) /\
      exists doc, parse query = inr doc /\ has_mutation_operation doc /\
                  ALLOW_MUTATIONS env = false
  | NetworkFailure =>
      exists pv err, passes_checks query variables pv /\
        w _ (fetch (ENDPOINT env) (request_init query pv)) = inl err
  | HttpFailure =>
      exists pv response responseText, passes_checks query variables pv /\
        w _ (fetch (ENDPOINT env) (request_init query pv)) = inr response /\
        w _ (response_text response) = inr responseText /\
        ok response = false
  | NonJsonBody =>
      exists pv response responseText err, passes_checks query variables pv /\
        w _ (fetch (ENDPOINT env) (request_init query pv)) = inr response /\
        w _ (response_text response) = inr responseText /\
        ok response = true /\ JSON_parse responseText = inl err
  | GraphQLErrors =>
      exists pv response responseText fields e es,
        passes_checks query variables pv /\
        w _ (fetch (ENDPOINT env) (request_init query pv)) = inr response /\
        w _ (response_text response) = inr responseText /\
        ok response = true /\ JSON_parse responseText = inr (JObject fields) /\
        own_property fields "errors" = Some (JArray (e :: es))
  end.

End Tools.

(* ===================================================================== *)
(** * Part 4. Express wiring and the API-key middleware                   *)
(* ===================================================================== *)

(** The request methods; [OtherMethod] stands for the remaining methods that
    the HTTP parser of Node accepts. *)
Inductive Method :=
| GET | HEAD | POST | PUT | DELETE | OPTIONS | PATCH
| OtherMethod (name : string).

(** What the middleware and the route handlers read of a request.  The path
    is the one Express matches against, lower-cased and without a trailing
    slash; the body has gone through [express.json()]. *)
Record Request := {
  req_method : Method;
  req_path : string;
  x_api_key : option string;        (* req.headers['x-api-key'] *)
  mcp_session_id : option string;   (* req.headers["mcp-session-id"] *)
  query_sessionId : option string;  (* req.query.sessionId *)
  is_initialize_body : bool         (* isInitializeRequest(req.body) *)
}.

Inductive AuthOutcome :=
| next
| send (status : nat) (text : string).

Section Auth.

Variable env : Env.

Definition authenticateApiKey (req : Request) : AuthOutcome :=
  if negb (truthy (MCP_API_KEY env)) then next
  else
    let providedKey := x_api_key req in
    if negb (truthy providedKey) then
      send 401 "Unauthorized: Missing X-API-Key header"
    else if negb (bool_decide (providedKey = MCP_API_KEY env)) then
      send 403 "Forbidden: Invalid API Key"
    else next.

End Auth.

Inductive RouteHandler := McpHandler | SseHandler | MessagesHandler.

(** The layers of the application, in registration order: [app.use(path,
    middleware)] and [app.METHOD(path, handler)] ([None] for [app.all]). *)
Inductive Layer :=
| use (mount : string) (middleware : Env -> Request -> AuthOutcome)
| route (m : option Method) (path : string) (handler : RouteHandler).

Definition routes : list Layer :=
  [ route None "/mcp" McpHandler;
    route (Some GET) "/sse" SseHandler;
    route (Some POST) "/messages" MessagesHandler ].

Definition app : list Layer :=
  [ use "/mcp" authenticateApiKey;
    use "/messages" authenticateApiKey ] ++ routes.

Definition Method_eqb (a b : Method) : bool :=
  match a, b with
  | GET, GET | HEAD, HEAD | POST, POST | PUT, PUT | DELETE, DELETE
  | OPTIONS, OPTIONS | PATCH, PATCH => true
  | OtherMethod x, OtherMethod y => String.eqb x y
  | _, _ => false
  end.

(** Whether a route registered for [m] runs its handler for a request with
    [method]: [app.all] takes every method, and Express answers a HEAD request
    with the GET handler of a route that has no HEAD handler. *)
Definition handles_method (m : option Method) (method : Method) : bool :=
  match m with
  | None => true
  | Some m' =>
      let name :=
        if Method_eqb method HEAD && negb (Method_eqb m' HEAD) then GET else method in
      Method_eqb name m'
  end.

(** [app.use(mount, _)] sees the requests to [mount] and below it. *)
Definition mounted (mount path : string) : bool :=
  String.eqb path mount || startsWith path (mount ++ "/").

Inductive Dispatch :=
| Responded (status : nat) (text : string)   (* a middleware ended the response *)
| Routed (handler : RouteHandler)
| NotFound.   (* no layer took the request: it is left to the final handler of
                 Express (404, or the [Allow] answer to OPTIONS) *)

Fixpoint dispatch (env : Env) (layers : list Layer) (req : Request) : Dispatch :=
  match layers with
  | [] => NotFound
  | use mount middleware :: rest =>
      if mounted mount (req_path req) then
        match middleware env req with
        | next => dispatch env rest req
        | send status text => Responded status text
        end
      else dispatch env rest req
  | route m path handler :: rest =>
      if String.eqb (req_path req) path && handles_method m (req_method req)
      then Routed handler
      else dispatch env rest req
  end.

(* ===================================================================== *)
(** * Part 5. Transport registries and the session handlers               *)
(* ===================================================================== *)

Inductive TransportKind := StreamableHTTP | SSE.

(** A transport object.  [sessionTimeoutHandle] is the variable of that name
    captured by the callbacks of a Streamable HTTP transport; [server] is the
    [McpServer] connected to the transport. *)
Record Transport := {
  transport_kind : TransportKind;
  sessionId : option string;
  server : option nat;
  sessionTimeoutHandle : option nat;
  closed : bool
}.

(** A pending [setTimeout]: the callback deletes [timer_session] from
    [streamableTransports] and closes [timer_transport]. *)
Record Timer := {
  deadline : N;
  timer_session : string;
  timer_transport : nat
}.

(** The mutable state of the process: the two registries (own properties of
    the two object literals), the transport objects by identity, the number
    of [McpServer] instances built, the pending timers, the clock in
    milliseconds, and the [transport.close()] calls made by timer
    callbacks. *)
Record ServerState := {
  streamableTransports : gmap string nat;
  sseTransports : gmap string nat;
  transports : list Transport;
  servers : nat;
  timers : list (nat * Timer);
  next_timer : nat;
  now : N;
  close_calls : list nat
}.

Definition initial : ServerState :=
  {| streamableTransports := ∅; sseTransports := ∅; transports := [];
     servers := 0; timers := []; next_timer := 0; now := 0%N; close_calls := [] |}.

(** [registry[key]] on an object literal: an own property, else a member of
    [Object.prototype], else [undefined]. *)
Inductive Lookup :=
| Own (t : nat)
| Inherited (name : string)
| Undefined.

Definition js_get (registry : gmap string nat) (key : string) : Lookup :=
  match registry !! key with
  | Some t => Own t
  | None =>
      if bool_decide (key ∈ Object_prototype_keys) then Inherited key else Undefined
  end.

Definition truthy_lookup (l : Lookup) : bool :=
  match l with
  | Own _ | Inherited _ => true
  | Undefined => false
  end.

(** What the SDK does inside [transport.handleRequest]: it answers the
    message, or (first request of a fresh transport) it draws a session id
    from [sessionIdGenerator] and calls [onsessioninitialized], or it closes
    the transport, which calls [onclose]. *)
Inductive SdkAction :=
| sdk_respond
| sdk_initialize (id : string)
| sdk_close.

Inductive Reply :=
| HandledBy (t : nat)                        (* the transport took the request *)
| RejectedJson (status : nat) (payload : Json)
| RejectedText (status : nat) (text : string)
| Uncaught (e : Error).                      (* the handler's promise rejects *)

Definition timeoutMs : N := 1000 * 60 * 60.

Definition bad_handshake : Json :=
  JObject [ ("jsonrpc", JString "2.0");
            ("error", JObject [ ("code", JNumber (-32000)%float);
                                ("message", JString "Bad Request: invalid MCP handshake") ]);
            ("id", JNull) ].

Definition set_transport (s : ServerState) (t : nat) (tr : Transport) : ServerState :=
  {| streamableTransports := streamableTransports s;
     sseTransports := sseTransports s;
     transports := <[t := tr]> (transports s);
     servers := servers s; timers := timers s; next_timer := next_timer s;
     now := now s; close_calls := close_calls s |}.

Definition set_streamable (s : ServerState) (registry : gmap string nat) : ServerState :=
  {| streamableTransports := registry;
     sseTransports := sseTransports s;
     transports := transports s;
     servers := servers s; timers := timers s; next_timer := next_timer s;
     now := now s; close_calls := close_calls s |}.

Definition set_sse (s : ServerState) (registry : gmap string nat) : ServerState :=
  {| streamableTransports := streamableTransports s;
     sseTransports := registry;
     transports := transports s;
     servers := servers s; timers := timers s; next_timer := next_timer s;
     now := now s; close_calls := close_calls s |}.

Definition set_timers (s : ServerState) (pending : list (nat * Timer)) : ServerState :=
  {| streamableTransports := streamableTransports s;
     sseTransports := sseTransports s;
     transports := transports s;
     servers := servers s; timers := pending; next_timer := next_timer s;
     now := now s; close_calls := close_calls s |}.

(** [new StreamableHTTPServerTransport(..)] / [new SSEServerTransport(..)];
    the latter draws its session id in the constructor. *)
Definition new_transport (s : ServerState) (k : TransportKind) (id : option string)
  : ServerState * nat :=
  ( {| streamableTransports := streamableTransports s;
       sseTransports := sseTransports s;
       transports := transports s ++
         [ {| transport_kind := k; sessionId := id; server := None;
              sessionTimeoutHandle := None; closed := false |} ];
       servers := servers s; timers := timers s; next_timer := next_timer s;
       now := now s; close_calls := close_calls s |},
    length (transports s) ).

(** [await buildMcpServer()]. *)
Definition buildMcpServer (s : ServerState) : ServerState * nat :=
  ( {| streamableTransports := streamableTransports s;
       sseTransports := sseTransports s;
       transports := transports s;
       servers := S (servers s); timers := timers s; next_timer := next_timer s;
       now := now s; close_calls := close_calls s |},
    servers s ).

(** [await server.connect(transport)]. *)
Definition connect (s : ServerState) (srv t : nat) : ServerState :=
  match transports s !! t with
  | Some tr =>
      set_transport s t
        {| transport_kind := transport_kind tr; sessionId := sessionId tr;
           server := Some srv; sessionTimeoutHandle := sessionTimeoutHandle tr;
           closed := closed tr |}
  | None => s
  end.

(** [setTimeout(callback, timeoutMs)]. *)
Definition setTimeout (s : ServerState) (id : string) (t : nat) : ServerState * nat :=
  ( {| streamableTransports := streamableTransports s;
       sseTransports := sseTransports s;
       transports := transports s;
       servers := servers s;
       timers := timers s ++
         [ (next_timer s,
            {| deadline := (now s + timeoutMs)%N; timer_session := id;
               timer_transport := t |}) ];
       next_timer := S (next_timer s);
       now := now s; close_calls := close_calls s |},
    next_timer s ).

Definition clearTimeout (s : ServerState) (h : nat) : ServerState :=
  set_timers s (List.filter (fun ht => negb (Nat.eqb (fst ht) h)) (timers s)).

(** The [onsessioninitialized] callback of the transport [t]; the SDK has
    just stored [id], drawn by [randomUUID()], in [transport.sessionId], so
    the assignment adds or replaces an own property of the registry. *)
Definition onsessioninitialized (s : ServerState) (t : nat) (id : string) : ServerState :=
  match transports s !! t with
  | Some tr =>
      let s1 := set_streamable s (<[id := t]> (streamableTransports s)) in
      let '(s2, h) := setTimeout s1 id t in
      set_transport s2 t
        {| transport_kind := transport_kind tr; sessionId := Some id;
           server := server tr; sessionTimeoutHandle := Some h;
           closed := closed tr |}
  | None => s
  end.

(** The [transport.onclose] callback of a Streamable HTTP transport. *)
Definition onclose (s : ServerState) (t : nat) : ServerState :=
  match transports s !! t with
  | Some tr =>
      match sessionId tr with
      | Some id =>
          if truthy_string id then
            let s1 := match sessionTimeoutHandle tr with
                      | Some h => clearTimeout s h
                      | None => s
                      end in
            set_streamable s1 (delete id (streamableTransports s1))
          else s
      | None => s
      end
  | None => s
  end.

Definition mark_closed (tr : Transport) : Transport :=
  {| transport_kind := transport_kind tr; sessionId := sessionId tr;
     server := server tr; sessionTimeoutHandle := sessionTimeoutHandle tr;
     closed := true |}.

(** [transport.close()] of the SDK when it does not throw: the transport is
    closed and its [onclose] callback runs. *)
Definition close_transport (s : ServerState) (t : nat) : ServerState :=
  match transports s !! t with
  | Some tr => onclose (set_transport s t (mark_closed tr)) t
  | None => s
  end.

(** [await transport.handleRequest(req, res, req.body)].  The SDK
    initializes a transport at most once. *)
Definition handleRequest (s : ServerState) (t : nat) (sdk : SdkAction)
  : ServerState * Reply :=
  match sdk with
  | sdk_respond => (s, HandledBy t)
  | sdk_initialize id =>
      match transports s !! t with
      | Some tr =>
          match sessionId tr with
          | None => (onsessioninitialized s t id, HandledBy t)
          | Some _ => (s, HandledBy t)
          end
      | None => (s, HandledBy t)
      end
  | sdk_close => (close_transport s t, HandledBy t)
  end.

(** [app.all("/mcp", ..)].  The handler is taken as one step: what other
    requests do while it awaits [buildMcpServer] and [connect] is not
    modelled. *)
Definition mcp_handler (s : ServerState) (req : Request) (sdk : SdkAction)
  : ServerState * Reply :=
  let sessionId := mcp_session_id req in
  let found := js_get (streamableTransports s) (default "" sessionId) in
  if truthy sessionId && truthy_lookup found then
    match found with
    | Own t => handleRequest s t sdk
    | _ => (s, Uncaught {| message := "transport.handleRequest is not a function" |})
    end
  else if negb (truthy sessionId) && is_initialize_body req then
    let '(s1, t) := new_transport s StreamableHTTP None in
    let '(s2, srv) := buildMcpServer s1 in
    let s3 := connect s2 srv t in
    handleRequest s3 t sdk
  else
    (s, RejectedJson 400 bad_handshake).

(** [app.get("/sse", ..)]; [id] is the [randomUUID()] drawn by the
    constructor of the transport. *)
Definition sse_handler (s : ServerState) (id : string) : ServerState * Reply :=
  let '(s1, t) := new_transport s SSE (Some id) in
  let s2 := set_sse s1 (<[id := t]> (sseTransports s1)) in
  let '(s3, srv) := buildMcpServer s2 in
  (connect s3 srv t, HandledBy t).

(** The ["close"] listener of the response of an SSE connection. *)
Definition sse_on_close (s : ServerState) (t : nat) : ServerState :=
  match transports s !! t with
  | Some tr =>
      match sessionId tr with
      | Some id =>
          set_transport (set_sse s (delete id (sseTransports s))) t (mark_closed tr)
      | None => s
      end
  | None => s
  end.

(** [app.post("/messages", ..)]; a missing query parameter is looked up as
    the property ["undefined"]. *)
Definition messages_handler (s : ServerState) (req : Request) : ServerState * Reply :=
  let sessionId := default "undefined" (query_sessionId req) in
  let transport := js_get (sseTransports s) sessionId in
  if negb (truthy_lookup transport) then
    (s, RejectedText 400 "Unknown or expired sessionId")
  else
    match transport with
    | Own t => (s, HandledBy t)
    | _ => (s, Uncaught {| message := "transport.handlePostMessage is not a function" |})
    end.

(** The callback of the idle timer: [delete streamableTransports[id]], then
    [transport.close()] inside [try]/[catch]. *)
Definition timer_callback (close_throws : nat -> bool) (s : ServerState) (timer : Timer)
  : ServerState :=
  let s1 := set_streamable s (delete (timer_session timer) (streamableTransports s)) in
  let t := timer_transport timer in
  let s2 :=
    {| streamableTransports := streamableTransports s1;
       sseTransports := sseTransports s1;
       transports := transports s1;
       servers := servers s1; timers := timers s1; next_timer := next_timer s1;
       now := now s1; close_calls := close_calls s1 ++ [t] |} in
  if close_throws t then s2 else close_transport s2 t.

Definition due (clock : N) (ht : nat * Timer) : bool :=
  (deadline (snd ht) <=? clock)%N.

(** [ms] milliseconds pass; the timers that have come due fire, oldest
    first. *)
Definition elapse (close_throws : nat -> bool) (s : ServerState) (ms : N) : ServerState :=
  let clock := (now s + ms)%N in
  let s1 :=
    {| streamableTransports := streamableTransports s;
       sseTransports := sseTransports s;
       transports := transports s;
       servers := servers s;
       timers := List.filter (fun ht => negb (due clock ht)) (timers s);
       next_timer := next_timer s;
       now := clock; close_calls := close_calls s |} in
  fold_left (fun acc ht => timer_callback close_throws acc (snd ht))
    (List.filter (due clock) (timers s)) s1.

(** ** The process as a transition system *)

Inductive Event :=
| McpRequest (req : Request) (sdk : SdkAction)
| SseOpen (id : string)
| SseClose (t : nat)
| MessagesPost (req : Request)
| Elapse (ms : N) (close_throws : nat -> bool).

(** Only the response of an SSE connection carries the ["close"] listener. *)
Definition is_sse (s : ServerState) (t : nat) : bool :=
  match transports s !! t with
  | Some tr => match transport_kind tr with SSE => true | StreamableHTTP => false end
  | None => false
  end.

Definition step (s : ServerState) (ev : Event) : ServerState :=
  match ev with
  | McpRequest req sdk => fst (mcp_handler s req sdk)
  | SseOpen id => fst (sse_handler s id)
  | SseClose t => if is_sse s t then sse_on_close s t else s
  | MessagesPost req => fst (messages_handler s req)
  | Elapse ms close_throws => elapse close_throws s ms
  end.

Definition run_events (s : ServerState) (evs : list Event) : ServerState :=
  fold_left step evs s.

(** The state after a transport of kind [k] with session id [id] has been
    created and connected to a freshly built server. *)
Definition with_transport (s : ServerState) (k : TransportKind) (id : option string)
  : ServerState :=
  {| streamableTransports := streamableTransports s;
     sseTransports := sseTransports s;
     transports := transports s ++
       [ {| transport_kind := k; sessionId := id; server := Some (servers s);
            sessionTimeoutHandle := None; closed := false |} ];
     servers := S (servers s);
     timers := timers s; next_timer := next_timer s;
     now := now s; close_calls := close_calls s |}.

(** The state right after the init branch of [/mcp] has built the transport
    and the SDK has drawn [id]: the registry slot, the connected server and
    the armed timer. *)
Definition initialized (s : ServerState) (id : string) : ServerState :=
  {| streamableTransports := <[id := length (transports s)]> (streamableTransports s);
     sseTransports := sseTransports s;
     transports := transports s ++
       [ {| transport_kind := StreamableHTTP; sessionId := Some id;
            server := Some (servers s);
            sessionTimeoutHandle := Some (next_timer s); closed := false |} ];
     servers := S (servers s);
     timers := timers s ++
       [ (next_timer s,
          {| deadline := (now s + 1000 * 60 * 60)%N; timer_session := id;
             timer_transport := length (transports s) |}) ];
     next_timer := S (next_timer s);
     now := now s; close_calls := close_calls s |}.

(** The shape of the strings [randomUUID()] returns: 36 characters, hyphens
    at positions 8, 13, 18 and 23, lower-case hexadecimal digits elsewhere. *)
Definition is_hex (c : ascii) : bool :=
  let n := nat_of_ascii c in
  (Nat.leb 48 n && Nat.leb n 57) || (Nat.leb 97 n && Nat.leb n 102).

Fixpoint uuid_chars (i : nat) (cs : list ascii) : bool :=
  match cs with
  | [] => true
  | c :: rest =>
      (if existsb (Nat.eqb i) [8; 13; 18; 23] then Ascii.eqb c "-" else is_hex c)
      && uuid_chars (S i) rest
  end.

Definition is_uuid (s : string) : bool :=
  Nat.eqb (String.length s) 36 && uuid_chars 0 (list_ascii_of_string s).

(** The session ids that enter the system are drawn by [randomUUID()]. *)
Definition valid_event (ev : Event) : Prop :=
  match ev with
  | McpRequest _ (sdk_initialize id) => is_uuid id = true
  | SseOpen id => is_uuid id = true
  | _ => True
  end.

(** A registry slot [id ↦ t] holds a live transport of the right kind that
    carries [id] and is connected to a server. *)
Definition slot_ok (s : ServerState) (k : TransportKind) (id : string) (t : nat) : Prop :=
  is_uuid id = true /\
  exists tr srv, transports s !! t = Some tr /\ transport_kind tr = k /\
                 sessionId tr = Some id /\ server tr = Some srv /\ closed tr = false.

(** If [t] names a transport, it is a Streamable HTTP one. *)
Definition streamable_transport (s : ServerState) (t : nat) : Prop :=
  forall tr, transports s !! t = Some tr -> transport_kind tr = StreamableHTTP.

Record registries_ok (s : ServerState) : Prop := {
  streamable_slots :
    forall id t, streamableTransports s !! id = Some t -> slot_ok s StreamableHTTP id t;
  sse_slots :
    forall id t, sseTransports s !! id = Some t -> slot_ok s SSE id t;
  servers_built :
    forall t tr srv, transports s !! t = Some tr -> server tr = Some srv -> srv < servers s;
  servers_unshared :
    forall t1 t2 tr1 tr2 srv,
      transports s !! t1 = Some tr1 -> transports s !! t2 = Some tr2 ->
      server tr1 = Some srv -> server tr2 = Some srv -> t1 = t2;
  timers_streamable :
    forall h timer, In (h, timer) (timers s) ->
      exists tr, transports s !! timer_transport timer = Some tr /\
                 transport_kind tr = StreamableHTTP
}.


(* ===================================================================== *)
(** * Part 6. The reindex: [refreshSchema] of [rag.ts]                    *)
(* ===================================================================== *)

Definition Vector := list float.

(** [{ chunk: docContent, vec: r.data[0].embedding }]. *)
Record Embedded := { chunk : string; vec : Vector }.

(** [r.data[0].embedding] on the [data] of an embeddings response: reading a
    property of [undefined] throws a [TypeError]. *)
Definition first_embedding (data : list Vector) : Error + Vector :=
  match data with
  | embedding :: _ => inr embedding
  | [] => inl {| message := "Cannot read properties of undefined (reading 'embedding')" |}
  end.

(** The function that [refreshSchema] hands to [limit] for [docContent],
    from the point where its [await openai.embeddings.create(..)] is settled
    with [answer] (a rejection, or a response with the embeddings of its
    [data], typed as the OpenAI client types them): everything thrown inside
    the [try] is caught and gives [null].  The counter [embeddedCount] is
    only logged. *)
Definition embed (docContent : string) (answer : Error + list Vector) : option Embedded :=
  match answer with
  | inr data =>
      match first_embedding data with
      | inr embedding => Some {| chunk := docContent; vec := embedding |}
      | inl embedError => None
      end
  | inl embedError => None
  end.

(** The promise that [limit(..)] has returned for one document. *)
Inductive Status :=
| Queued                          (* the function waits in the queue of p-limit *)
| Running                         (* the function has been called and awaits its
                                     [openai.embeddings.create] *)
| Fulfilled (v : option Embedded). (* the function has returned [v] *)

(** The limiter made by [pLimit(concurrency)] together with the promises it
    has handed out, in the order of the [limit] calls.  [activeCount] and
    [queue] are the variables of those names in p-limit; the queue holds the
    positions of the functions that wait. *)
Record FanOut := {
  concurrency : nat;
  promises : list (string * Status);
  activeCount : nat;
  queue : list nat
}.

Definition pLimit (concurrency : nat) : FanOut :=
  {| concurrency := concurrency; promises := []; activeCount := 0; queue := [] |}.

Definition set_status (ps : list (string * Status)) (i : nat) (status : Status)
  : list (string * Status) :=
  alter (fun p => (fst p, status)) i ps.

(** p-limit calls the function at position [i], which runs up to its
    [await]: one more embedding call is in flight. *)
Definition start (st : FanOut) (i : nat) : FanOut :=
  {| concurrency := concurrency st;
     promises := set_status (promises st) i Running;
     activeCount := S (activeCount st);
     queue := queue st |}.

(** [limit(async () => { .. })] for [docContent]: below the cap the function
    is called, otherwise it is queued.  (The releases of p-limit that queue
    every function first start the ones below the cap in the same turn of
    the event loop.) *)
Definition limit (st : FanOut) (docContent : string) : FanOut :=
  let i := length (promises st) in
  let st1 :=
    {| concurrency := concurrency st;
       promises := (promises st ++ [(docContent, Queued)])%list;
       activeCount := activeCount st;
       queue := queue st |} in
  if Nat.ltb (activeCount st) (concurrency st) then start st1 i
  else
    {| concurrency := concurrency st1; promises := promises st1;
       activeCount := activeCount st1; queue := (queue st1 ++ [i])%list |}.

(** What p-limit does when a function has settled: the count goes down and
    the oldest function of the queue is called. *)
Definition limiter_next (st : FanOut) : FanOut :=
  match queue st with
  | [] =>
      {| concurrency := concurrency st; promises := promises st;
         activeCount := activeCount st - 1; queue := [] |}
  | i :: rest =>
      start {| concurrency := concurrency st; promises := promises st;
               activeCount := activeCount st - 1; queue := rest |} i
  end.

(** [docs.map(docContent => limit(..))] with [limit = pLimit(3)]. *)
Definition fan_out (docs : list string) : FanOut := fold_left limit docs (pLimit 3).

(** The embedding call of the document at position [i] is settled, with
    [answer i]: its function resumes and returns, its promise is fulfilled
    and p-limit goes on.  These steps run in one turn of the event loop. *)
Definition settle (answer : nat -> Error + list Vector) (st : FanOut) (i : nat)
  : option FanOut :=
  match promises st !! i with
  | Some (docContent, Running) =>
      Some (limiter_next {| concurrency := concurrency st;
                            promises := set_status (promises st) i
                                          (Fulfilled (embed docContent (answer i)));
                            activeCount := activeCount st;
                            queue := queue st |})
  | _ => None
  end.

(** The embedding service settles the calls in the order [order]. *)
Fixpoint play (answer : nat -> Error + list Vector) (st : FanOut) (order : list nat)
  : option FanOut :=
  match order with
  | [] => Some st
  | i :: rest =>
      match settle answer st i with
      | Some st' => play answer st' rest
      | None => None
      end
  end.

(** [await Promise.all(..)]: the values of the promises once all are
    fulfilled (none of them is ever rejected), [None] while one is not. *)
Fixpoint Promise_all (ps : list (string * Status)) : option (list (option Embedded)) :=
  match ps with
  | [] => Some []
  | (_, Fulfilled v) :: rest =>
      match Promise_all rest with
      | Some vs => Some (v :: vs)
      | None => None
      end
  | _ => None
  end.

(** [vectors.filter(v => v !== null)]. *)
Fixpoint validVectors (vectors : list (option Embedded)) : list Embedded :=
  match vectors with
  | [] => []
  | Some v :: rest => v :: validVectors rest
  | None :: rest => validVectors rest
  end.

Record Point := { point_id : nat; point_vector : Vector; payload_text : string }.

(** The calls [refreshSchema] makes to the vector store. *)
Inductive QdrantCall :=
| recreateCollection (collection : string) (size : nat) (distance : string)
| upsert (collection : string) (points : list Point).

(** [validVectors.map((v, i) => ({ id: i, vector: v.vec, payload: { text:
    v.chunk } }))]. *)
Definition points (validVectors : list Embedded) : list Point :=
  imap (fun i v => {| point_id := i; point_vector := vec v; payload_text := chunk v |})
    validVectors.

(** An array is truthy, also when it is empty. *)
Definition truthy_array (v : Vector) : bool := true.

Definition counts (f : Status -> bool) (ps : list (string * Status)) : nat :=
  length (List.filter (fun p => f (snd p)) ps).

Definition is_running (status : Status) : bool :=
  match status with Running => true | _ => false end.

Definition is_unsettled (status : Status) : bool :=
  match status with Fulfilled _ => false | _ => true end.

(** The embedding calls in flight: the functions that await their call. *)
Definition in_flight (st : FanOut) : nat := counts is_running (promises st).

(** The promises that are not fulfilled yet. *)
Definition unsettled (st : FanOut) : nat := counts is_unsettled (promises st).

Section Reindex.

(** [splitter.splitText], the collection name [COL]
    ([process.env.QDRANT_COLLECTION ?? "graphql-schema"]) and whether a call
    to the vector store is fulfilled. *)
Variable splitText : string -> Error + list string.
Variable COL : string.
Variable qdrant_fulfils : QdrantCall -> bool.

(** The end of [refreshSchema], from the filter on: the calls made to the
    vector store.  A rejected call is caught and logged. *)
Definition recreate_and_upsert (vectors : list (option Embedded)) : list QdrantCall :=
  let validVectors := validVectors vectors in
  match validVectors with
  | [] => []
  | first :: _ =>
      if negb (truthy_array (vec first)) then []
      else
        let recreate := recreateCollection COL (length (vec first)) "Cosine" in
        if qdrant_fulfils recreate
        then [ recreate; upsert COL (points validVectors) ]
        else [ recreate ]
  end.

(** [refreshSchema(schemaSDL)] when the embedding service settles the calls
    in the order [order]: the promise is rejected (by [splitText]), or it is
    fulfilled after the listed calls to the vector store; [None] when
    [order] is not a complete run of the embedding calls. *)
Definition refreshSchema (answer : nat -> Error + list Vector) (schemaSDL : string)
    (order : list nat) : option (Error + list QdrantCall) :=
  match splitText schemaSDL with
  | inl e => Some (inl e)
  | inr docs =>
      if Nat.eqb (length docs) 0 then Some (inr [])
      else
        match play answer (fan_out docs) order with
        | Some st =>
            match Promise_all (promises st) with
            | Some vectors => Some (inr (recreate_and_upsert vectors))
            | None => None
            end
        | None => None
        end
  end.

End Reindex.

(** The result set in the words of the specification: the chunks whose
    embedding succeeds, with their vectors, in split order, the failed ones
    dropped.  The chunks are numbered from [i] on; an embedding succeeds
    when the call is fulfilled with a response that holds a vector. *)
Fixpoint successes (answer : nat -> Error + list Vector) (i : nat) (docs : list string)
  : list Embedded :=
  match docs with
  | [] => []
  | docContent :: rest =>
      match answer i with
      | inr (embedding :: _) =>
          {| chunk := docContent; vec := embedding |} :: successes answer (S i) rest
      | _ => successes answer (S i) rest
      end
  end.

(** The answers are kept apart: a fulfilled promise holds what its own
    function returned for the answer to its own call. *)
Definition settled_by_own_call (answer : nat -> Error + list Vector) (k : nat)
    (ps : list (string * Status)) : Prop :=
  forall i docContent v,
    ps !! i = Some (docContent, Fulfilled v) -> v = embed docContent (answer (k + i)).

(** The bookkeeping of a limiter with cap [c]: [activeCount] counts the
    functions that run, it stays within the cap, the queue holds the
    positions of the waiting functions (a tail of the promises, oldest
    first), and a function waits only while the limiter is full. *)
Record limiter_ok (c : nat) (st : FanOut) : Prop := {
  limiter_cap : concurrency st = c;
  active_is_running : activeCount st = in_flight st;
  active_below_cap : activeCount st <= c;
  queue_is_tail :
    exists k, k <= length (promises st) /\
              queue st = seq k (length (promises st) - k) /\
              forall i docContent status,
                promises st !! i = Some (docContent, status) ->
                (status = Queued <-> k <= i);
  queue_waits : queue st <> [] -> activeCount st = c
}.

(** The facts that every step of the fan-out of [docs] keeps. *)
Record fan_out_ok (answer : nat -> Error + list Vector) (c : nat) (docs : list string)
    (st : FanOut) : Prop := {
  fan_limiter : limiter_ok c st;
  fan_texts : map fst (promises st) = docs;
  fan_answers : settled_by_own_call answer 0 (promises st)
}.

(* ===================================================================== *)
(** * Part 6b. Further vocabulary, the test client and the environment    *)
(* ===================================================================== *)

(** Every path through the computation ends in a returned value that
    satisfies [P]; none ends in an uncaught exception. *)
Fixpoint every_result {A} (P : A -> Prop) (m : Async A) : Prop :=
  match m with
  | Ret a => P a
  | Throw _ => False
  | Await e k => forall x, every_result P (k x)
  end.

(** The result is one text item, with or without the error flag. *)
Definition single_text (r : ToolResult) : Prop :=
  content r = [ {| type := "text"; text := result_text r |} ] /\
  (isError r = None \/ isError r = Some true).

(** The pending timers are owned by the transports that armed them.  Every
    pending timer was armed by the [onsessioninitialized] of the transport it
    will close, for the session id that transport carries; no two transports
    share a timer handle; a pending timer is due in the future, at most
    [timeoutMs] from now; and every slot of [streamableTransports] has its
    pending timer.  While the timers of [batch] are being run (they have left
    the pending list and their callbacks have not all run yet), a slot may be
    waiting for a callback of [batch] instead. *)
Record timers_ok_with (batch : list (nat * Timer)) (s : ServerState) : Prop := {
  timer_owner :
    forall h timer, In (h, timer) (timers s) ->
      exists tr, transports s !! timer_transport timer = Some tr /\
                 sessionTimeoutHandle tr = Some h /\
                 sessionId tr = Some (timer_session timer);
  handles_fresh :
    forall t tr h, transports s !! t = Some tr -> sessionTimeoutHandle tr = Some h ->
                   h < next_timer s;
  handles_unshared :
    forall t1 t2 tr1 tr2 h,
      transports s !! t1 = Some tr1 -> transports s !! t2 = Some tr2 ->
      sessionTimeoutHandle tr1 = Some h -> sessionTimeoutHandle tr2 = Some h -> t1 = t2;
  timer_window :
    forall h timer, In (h, timer) (timers s) ->
      (now s < deadline timer /\ deadline timer <= now s + timeoutMs)%N;
  slot_timer :
    forall id t, streamableTransports s !! id = Some t ->
      (exists h d, In (h, {| deadline := d; timer_session := id; timer_transport := t |})
                      (timers s)) \/
      (exists h timer, In (h, timer) batch /\ timer_session timer = id)
}.

Definition timers_ok (s : ServerState) : Prop := timers_ok_with [] s.

(** ** The test client ([client.ts]) *)

(** [getResultText(result)] on a tool result: the text of the first item when
    that item is of type "text", else [JSON.stringify(result.content, null,
    2)]. *)
Definition getResultText (stringify : list Content -> string) (result : ToolResult)
  : string :=
  match content result with
  | c :: _ => if String.eqb (type c) "text" then text c else stringify (content result)
  | [] => stringify (content result)
  end.

(** [if (result.isError)]. *)
Definition truthy_flag (result : ToolResult) : bool :=
  match isError result with
  | Some b => b
  | None => false
  end.

(** What the client logs after its mutation test. *)
Inductive MutationLog :=
| ExpectedDisallowed   (* "Received expected mutation disallowed error." *)
| ErrorAsExpected      (* "Received an error as expected (might be disallowed or other)." *)
| NotDisallowed.       (* "Warning: Mutation did not result in expected 'disallowed' error." *)

Definition mutation_log (stringify : list Content -> string) (result : ToolResult)
  : MutationLog :=
  if negb (truthy_flag result) &&
     includes (getResultText stringify result) "Mutations are not allowed"
  then ExpectedDisallowed
  else if truthy_flag result then ErrorAsExpected
  else NotDisallowed.

(** ** The environment ([EnvSchema]) *)

(** The own enumerable properties of a JSON value, the ones an object spread
    copies: the members of an object, the elements of an array and the
    characters of a string under their indices. *)
Definition own_enumerable (v : Json) : list (string * Json) :=
  match v with
  | JObject fields => fields
  | JArray items => imap (fun i x => (string_of_nat i, x)) items
  | JString s =>
      imap (fun i c => (string_of_nat i, JString (String c EmptyString)))
        (list_ascii_of_string s)
  | _ => []
  end.

Section Environment.

(** The [url()] check of zod and [JSON.parse]. *)
Variable is_url : string -> bool.
Variable JSON_parse : string -> Error + Json.

(** [z.string().url().default("http://localhost:4000/graphql")]. *)
Definition parse_ENDPOINT (v : option string) : option string :=
  let value := default "http://localhost:4000/graphql" v in
  if is_url value then Some value else None.

(** [z.enum(["true", "false"]).transform((value) => value === "true")
    .default("false")]. *)
Definition parse_ALLOW_MUTATIONS (v : option string) : option bool :=
  let value := default "false" v in
  if String.eqb value "true" || String.eqb value "false"
  then Some (String.eqb value "true")
  else None.

(** [z.string().default("{}").transform(..)]: [JSON.parse], an issue when it
    throws. *)
Definition parse_HEADERS (v : option string) : option Json :=
  match JSON_parse (default "{}" v) with
  | inr parsed => Some parsed
  | inl _ => None
  end.

(** [EnvSchema.parse(process.env)]; [None] when zod reports an issue, in which
    case the process exits with status 1. *)
Definition EnvSchema_parse (process_env : string -> option string) : option Env :=
  match parse_ENDPOINT (process_env "ENDPOINT"),
        parse_ALLOW_MUTATIONS (process_env "ALLOW_MUTATIONS"),
        parse_HEADERS (process_env "HEADERS") with
  | Some endpoint, Some allow, Some parsed =>
      Some {| NAME := default "mcp-graphql-srv" (process_env "NAME");
              ENDPOINT := endpoint;
              ALLOW_MUTATIONS := allow;
              HEADERS := own_enumerable parsed;
              SCHEMA := process_env "SCHEMA";
              MCP_API_KEY := process_env "MCP_API_KEY" |}
  | _, _, _ => None
  end.

End Environment.

(* ===================================================================== *)
(** * Sample inputs                                                       *)
(* ===================================================================== *)

(** ** Sample answers of the library functions

    [JSON.parse] and [parse] are library code; the examples below fix their
    answers on the handful of strings they use, every other string being
    reported as malformed. *)

Definition dq : string := String "034"%char EmptyString.

Definition errors_body : string :=
  "{" ++ dq ++ "errors" ++ dq ++ ":[{" ++ dq ++ "message" ++ dq ++ ":"
      ++ dq ++ "boom" ++ dq ++ "}]}".

Definition errors_data : Json :=
  JObject [("errors", JArray [JObject [("message", JString "boom")]])].

Definition sample_JSON_parse (s : string) : Error + Json :=
  if String.eqb s "{}" then inr (JObject [])
  else if String.eqb s "null" then inr JNull
  else if String.eqb s errors_body then inr errors_data
  else inl {| message := "Unexpected token b in JSON at position 1" |}.

(** [JSON.stringify(errors_data, null, 2)]. *)
Definition errors_pretty : string :=
  "{" ++ nl ++
  "  " ++ dq ++ "errors" ++ dq ++ ": [" ++ nl ++
  "    {" ++ nl ++
  "      " ++ dq ++ "message" ++ dq ++ ": " ++ dq ++ "boom" ++ dq ++ nl ++
  "    }" ++ nl ++
  "  ]" ++ nl ++
  "}".

Definition sample_JSON_stringify (v : Json) : string :=
  match v with
  | JObject [] => "{}"
  | JNull => "null"
  | _ => errors_pretty
  end.

Definition operation_node (op : string) : DefinitionNode :=
  {| kind := "OperationDefinition"; operation := Some op |}.

Definition sample_parse (s : string) : Error + DocumentNode :=
  if String.eqb s "mutation { addData(input: { value: 1 }) { id } }"
  then inr {| definitions := [operation_node "mutation"] |}
  else if String.eqb s "{ __typename }"
  then inr {| definitions := [operation_node "query"] |}
  else if String.eqb s "subscription { ticks }"
  then inr {| definitions := [operation_node "subscription"] |}
  else inl {| message := "Syntax Error: Expected Name, found <EOF>." |}.

(** No example reaches the comparison of a string or an array with [0]. *)
Definition sample_gt0 (v : Json) : Error + bool := inr false.

Definition mutation_query : string :=
  "mutation { addData(input: { value: 1 }) { id } }".

Definition mutation_document : DocumentNode :=
  {| definitions := [operation_node "mutation"] |}.

Definition subscription_document : DocumentNode :=
  {| definitions := [operation_node "subscription"] |}.

Definition schema_hits : list string :=
  [ "type User { id: ID! name: String }"; "type Query { hello: String }" ].

Definition sample_env (allow : bool) (key : option string) : Env :=
  {| NAME := "mcp-graphql-srv";
     ENDPOINT := "http://localhost:4000/graphql";
     ALLOW_MUTATIONS := allow;
     HEADERS := [];
     SCHEMA := None;
     MCP_API_KEY := key |}.

Definition sample_query_graphql (allow : bool) :=
  query_graphql (sample_env allow None) sample_JSON_parse sample_JSON_stringify
    sample_parse sample_gt0.

Definition secret_env : Env := sample_env false (Some "secret").

Definition request (m : Method) (path : string) (key session param : option string)
    (init : bool) : Request :=
  {| req_method := m; req_path := path; x_api_key := key; mcp_session_id := session;
     query_sessionId := param; is_initialize_body := init |}.

Definition uuid1 : string := "123e4567-e89b-42d3-a456-426614174000".

Definition never_throwing (t : nat) : bool := false.

Definition init_request : Request := request POST "/mcp" None None None true.

Definition follow_up : Request := request POST "/mcp" None (Some uuid1) None false.

(** A POST to the side channel of the push stream [uuid1]. *)
Definition side_post : Request := request POST "/messages" None None (Some uuid1) false.

(** One stream-style session: the handshake, for which the SDK draws
    [uuid1]. *)
Definition sample_session : list Event :=
  [ McpRequest init_request (sdk_initialize uuid1) ].

(** Ten chunks; the embedding service fails for the chunk 3 and answers
    without data for the chunk 7. *)
Definition ten_chunks : list string :=
  [ "c0"; "c1"; "c2"; "c3"; "c4"; "c5"; "c6"; "c7"; "c8"; "c9" ].

Definition two_failures (i : nat) : Error + list Vector :=
  if Nat.eqb i 3 then inl {| message := "429 Too Many Requests" |}
  else if Nat.eqb i 7 then inr []
  else inr [ [1%float; 0%float] ].

(** The calls settle out of order; each settlement lets the next function
    of the queue start. *)
Definition ten_schedule : list nat := [ 1; 0; 3; 2; 5; 4; 6; 9; 7; 8 ].

Definition one_split (schemaSDL : string) : Error + list string := inr ten_chunks.

Definition store_is_up (c : QdrantCall) : bool := true.

Definition timer1 : Timer :=
  {| deadline := 3600000; timer_session := uuid1; timer_transport := 0 |}.

Definition minutes (n : N) : N := (n * 60 * 1000)%N.

(** An upstream that is reachable and answers [200 OK] with [body]. *)
Definition upstream_200 (body : string) : World :=
  fun X e =>
    match e in Eff X return Error + X with
    | fetch _ _ => inr {| ok := true; status := 200; statusText := "OK" |}
    | response_text _ => inr body
    | semanticSearch _ _ => inr []
    end.

(** A retrieval pipeline that returns [hits]. *)
Definition pipeline_returns (hits : list string) : World :=
  fun X e =>
    match e in Eff X return Error + X with
    | fetch _ _ => inl {| message := "fetch failed" |}
    | response_text _ => inl {| message := "fetch failed" |}
    | semanticSearch _ _ => inr hits
    end.

(** ** Sample inputs of the further properties *)

(** A retrieval pipeline that is down. *)
Definition pipeline_fails : World :=
  fun X e =>
    match e in Eff X return Error + X with
    | fetch _ _ => inl {| message := "fetch failed" |}
    | response_text _ => inl {| message := "fetch failed" |}
    | semanticSearch _ _ => inl {| message := "Connection refused" |}
    end.

Definition ok_response : Response := {| ok := true; status := 200; statusText := "OK" |}.

Definition typename_request : Eff Response :=
  fetch "http://localhost:4000/graphql"
    (request_init (sample_env false None) "{ __typename }" None).

(** A process environment that sets [ENDPOINT] and [ALLOW_MUTATIONS] only. *)
Definition sample_process_env (allow : string) (name : string) : option string :=
  if String.eqb name "ENDPOINT" then Some "http://localhost:4000/graphql"
  else if String.eqb name "ALLOW_MUTATIONS" then Some allow
  else None.

Definition sample_is_url (s : string) : bool := startsWith s "http://".

Definition plain_stringify (items : list Content) : string := "[]".

(* ===================================================================== *)
(** * Part 7. Properties                                                  *)
(* ===================================================================== *)

(** ** The tool handlers *)

Section ToolProperties.

Variable env : Env.
Variable JSON_parse : string -> Error + Json.
Variable JSON_stringify : Json -> string.
Variable parse : string -> Error + DocumentNode.
Variable coerced_gt0 : Json -> Error + bool.

Local Abbreviation execute' := (execute env JSON_parse JSON_stringify coerced_gt0).
Local Abbreviation parse_variables' := (parse_variables JSON_parse).
Local Abbreviation mutation_gate' := (mutation_gate env parse).

Lemma isMutation_iff (doc : DocumentNode) :
  isMutation doc = true <-> has_mutation_operation doc.
Proof.
  unfold isMutation, has_mutation_operation.
  rewrite existsb_exists. split.
  - intros (def & Hin & Hdef). exists def.
    apply andb_true_iff in Hdef as [Hk Ho].
    apply String.eqb_eq in Hk.
    destruct (operation def) as [op|] eqn:Hop; [|discriminate].
    apply String.eqb_eq in Ho. subst op. auto.
  - intros (def & Hin & Hk & Ho). exists def. split; [assumption|].
    rewrite Hk, Ho. reflexivity.
Qed.

Lemma parse_variables_accepted variables pv :
  variables_accepted JSON_parse variables pv ->
  parse_variables' variables = Ret (Normal pv).
Proof.
  unfold variables_accepted, parse_variables.
  destruct variables as [s|]; [|intros ->; reflexivity].
  destruct (truthy_string s); [|intros ->; reflexivity].
  intros (parsed & -> & ->). reflexivity.
Qed.

Lemma parse_variables_rejected s err :
  truthy_string s = true -> JSON_parse s = inl err ->
  parse_variables' (Some s) =
    Ret (Return (error_result
      ("Invalid variables: Must be a valid JSON string. Error: " ++ message err))).
Proof.
  intros Hs Hp. unfold parse_variables. rewrite Hs, Hp. reflexivity.
Qed.

(** The first block never awaits and never throws. *)
Lemma parse_variables_returns variables :
  exists c, parse_variables' variables = Ret c.
Proof.
  unfold parse_variables.
  destruct variables as [s|]; [|eauto].
  destruct (truthy_string s); [|eauto].
  destruct (JSON_parse s); simpl; eauto.
Qed.

Lemma mutation_gate_invalid query err :
  parse query = inl err ->
  mutation_gate' query =
    Ret (Return (error_result ("Invalid GraphQL query: " ++ message err))).
Proof. intros Hp. unfold mutation_gate. rewrite Hp. reflexivity. Qed.

Lemma mutation_gate_parsed query doc :
  parse query = inr doc ->
  mutation_gate' query =
    if isMutation doc && negb (ALLOW_MUTATIONS env)
    then Ret (Return (error_result
           "Mutations are not allowed. Set ALLOW_MUTATIONS=true to enable them."))
    else Ret (Normal tt).
Proof.
  intros Hp. unfold mutation_gate. rewrite Hp. simpl.
  destruct (isMutation doc && negb (ALLOW_MUTATIONS env)); reflexivity.
Qed.

(** The third block starts with the request to the configured endpoint. *)
Lemma execute_fetches query pv :
  exists k, execute' query pv =
            Await (fetch (ENDPOINT env) (request_init env query pv)) k.
Proof. unfold execute. simpl. eauto. Qed.

End ToolProperties.

Section ToolTheorems.

Variable env : Env.
Variable JSON_parse : string -> Error + Json.
Variable JSON_stringify : Json -> string.
Variable parse : string -> Error + DocumentNode.
Variable coerced_gt0 : Json -> Error + bool.

Local Abbreviation handler := (query_graphql env JSON_parse JSON_stringify parse coerced_gt0).

(** The labels tell the classes apart: a text that starts with the label
    of a mode is read as the class of that mode. *)
Lemma class_of_text_label mode rest :
  class_of_text (label_of mode ++ rest) = Some (class_of mode).
Proof. destruct mode; vm_compute; reflexivity. Qed.

Lemma handler_unfold query variables :
  handler query variables =
    and_then (parse_variables JSON_parse variables) (fun pv =>
    and_then (mutation_gate env parse query) (fun _ =>
    execute env JSON_parse JSON_stringify coerced_gt0 query pv)).
Proof. reflexivity. Qed.

Lemma execute_never_throws query pv :
  never_throws (execute env JSON_parse JSON_stringify coerced_gt0 query pv).
Proof.
  unfold execute. simpl. intros [err|response]; simpl; [exact I|].
  intros [err|responseText]; simpl; [exact I|].
  destruct (ok response); simpl; [|exact I].
  unfold parse_response, and_then.
  destruct (JSON_parse responseText) as [err|data]; simpl; [exact I|].
  destruct (data_errors data) as [err|errors]; simpl; [exact I|].
  destruct (errors_present coerced_gt0 errors) as [err|[|]]; exact I.
Qed.

Lemma handler_never_throws query variables :
  never_throws (handler query variables).
Proof.
  rewrite handler_unfold.
  destruct (parse_variables_returns JSON_parse variables) as [c ->].
  unfold and_then.
  destruct c as [pv|r]; simpl; [|exact I].
  unfold mutation_gate.
  destruct (parse query) as [err|doc]; simpl; [exact I|].
  destruct (isMutation doc && negb (ALLOW_MUTATIONS env)); simpl; [exact I|].
  exact (execute_never_throws query pv).
Qed.

(** A call that gets past both checks is exactly the third block. *)
Lemma handler_passes_checks query variables pv :
  passes_checks env JSON_parse parse query variables pv ->
  handler query variables =
    execute env JSON_parse JSON_stringify coerced_gt0 query pv.
Proof.
  intros (Hv & doc & Hdoc & Hgate).
  rewrite handler_unfold, (parse_variables_accepted _ _ _ Hv). simpl.
  rewrite (mutation_gate_parsed _ _ _ _ Hdoc), Hgate. reflexivity.
Qed.

(** C10.  [isMutation] holds exactly of the documents with an operation
    definition whose operation is ["mutation"].  A query whose document has
    only query and subscription operations passes the mutation gate whatever
    [ALLOW_MUTATIONS] is: the handler is then the variables block followed by
    the execution block, whose first action is the request to [ENDPOINT]. *)
Theorem query_graphql_classifies_mutations (query : string) (doc : DocumentNode) :
  parse query = inr doc ->
  only_queries_or_subscriptions doc ->
  (forall d : DocumentNode, isMutation d = true <-> has_mutation_operation d) /\
  isMutation doc = false /\
  mutation_gate env parse query = Ret (Normal tt) /\
  (forall variables,
     handler query variables =
       and_then (parse_variables JSON_parse variables)
         (fun pv => execute env JSON_parse JSON_stringify coerced_gt0 query pv)) /\
  (forall variables pv, variables_accepted JSON_parse variables pv ->
     exists k, handler query variables =
               Await (fetch (ENDPOINT env) (request_init env query pv)) k).
Proof.
  intros Hparse Honly.
  assert (Hno : isMutation doc = false).
  { destruct (isMutation doc) eqn:E; [|reflexivity].
    apply isMutation_iff in E as (def & Hin & Hk & Ho).
    destruct (Honly def Hin Hk) as [H|H]; rewrite H in Ho; discriminate. }
  assert (Hgate : mutation_gate env parse query = Ret (Normal tt)).
  { rewrite (mutation_gate_parsed _ _ _ _ Hparse), Hno. reflexivity. }
  split; [exact isMutation_iff|].
  split; [exact Hno|]. split; [exact Hgate|]. split.
  - intros variables. rewrite handler_unfold, Hgate. reflexivity.
  - intros variables pv Hv.
    rewrite (handler_passes_checks query variables pv).
    + apply execute_fetches.
    + split; [exact Hv|]. exists doc. rewrite Hno. auto.
Qed.

(** C2 (amended).  For a query whose document holds a mutation operation
    and a [variables] argument that is absent, empty or valid JSON: with
    [ALLOW_MUTATIONS] off the handler returns, without awaiting anything, a
    result with [isError = true] whose text contains "not allowed"; with the
    flag on its first action is the request to [ENDPOINT]. *)
Theorem mutation_gate_blocks_or_forwards query doc variables pv :
  parse query = inr doc ->
  has_mutation_operation doc ->
  variables_accepted JSON_parse variables pv ->
  (ALLOW_MUTATIONS env = false ->
     exists r, handler query variables = Ret r /\
               isError r = Some true /\
               includes (result_text r) "not allowed" = true /\
               forall w, fst (run w (handler query variables)) = []) /\
  (ALLOW_MUTATIONS env = true ->
     exists k, handler query variables =
               Await (fetch (ENDPOINT env) (request_init env query pv)) k).
Proof.
  intros Hparse Hmut Hv. apply isMutation_iff in Hmut. split; intros Hflag.
  - eexists. split.
    + rewrite handler_unfold, (parse_variables_accepted _ _ _ Hv). unfold and_then. simpl.
      rewrite (mutation_gate_parsed _ _ _ _ Hparse), Hmut, Hflag. reflexivity.
    + split; [reflexivity|]. split; [vm_compute; reflexivity|].
      intros w.
      rewrite handler_unfold, (parse_variables_accepted _ _ _ Hv). unfold and_then. simpl.
      rewrite (mutation_gate_parsed _ _ _ _ Hparse), Hmut, Hflag. reflexivity.
  - rewrite (handler_passes_checks query variables pv).
    + apply execute_fetches.
    + split; [exact Hv|]. exists doc. rewrite Hflag, andb_false_r. auto.
Qed.

(** C6 (amended).  For a query that [parse] rejects, the handler returns a
    result with [isError = true] without awaiting anything, whatever
    [variables] is; when [variables] is absent, empty or valid JSON the text
    is "Invalid GraphQL query: " followed by the parser's message. *)
Theorem invalid_query_rejected_before_send query err variables :
  parse query = inl err ->
  exists r, handler query variables = Ret r /\
            isError r = Some true /\
            (forall w, fst (run w (handler query variables)) = []) /\
            (forall pv, variables_accepted JSON_parse variables pv ->
               result_text r = "Invalid GraphQL query: " ++ message err).
Proof.
  intros Hparse.
  assert (Hcases :
    (exists pv, variables_accepted JSON_parse variables pv) \/
    (exists s e, variables = Some s /\ truthy_string s = true /\ JSON_parse s = inl e)).
  { unfold variables_accepted. destruct variables as [s|]; [|left; eauto].
    destruct (truthy_string s) eqn:Hs; [|left; eauto].
    destruct (JSON_parse s) as [e|parsed] eqn:Hp; [right; eauto|left; eauto]. }
  destruct Hcases as [[pv Hv]|(s & e & -> & Hs & Hp)].
  - assert (Heq : handler query variables =
                  Ret (error_result ("Invalid GraphQL query: " ++ message err))).
    { rewrite handler_unfold, (parse_variables_accepted _ _ _ Hv). unfold and_then. simpl.
      rewrite (mutation_gate_invalid _ _ _ _ Hparse). reflexivity. }
    eexists. split; [exact Heq|]. split; [reflexivity|]. split.
    + intros w. rewrite Heq. reflexivity.
    + reflexivity.
  - assert (Heq : handler query (Some s) =
                  Ret (error_result
                    ("Invalid variables: Must be a valid JSON string. Error: "
                       ++ message e))).
    { rewrite handler_unfold, (parse_variables_rejected _ _ _ Hs Hp). reflexivity. }
    eexists. split; [exact Heq|]. split; [reflexivity|]. split.
    + intros w. rewrite Heq. reflexivity.
    + intros pv Hv. exfalso. unfold variables_accepted in Hv.
      rewrite Hs in Hv. destruct Hv as (parsed & Hp' & _). congruence.
Qed.

(** C7.  When the retrieval pipeline returns [hits], [search-schema] makes
    that one call and nothing else, and returns a result without the error
    flag: the "nothing found" sentence for an empty list, otherwise the
    hits in the order received, joined by a blank line, three dashes and a
    blank line. *)
Theorem search_schema_joins_hits (w : World) question k hits :
  w _ (semanticSearch question k) = inr hits ->
  run w (search_schema question k) =
    ( [Called (semanticSearch question k)],
      inr {| isError := None;
             content :=
               [ {| type := "text";
                    text := match hits with
                            | [] => "No relevant schema information found for your question."
                            | _ :: _ => String.concat (nl ++ nl ++ "---" ++ nl ++ nl) hits
                            end |} ] |} ).
Proof.
  intros Hw. unfold search_schema. simpl. rewrite Hw. simpl.
  destruct hits as [|h rest]; reflexivity.
Qed.

Lemma snd_run_await {A X} (w : World) (e : Eff X) (k : Error + X -> Async A) :
  snd (run w (Await e k)) = snd (run w (k (w _ e))).
Proof. simpl. destruct (run w (k (w X e))). reflexivity. Qed.

(** What the execution block returns once the upstream has answered
    [200]-like with a body. *)
Lemma execute_responded (w : World) query pv response responseText :
  w _ (fetch (ENDPOINT env) (request_init env query pv)) = inr response ->
  w _ (response_text response) = inr responseText ->
  snd (run w (execute env JSON_parse JSON_stringify coerced_gt0 query pv)) =
    snd (run w
      (try_catch
         (if negb (ok response) then
            Ret (error_result
              ("GraphQL request failed: " ++ string_of_nat (status response) ++ " "
                 ++ statusText response ++ nl ++ responseText))
          else
            and_then (parse_response JSON_parse responseText) (fun data =>
            bind (call (data_errors data)) (fun errors =>
            bind (call (errors_present coerced_gt0 errors)) (fun present =>
            if present then
              Ret (text_result
                ("GraphQL query executed, but the response contains errors: "
                   ++ JSON_stringify data))
            else Ret (text_result (JSON_stringify data))))))
         (fun fetchError =>
            Ret (error_result
              ("Failed to execute GraphQL query: " ++ message fetchError))))).
Proof.
  intros Hfetch Htext. unfold execute. simpl try_catch.
  rewrite snd_run_await, Hfetch. simpl try_catch.
  rewrite snd_run_await, Htext. reflexivity.
Qed.

Lemma errors_present_array fields e es :
  own_property fields "errors" = Some (JArray (e :: es)) ->
  errors_present coerced_gt0 (own_property fields "errors") = inr true.
Proof. intros ->. reflexivity. Qed.

(** C8 (amended).  In each failure mode the handler never throws and the
    call ends in a result with one text item that starts with the label of
    the mode; the label tells the class of the failure (rejected before
    send, upstream responded, upstream unreachable), and a call rejected
    before send awaits nothing.  The error flag is set in every mode except
    the one where the upstream body carries a non-empty [errors] array: that
    result has no error flag. *)
Theorem failures_are_labelled_results (w : World) query variables mode :
  happens env JSON_parse parse w query variables mode ->
  never_throws (handler query variables) /\
  exists r,
    snd (run w (handler query variables)) = inr r /\
    content r = [ {| type := "text"; text := result_text r |} ] /\
    isError r = match mode with GraphQLErrors => None | _ => Some true end /\
    startsWith (result_text r) (label_of mode) = true /\
    class_of_text (result_text r) = Some (class_of mode) /\
    (class_of mode = RejectedBeforeSend ->
       fst (run w (handler query variables)) = []).
Proof.
  intros H. split; [apply handler_never_throws|].
  destruct mode; simpl in H.
  - destruct H as (s & err & -> & Hs & Hp).
    rewrite handler_unfold, (parse_variables_rejected _ _ _ Hs Hp).
    eexists. split; [reflexivity|]. split; [reflexivity|]. split; [reflexivity|].
    split; [vm_compute; reflexivity|]. split; [vm_compute; reflexivity|]. reflexivity.
  - destruct H as ((pv & Hv) & err & Hp).
    rewrite handler_unfold, (parse_variables_accepted _ _ _ Hv). unfold and_then. simpl.
    rewrite (mutation_gate_invalid _ _ _ _ Hp).
    eexists. split; [reflexivity|]. split; [reflexivity|]. split; [reflexivity|].
    split; [vm_compute; reflexivity|]. split; [vm_compute; reflexivity|]. reflexivity.
  - destruct H as ((pv & Hv) & doc & Hp & Hmut & Hflag).
    apply isMutation_iff in Hmut.
    rewrite handler_unfold, (parse_variables_accepted _ _ _ Hv). unfold and_then. simpl.
    rewrite (mutation_gate_parsed _ _ _ _ Hp), Hmut, Hflag.
    eexists. split; [reflexivity|]. split; [reflexivity|]. split; [reflexivity|].
    split; [vm_compute; reflexivity|]. split; [vm_compute; reflexivity|]. reflexivity.
  - destruct H as (pv & response & responseText & Hc & Hf & Ht & Hok).
    rewrite (handler_passes_checks _ _ _ Hc), (execute_responded _ _ _ _ _ Hf Ht), Hok.
    eexists. split; [reflexivity|]. split; [reflexivity|]. split; [reflexivity|].
    split; [vm_compute; reflexivity|]. split; [vm_compute; reflexivity|]. discriminate.
  - destruct H as (pv & response & responseText & err & Hc & Hf & Ht & Hok & Hp).
    rewrite (handler_passes_checks _ _ _ Hc), (execute_responded _ _ _ _ _ Hf Ht), Hok.
    unfold parse_response, and_then. rewrite Hp.
    eexists. split; [reflexivity|]. split; [reflexivity|]. split; [reflexivity|].
    split; [vm_compute; reflexivity|]. split; [vm_compute; reflexivity|]. discriminate.
  - destruct H as (pv & response & responseText & fields & e & es
                   & Hc & Hf & Ht & Hok & Hp & He).
    rewrite (handler_passes_checks _ _ _ Hc), (execute_responded _ _ _ _ _ Hf Ht), Hok.
    unfold parse_response, and_then. rewrite Hp. simpl.
    rewrite (errors_present_array _ _ _ He).
    eexists. split; [reflexivity|]. split; [reflexivity|]. split; [reflexivity|].
    split; [vm_compute; reflexivity|]. split; [vm_compute; reflexivity|]. discriminate.
  - destruct H as (pv & err & Hc & Hf).
    rewrite (handler_passes_checks _ _ _ Hc). unfold execute. simpl try_catch.
    rewrite snd_run_await, Hf.
    eexists. split; [reflexivity|]. split; [reflexivity|]. split; [reflexivity|].
    split; [vm_compute; reflexivity|]. split; [vm_compute; reflexivity|]. discriminate.
Qed.

End ToolTheorems.

(** ** The tool handlers on the sample inputs *)

Lemma mutation_document_has_mutation : has_mutation_operation mutation_document.
Proof. exists (operation_node "mutation"). simpl. auto. Qed.

Lemma query_graphql_classifies_mutations_witness :
  sample_parse "subscription { ticks }" = inr subscription_document /\
  only_queries_or_subscriptions subscription_document /\
  exists k,
    sample_query_graphql false "subscription { ticks }" None =
      Await (fetch "http://localhost:4000/graphql"
               (request_init (sample_env false None) "subscription { ticks }" None)) k.
Proof.
  assert (Hp : sample_parse "subscription { ticks }" = inr subscription_document)
    by reflexivity.
  assert (Ho : only_queries_or_subscriptions subscription_document).
  { intros def [<-|[]] _. right. reflexivity. }
  split; [exact Hp|]. split; [exact Ho|].
  exact (proj2 (proj2 (proj2 (proj2
    (query_graphql_classifies_mutations (sample_env false None) sample_JSON_parse
       sample_JSON_stringify sample_parse sample_gt0
       "subscription { ticks }" subscription_document Hp Ho)))) None None eq_refl).
Defined.

Lemma mutation_gate_blocks_or_forwards_witness :
  sample_parse mutation_query = inr mutation_document /\
  has_mutation_operation mutation_document /\
  variables_accepted sample_JSON_parse None None /\
  exists r, sample_query_graphql false mutation_query None = Ret r /\
            isError r = Some true /\
            includes (result_text r) "not allowed" = true /\
            forall w, fst (run w (sample_query_graphql false mutation_query None)) = [].
Proof.
  assert (Hp : sample_parse mutation_query = inr mutation_document) by reflexivity.
  split; [exact Hp|]. split; [exact mutation_document_has_mutation|].
  split; [reflexivity|].
  exact (proj1
    (mutation_gate_blocks_or_forwards (sample_env false None) sample_JSON_parse
       sample_JSON_stringify sample_parse sample_gt0
       mutation_query mutation_document None None
       Hp mutation_document_has_mutation eq_refl) eq_refl).
Defined.

(** C2, as stated, fails: a mutation sent with malformed [variables] is
    answered by the variables block; with the flag off the text does not
    contain "not allowed", and with the flag on nothing is executed. *)
Lemma mutation_with_malformed_variables :
  sample_parse mutation_query = inr mutation_document /\
  has_mutation_operation mutation_document /\
  (exists r, sample_query_graphql false mutation_query (Some "{bad") = Ret r /\
             includes (result_text r) "not allowed" = false) /\
  (exists r, sample_query_graphql true mutation_query (Some "{bad") = Ret r).
Proof.
  split; [reflexivity|]. split; [exact mutation_document_has_mutation|].
  split; eexists; [split|]; vm_compute; reflexivity.
Qed.

Lemma invalid_query_rejected_before_send_witness :
  sample_parse "{ missingClosingBrace" =
    inl {| message := "Syntax Error: Expected Name, found <EOF>." |} /\
  exists r, sample_query_graphql false "{ missingClosingBrace" None = Ret r /\
            isError r = Some true /\
            (forall w, fst (run w (sample_query_graphql false "{ missingClosingBrace" None)) = []) /\
            (forall pv, variables_accepted sample_JSON_parse None pv ->
               result_text r =
                 "Invalid GraphQL query: Syntax Error: Expected Name, found <EOF>.").
Proof.
  split; [reflexivity|].
  exact (invalid_query_rejected_before_send (sample_env false None) sample_JSON_parse
           sample_JSON_stringify sample_parse sample_gt0
           "{ missingClosingBrace" _ None eq_refl).
Defined.

(** C6, as stated, fails: an invalid query sent with malformed [variables] is
    answered with the label of the variables block, not with the invalid-query
    label. *)
Lemma invalid_query_with_malformed_variables :
  (exists err, sample_parse "{ missingClosingBrace" = inl err) /\
  exists r, sample_query_graphql false "{ missingClosingBrace" (Some "{bad") = Ret r /\
            startsWith (result_text r) "Invalid GraphQL query" = false /\
            startsWith (result_text r) "Invalid variables" = true.
Proof.
  split; [eexists; reflexivity|].
  eexists. split; [vm_compute; reflexivity|]. split; reflexivity.
Qed.

Lemma search_schema_joins_hits_witness :
  pipeline_returns schema_hits _ (semanticSearch "What fields are on User?" 2%float)
    = inr schema_hits /\
  run (pipeline_returns schema_hits) (search_schema "What fields are on User?" 2%float) =
    ( [Called (semanticSearch "What fields are on User?" 2%float)],
      inr (text_result
             ("type User { id: ID! name: String }" ++ nl ++ nl ++ "---" ++ nl ++ nl
                ++ "type Query { hello: String }")) ).
Proof.
  split; [reflexivity|].
  exact (search_schema_joins_hits (pipeline_returns schema_hits)
           "What fields are on User?" 2%float schema_hits eq_refl).
Defined.

Lemma graphql_errors_happen :
  happens (sample_env false None) sample_JSON_parse sample_parse
    (upstream_200 errors_body) "{ __typename }" None GraphQLErrors.
Proof.
  exists None, {| ok := true; status := 200; statusText := "OK" |}, errors_body,
    [("errors", JArray [JObject [("message", JString "boom")]])],
    (JObject [("message", JString "boom")]), [].
  split.
  - split; [reflexivity|]. eexists. split; reflexivity.
  - repeat split; reflexivity.
Defined.

Lemma failures_are_labelled_results_witness :
  happens (sample_env false None) sample_JSON_parse sample_parse
    (upstream_200 errors_body) "{ __typename }" None GraphQLErrors /\
  exists r,
    snd (run (upstream_200 errors_body) (sample_query_graphql false "{ __typename }" None))
      = inr r /\
    isError r = None /\
    class_of_text (result_text r) = Some UpstreamResponded.
Proof.
  split; [exact graphql_errors_happen|].
  destruct (proj2 (failures_are_labelled_results (sample_env false None) sample_JSON_parse
              sample_JSON_stringify sample_parse sample_gt0
              (upstream_200 errors_body) "{ __typename }" None GraphQLErrors
              graphql_errors_happen)) as (r & Hrun & _ & Hflag & _ & Hclass & _).
  exists r. auto.
Defined.

(** C8, as stated, fails: when the upstream answers [200] with a body that
    carries a non-empty [errors] array, the result has no error flag. *)
Lemma graphql_errors_result_has_no_error_flag :
  happens (sample_env false None) sample_JSON_parse sample_parse
    (upstream_200 errors_body) "{ __typename }" None GraphQLErrors /\
  exists r,
    snd (run (upstream_200 errors_body) (sample_query_graphql false "{ __typename }" None))
      = inr r /\
    isError r = None /\ isError r <> Some true.
Proof.
  split; [exact graphql_errors_happen|].
  eexists. split; [vm_compute; reflexivity|]. split; [reflexivity|discriminate].
Qed.

(** ** The API-key middleware *)

Lemma authenticateApiKey_missing env req :
  truthy (MCP_API_KEY env) = true -> truthy (x_api_key req) = false ->
  authenticateApiKey env req = send 401 "Unauthorized: Missing X-API-Key header".
Proof. intros Hk Hp. unfold authenticateApiKey. rewrite Hk, Hp. reflexivity. Qed.

Lemma authenticateApiKey_wrong env req :
  truthy (MCP_API_KEY env) = true -> truthy (x_api_key req) = true ->
  x_api_key req <> MCP_API_KEY env ->
  authenticateApiKey env req = send 403 "Forbidden: Invalid API Key".
Proof.
  intros Hk Hp Hne. unfold authenticateApiKey. rewrite Hk, Hp. simpl.
  rewrite bool_decide_eq_false_2 by exact Hne. reflexivity.
Qed.

Lemma authenticateApiKey_valid env req :
  x_api_key req = MCP_API_KEY env -> authenticateApiKey env req = next.
Proof.
  intros He. unfold authenticateApiKey. rewrite He.
  destruct (truthy (MCP_API_KEY env)); simpl; [|reflexivity].
  rewrite bool_decide_eq_true_2 by reflexivity. reflexivity.
Qed.

Lemma authenticateApiKey_disabled env req :
  truthy (MCP_API_KEY env) = false -> authenticateApiKey env req = next.
Proof. intros Hk. unfold authenticateApiKey. rewrite Hk. reflexivity. Qed.

Lemma dispatch_guarded env req outcome :
  req_path req = "/mcp" \/ req_path req = "/messages" ->
  authenticateApiKey env req = outcome ->
  dispatch env app req =
    match outcome with
    | next => dispatch env routes req
    | send status text => Responded status text
    end.
Proof.
  intros Hpath Hauth. unfold app, routes.
  destruct Hpath as [Hp|Hp]; simpl; rewrite Hp; simpl; rewrite Hauth;
    destruct outcome; reflexivity.
Qed.

(** C1 (amended).  With a non-empty [MCP_API_KEY], every request to [/mcp] and
    to [/messages] is checked before it reaches its route: without an
    [X-API-Key] header (or with an empty one) it is answered 401, with another
    value 403, and with the configured value it goes on to the route.  The
    stream-open endpoint [/sse] is not behind the check: a [GET /sse] reaches
    its handler whatever the header is.  When [MCP_API_KEY] is unset (or empty)
    no request is turned away by the check. *)
Theorem api_key_guards_mcp_and_messages (env : Env) (req : Request) :
  (truthy (MCP_API_KEY env) = true ->
   req_path req = "/mcp" \/ req_path req = "/messages" ->
   (truthy (x_api_key req) = false ->
      dispatch env app req = Responded 401 "Unauthorized: Missing X-API-Key header") /\
   (truthy (x_api_key req) = true -> x_api_key req <> MCP_API_KEY env ->
      dispatch env app req = Responded 403 "Forbidden: Invalid API Key") /\
   (x_api_key req = MCP_API_KEY env ->
      dispatch env app req = dispatch env routes req)) /\
  (req_path req = "/sse" -> req_method req = GET ->
   dispatch env app req = Routed SseHandler) /\
  (truthy (MCP_API_KEY env) = false ->
   dispatch env app req = dispatch env routes req /\
   forall status text, dispatch env app req <> Responded status text).
Proof.
  split; [|split].
  - intros Hk Hpath. split; [|split].
    + intros Hp.
      exact (dispatch_guarded env req _ Hpath (authenticateApiKey_missing env req Hk Hp)).
    + intros Hp Hne.
      exact (dispatch_guarded env req _ Hpath (authenticateApiKey_wrong env req Hk Hp Hne)).
    + intros He.
      exact (dispatch_guarded env req _ Hpath (authenticateApiKey_valid env req He)).
  - intros Hp Hm. unfold app, routes. simpl. rewrite Hp, Hm. reflexivity.
  - intros Hk.
    assert (H : dispatch env app req = dispatch env routes req).
    { unfold app, routes. simpl.
      rewrite (authenticateApiKey_disabled env req Hk).
      destruct (mounted "/mcp" (req_path req)), (mounted "/messages" (req_path req));
        reflexivity. }
    split; [exact H|]. intros status text. rewrite H. unfold routes. simpl.
    destruct (_ && _); [discriminate|].
    destruct (_ && _); [discriminate|].
    destruct (_ && _); discriminate.
Qed.

Lemma api_key_guards_mcp_and_messages_witness :
  truthy (MCP_API_KEY secret_env) = true /\
  dispatch secret_env app (request POST "/messages" None None (Some uuid1) false)
    = Responded 401 "Unauthorized: Missing X-API-Key header" /\
  dispatch secret_env app (request POST "/mcp" (Some "guess") None None true)
    = Responded 403 "Forbidden: Invalid API Key" /\
  dispatch secret_env app (request POST "/mcp" (Some "secret") None None true)
    = Routed McpHandler.
Proof.
  split; [reflexivity|]. split; [|split].
  - exact (proj1 (proj1 (api_key_guards_mcp_and_messages secret_env
      (request POST "/messages" None None (Some uuid1) false)) eq_refl
      (or_intror eq_refl)) eq_refl).
  - apply (proj1 (proj2 (proj1 (api_key_guards_mcp_and_messages secret_env
      (request POST "/mcp" (Some "guess") None None true)) eq_refl
      (or_introl eq_refl)))); [reflexivity|discriminate].
  - exact (proj2 (proj2 (proj1 (api_key_guards_mcp_and_messages secret_env
      (request POST "/mcp" (Some "secret") None None true)) eq_refl
      (or_introl eq_refl))) eq_refl).
Defined.

(** C1, as stated, fails: with an API key configured, a request that opens
    the legacy push stream carries no [X-API-Key] header, or a wrong one, and
    still reaches the handler of [/sse]. *)
Lemma sse_open_is_not_checked :
  truthy (MCP_API_KEY secret_env) = true /\
  dispatch secret_env app (request GET "/sse" None None None false) = Routed SseHandler /\
  dispatch secret_env app (request GET "/sse" (Some "guess") None None false)
    = Routed SseHandler.
Proof. repeat split. Qed.

(** ** Unknown session ids *)

Lemma is_uuid_truthy id : is_uuid id = true -> truthy_string id = true.
Proof.
  unfold is_uuid. intros H. apply andb_true_iff in H as [Hlen _].
  destruct id; [discriminate Hlen|reflexivity].
Qed.

Lemma is_uuid_not_inherited id :
  is_uuid id = true -> bool_decide (id ∈ Object_prototype_keys) = false.
Proof.
  intros H. apply bool_decide_eq_false_2. intros Hin.
  unfold is_uuid in H. apply andb_true_iff in H as [Hlen _].
  unfold Object_prototype_keys in Hin.
  repeat (apply elem_of_cons in Hin as [->|Hin]; [discriminate Hlen|]).
  inversion Hin.
Qed.

(** A session id that [randomUUID()] could have drawn and that is not
    registered is looked up as [undefined]. *)
Lemma js_get_unknown_uuid (registry : gmap string nat) id :
  is_uuid id = true -> registry !! id = None -> js_get registry id = Undefined.
Proof.
  intros Hid Hnone. unfold js_get. rewrite Hnone, (is_uuid_not_inherited id Hid).
  reflexivity.
Qed.

Lemma js_get_registered (registry : gmap string nat) id t :
  registry !! id = Some t -> js_get registry id = Own t.
Proof. intros H. unfold js_get. rewrite H. reflexivity. Qed.

Lemma mcp_handler_rejects s req sdk :
  (truthy (mcp_session_id req) = true ->
   js_get (streamableTransports s) (default "" (mcp_session_id req)) = Undefined) ->
  (truthy (mcp_session_id req) = false -> is_initialize_body req = false) ->
  mcp_handler s req sdk = (s, RejectedJson 400 bad_handshake).
Proof.
  intros Hid Hinit. unfold mcp_handler.
  destruct (truthy (mcp_session_id req)) eqn:Ht.
  - rewrite (Hid eq_refl). reflexivity.
  - rewrite (Hinit eq_refl). reflexivity.
Qed.

Lemma messages_handler_rejects s req :
  js_get (sseTransports s) (default "undefined" (query_sessionId req)) = Undefined ->
  messages_handler s req = (s, RejectedText 400 "Unknown or expired sessionId").
Proof. intros H. unfold messages_handler. rewrite H. reflexivity. Qed.

(** An unknown id of the shape [randomUUID()] produces is rejected, and the
    state is left as it was. *)
Lemma unknown_uuid_is_rejected s req sdk id :
  is_uuid id = true ->
  mcp_session_id req = Some id -> streamableTransports s !! id = None ->
  mcp_handler s req sdk = (s, RejectedJson 400 bad_handshake).
Proof.
  intros Hu Hreq Hnone. apply mcp_handler_rejects; rewrite Hreq.
  - intros _. apply js_get_unknown_uuid; assumption.
  - cbn [truthy]. rewrite (is_uuid_truthy id Hu). discriminate.
Qed.

Lemma unknown_uuid_message_is_rejected s req id :
  is_uuid id = true ->
  query_sessionId req = Some id -> sseTransports s !! id = None ->
  messages_handler s req = (s, RejectedText 400 "Unknown or expired sessionId").
Proof.
  intros Hu Hreq Hnone. apply messages_handler_rejects. rewrite Hreq.
  apply js_get_unknown_uuid; assumption.
Qed.

(** C3.  The claim does not hold of the code when the session id names a
    member of [Object.prototype]: with both registries empty, a [/mcp]
    request with [Mcp-Session-Id: constructor] and a [/messages] request with
    [?sessionId=constructor] find the inherited property, take it for a
    transport and fail with an uncaught [TypeError] instead of the 400
    answer.  (The registries are left unchanged in both cases.) *)
Theorem inherited_name_passes_for_a_session :
  js_get (streamableTransports initial) "constructor" = Inherited "constructor" /\
  mcp_handler initial (request POST "/mcp" None (Some "constructor") None false) sdk_respond
    = (initial, Uncaught {| message := "transport.handleRequest is not a function" |}) /\
  messages_handler initial (request POST "/messages" None None (Some "constructor") false)
    = (initial, Uncaught {| message := "transport.handlePostMessage is not a function" |}).
Proof. repeat split. Qed.

(** ** The idle timer *)

(** Reduce the projections of the state records and nothing else. *)
Ltac fields :=
  cbn [streamableTransports sseTransports transports servers timers next_timer now
       close_calls transport_kind sessionId server sessionTimeoutHandle closed
       deadline timer_session timer_transport fst snd mark_closed].

Lemma lookup_snoc {A} (l : list A) (x : A) : (l ++ [x])%list !! length l = Some x.
Proof. apply list_lookup_middle. reflexivity. Qed.

Lemma insert_snoc {A} (l : list A) (x y : A) :
  <[length l := y]> (l ++ [x])%list = (l ++ [y])%list.
Proof.
  rewrite insert_app_r_alt by reflexivity.
  replace (length l - length l) with 0 by lia. reflexivity.
Qed.

(** The init branch of [/mcp], when the SDK accepts the handshake and draws
    [id]. *)
Lemma mcp_handler_initializes s req id :
  truthy (mcp_session_id req) = false -> is_initialize_body req = true ->
  mcp_handler s req (sdk_initialize id) =
    (initialized s id, HandledBy (length (transports s))).
Proof.
  intros Hid Hinit. unfold mcp_handler. rewrite Hid, Hinit.
  cbn [andb negb]. unfold new_transport, buildMcpServer, connect. fields.
  rewrite lookup_snoc. unfold handleRequest, set_transport. fields.
  rewrite insert_snoc, lookup_snoc. fields.
  unfold onsessioninitialized, set_streamable, setTimeout, set_transport. fields.
  rewrite lookup_snoc. fields. rewrite insert_snoc. reflexivity.
Qed.

(** [transport.close()] on an existing transport, spelled out. *)
Lemma close_transport_registry s t :
  streamableTransports (close_transport s t) = streamableTransports s \/
  exists id, streamableTransports (close_transport s t) = delete id (streamableTransports s).
Proof.
  unfold close_transport. destruct (transports s !! t) as [tr|] eqn:Ht; [|left; reflexivity].
  unfold onclose. simpl.
  rewrite list_lookup_insert_eq by (eapply lookup_lt_Some; eassumption). simpl.
  destruct (sessionId tr) as [id|]; [|left; reflexivity].
  destruct (truthy_string id); [|left; reflexivity].
  right. exists id. destruct (sessionTimeoutHandle tr); reflexivity.
Qed.

Lemma close_transport_close_calls s t :
  close_calls (close_transport s t) = close_calls s.
Proof.
  unfold close_transport. destruct (transports s !! t) as [tr|] eqn:Ht; [|reflexivity].
  unfold onclose. simpl.
  rewrite list_lookup_insert_eq by (eapply lookup_lt_Some; eassumption). simpl.
  destruct (sessionId tr) as [id|]; [|reflexivity].
  destruct (truthy_string id); [|reflexivity].
  destruct (sessionTimeoutHandle tr); reflexivity.
Qed.

Lemma timer_callback_keeps_none close_throws s timer k :
  streamableTransports s !! k = None ->
  streamableTransports (timer_callback close_throws s timer) !! k = None.
Proof.
  intros Hk. unfold timer_callback.
  destruct (close_throws (timer_transport timer)).
  - simpl. apply lookup_delete_None. auto.
  - match goal with |- streamableTransports (close_transport ?s' ?t) !! _ = _ =>
      destruct (close_transport_registry s' t) as [->|[id ->]] end; simpl.
    + apply lookup_delete_None. auto.
    + apply lookup_delete_None. right. apply lookup_delete_None. auto.
Qed.

Lemma timer_callback_releases close_throws s timer :
  streamableTransports (timer_callback close_throws s timer) !! timer_session timer = None.
Proof.
  unfold timer_callback.
  destruct (close_throws (timer_transport timer)).
  - simpl. apply lookup_delete_eq.
  - match goal with |- streamableTransports (close_transport ?s' ?t) !! _ = _ =>
      destruct (close_transport_registry s' t) as [->|[id ->]] end; simpl.
    + apply lookup_delete_eq.
    + apply lookup_delete_None. right. apply lookup_delete_eq.
Qed.

Lemma timer_callback_close_calls close_throws s timer :
  close_calls (timer_callback close_throws s timer) =
    (close_calls s ++ [timer_transport timer])%list.
Proof.
  unfold timer_callback.
  destruct (close_throws (timer_transport timer)); [reflexivity|].
  rewrite close_transport_close_calls. reflexivity.
Qed.

(** A property that one callback establishes and every callback keeps holds
    after a batch that contains the establishing one. *)
Lemma batch_establishes (P : ServerState -> Prop) close_throws
    (batch : list (nat * Timer)) (ht : (nat * Timer)%type) :
  (forall s, P (timer_callback close_throws s (snd ht))) ->
  (forall s (x : nat * Timer), P s -> P (timer_callback close_throws s (snd x))) ->
  In ht batch ->
  forall s, P (fold_left (fun acc x => timer_callback close_throws acc (snd x)) batch s).
Proof.
  intros Hest Hkeep. induction batch as [|x rest IH]; intros Hin s; [destruct Hin|].
  simpl. destruct Hin as [->|Hin]; [|apply IH; assumption].
  clear IH. generalize (timer_callback close_throws s (snd ht)), (Hest s).
  induction rest as [|y rest IH]; intros s' Hs'; simpl; [assumption|].
  apply IH, Hkeep, Hs'.
Qed.

(** ** One transport and one server per session id *)

Lemma close_transport_missing s t :
  transports s !! t = None -> close_transport s t = s.
Proof. intros H. unfold close_transport. rewrite H. reflexivity. Qed.

Lemma close_transport_fields s t tr :
  transports s !! t = Some tr ->
  transports (close_transport s t) = <[t := mark_closed tr]> (transports s) /\
  sseTransports (close_transport s t) = sseTransports s /\
  servers (close_transport s t) = servers s /\
  (forall x, In x (timers (close_transport s t)) -> In x (timers s)) /\
  streamableTransports (close_transport s t) =
    match sessionId tr with
    | Some id => if truthy_string id then delete id (streamableTransports s)
                 else streamableTransports s
    | None => streamableTransports s
    end.
Proof.
  intros Ht. unfold close_transport. rewrite Ht. unfold onclose, set_transport. fields.
  rewrite list_lookup_insert_eq by (eapply lookup_lt_Some; eassumption). fields.
  destruct (sessionId tr) as [id|]; [|repeat split; auto].
  destruct (truthy_string id); [|repeat split; auto].
  destruct (sessionTimeoutHandle tr) as [h|]; unfold clearTimeout, set_timers, set_streamable;
    fields; repeat split; auto.
  intros x Hx. apply filter_In in Hx. tauto.
Qed.

(** Closing the transport [t] and releasing the slots that point to it keeps
    the registries consistent. *)
Lemma registries_ok_closing s s' t tr :
  registries_ok s ->
  transports s !! t = Some tr ->
  transports s' = <[t := mark_closed tr]> (transports s) ->
  servers s' = servers s ->
  (forall x, In x (timers s') -> In x (timers s)) ->
  (forall k v, streamableTransports s' !! k = Some v ->
               streamableTransports s !! k = Some v /\ v <> t) ->
  (forall k v, sseTransports s' !! k = Some v ->
               sseTransports s !! k = Some v /\ v <> t) ->
  registries_ok s'.
Proof.
  intros [Hst Hsse Hbuilt Hun Htm] Ht Htr Hsrv Htimers Hreg Hreg'.
  assert (Hold : forall t' tr', transports s' !! t' = Some tr' ->
            exists tr0, transports s !! t' = Some tr0 /\
                        transport_kind tr0 = transport_kind tr' /\
                        sessionId tr0 = sessionId tr' /\ server tr0 = server tr').
  { intros t' tr' H. rewrite Htr in H.
    apply list_lookup_insert_Some in H as [(-> & <- & _)|[_ H]]; eauto. }
  assert (Hkeep : forall t' tr0, t' <> t -> transports s !! t' = Some tr0 ->
            transports s' !! t' = Some tr0).
  { intros t' tr0 Hne H. rewrite Htr. rewrite list_lookup_insert_ne; auto. }
  split.
  - intros id v H. destruct (Hreg id v H) as [H0 Hne].
    destruct (Hst id v H0) as (Hu & tr0 & srv & ?). split; [exact Hu|].
    exists tr0, srv. intuition auto.
  - intros id v H. destruct (Hreg' id v H) as [H0 Hne].
    destruct (Hsse id v H0) as (Hu & tr0 & srv & ?). split; [exact Hu|].
    exists tr0, srv. intuition auto.
  - intros t' tr' srv H Hs. destruct (Hold t' tr' H) as (tr0 & H0 & _ & _ & Hs0).
    rewrite Hsrv. apply (Hbuilt t' tr0 srv H0). congruence.
  - intros t1 t2 tr1 tr2 srv H1 H2 Hs1 Hs2.
    destruct (Hold t1 tr1 H1) as (tr1' & H1' & _ & _ & Hs1').
    destruct (Hold t2 tr2 H2) as (tr2' & H2' & _ & _ & Hs2').
    apply (Hun t1 t2 tr1' tr2' srv H1' H2'); congruence.
  - intros h timer Hin. destruct (Htm h timer (Htimers _ Hin)) as (tr0 & H0 & Hk).
    destruct (decide (timer_transport timer = t)) as [Heq|Hne].
    + exists (mark_closed tr). rewrite Htr, Heq. split.
      * apply list_lookup_insert_eq. eapply lookup_lt_Some; eassumption.
      * rewrite Heq, Ht in H0. injection H0 as <-. exact Hk.
    + exists tr0. split; [apply Hkeep; assumption|assumption].
Qed.

Lemma registries_ok_close_transport s t :
  registries_ok s ->
  (forall tr, transports s !! t = Some tr -> transport_kind tr = StreamableHTTP) ->
  registries_ok (close_transport s t).
Proof.
  intros Hok Hkind. destruct (transports s !! t) as [tr|] eqn:Ht;
    [|rewrite close_transport_missing; assumption].
  destruct (close_transport_fields s t tr Ht) as (Htr & Hsse & Hsrv & Htimers & Hreg).
  apply (registries_ok_closing s _ t tr Hok Ht Htr Hsrv Htimers).
  - intros k v H. rewrite Hreg in H.
    assert (H0 : streamableTransports s !! k = Some v).
    { destruct (sessionId tr) as [id|]; [|assumption].
      destruct (truthy_string id); [|assumption].
      apply lookup_delete_Some in H. tauto. }
    split; [exact H0|]. intros ->.
    destruct (streamable_slots s Hok k t H0) as (Hu & tr0 & srv & Ht0 & _ & Hid & _).
    rewrite Ht in Ht0. injection Ht0 as <-.
    rewrite Hid, (is_uuid_truthy k Hu) in H.
    rewrite lookup_delete_eq in H. discriminate.
  - intros k v H. rewrite Hsse in H. split; [exact H|]. intros ->.
    destruct (sse_slots s Hok k t H) as (_ & tr0 & srv & Ht0 & Hk & _).
    rewrite Ht in Ht0. injection Ht0 as <-.
    rewrite (Hkind tr eq_refl) in Hk. discriminate.
Qed.

Lemma registries_ok_sse_on_close s t :
  registries_ok s -> is_sse s t = true -> registries_ok (sse_on_close s t).
Proof.
  intros Hok Hsse. unfold is_sse in Hsse. unfold sse_on_close.
  destruct (transports s !! t) as [tr|] eqn:Ht; [|assumption].
  destruct (transport_kind tr) eqn:Hk; [discriminate|].
  destruct (sessionId tr) as [id|] eqn:Hid; [|assumption].
  apply (registries_ok_closing s _ t tr Hok Ht); unfold set_transport, set_sse; fields;
    try reflexivity; auto.
  - intros k v H. split; [exact H|]. intros ->.
    destruct (streamable_slots s Hok k t H) as (_ & tr0 & srv & Ht0 & Hk0 & _).
    rewrite Ht in Ht0. injection Ht0 as <-. rewrite Hk in Hk0. discriminate.
  - intros k v H. apply lookup_delete_Some in H as [Hne H]. split; [exact H|].
    intros ->.
    destruct (sse_slots s Hok k t H) as (_ & tr0 & srv & Ht0 & _ & Hid0 & _).
    rewrite Ht in Ht0. injection Ht0 as <-. congruence.
Qed.

Lemma registries_ok_shrink s s' :
  registries_ok s ->
  transports s' = transports s ->
  servers s' = servers s ->
  (forall x, In x (timers s') -> In x (timers s)) ->
  (forall k v, streamableTransports s' !! k = Some v ->
               streamableTransports s !! k = Some v) ->
  (forall k v, sseTransports s' !! k = Some v -> sseTransports s !! k = Some v) ->
  registries_ok s'.
Proof.
  intros [Hst Hsse Hbuilt Hun Htm] Htr Hsrv Htimers Hreg Hreg'.
  split; unfold slot_ok; rewrite ?Htr, ?Hsrv.
  - intros id t H. apply (Hst id t), Hreg, H.
  - intros id t H. apply (Hsse id t), Hreg', H.
  - exact Hbuilt.
  - exact Hun.
  - intros h timer Hin. apply (Htm h timer), Htimers, Hin.
Qed.

(** Appending a transport connected to a freshly built server keeps the
    registries consistent, whether the transport is left unregistered or
    registered under its own session id. *)
Lemma registries_ok_opening s s' tr_new :
  registries_ok s ->
  transports s' = (transports s ++ [tr_new])%list ->
  server tr_new = Some (servers s) ->
  servers s' = S (servers s) ->
  closed tr_new = false ->
  (forall h timer, In (h, timer) (timers s') ->
     In (h, timer) (timers s) \/
     (timer_transport timer = length (transports s) /\
      transport_kind tr_new = StreamableHTTP)) ->
  (forall k v, streamableTransports s' !! k = Some v ->
     streamableTransports s !! k = Some v \/
     (v = length (transports s) /\ transport_kind tr_new = StreamableHTTP /\
      sessionId tr_new = Some k /\ is_uuid k = true)) ->
  (forall k v, sseTransports s' !! k = Some v ->
     sseTransports s !! k = Some v \/
     (v = length (transports s) /\ transport_kind tr_new = SSE /\
      sessionId tr_new = Some k /\ is_uuid k = true)) ->
  registries_ok s'.
Proof.
  intros [Hst Hsse Hbuilt Hun Htm] Htr Hsrv' Hsrv Hclosed Htimers Hreg Hreg'.
  assert (Hold : forall k id t, slot_ok s k id t -> slot_ok s' k id t).
  { intros k id t (Hu & tr0 & srv & Ht & ?). split; [exact Hu|].
    exists tr0, srv. rewrite Htr. split; [apply lookup_app_l_Some; exact Ht|assumption]. }
  assert (Hnew : transports s' !! length (transports s) = Some tr_new).
  { rewrite Htr. apply lookup_snoc. }
  assert (Hcases : forall t tr, transports s' !! t = Some tr ->
            transports s !! t = Some tr \/ (t = length (transports s) /\ tr = tr_new)).
  { intros t tr H. rewrite Htr in H.
    apply lookup_snoc_Some in H as [[_ H]|[-> ->]]; auto. }
  split.
  - intros id v H. destruct (Hreg id v H) as [H0|(-> & Hk & Hid & Hu)]; [eauto|].
    split; [exact Hu|]. exists tr_new, (servers s). auto.
  - intros id v H. destruct (Hreg' id v H) as [H0|(-> & Hk & Hid & Hu)]; [eauto|].
    split; [exact Hu|]. exists tr_new, (servers s). auto.
  - intros t tr srv H Hs. rewrite Hsrv.
    destruct (Hcases t tr H) as [H0|[-> ->]].
    + specialize (Hbuilt t tr srv H0 Hs). lia.
    + rewrite Hsrv' in Hs. injection Hs as <-. lia.
  - intros t1 t2 tr1 tr2 srv H1 H2 Hs1 Hs2.
    destruct (Hcases t1 tr1 H1) as [H1'|[-> ->]], (Hcases t2 tr2 H2) as [H2'|[-> ->]].
    + eauto.
    + rewrite Hsrv' in Hs2. injection Hs2 as <-.
      specialize (Hbuilt t1 tr1 _ H1' Hs1). lia.
    + rewrite Hsrv' in Hs1. injection Hs1 as <-.
      specialize (Hbuilt t2 tr2 _ H2' Hs2). lia.
    + reflexivity.
  - intros h timer Hin. destruct (Htimers h timer Hin) as [H0|[Heq Hk]].
    + destruct (Htm h timer H0) as (tr0 & Ht0 & Hk0). exists tr0.
      rewrite Htr. split; [apply lookup_app_l_Some; exact Ht0|exact Hk0].
    + exists tr_new. rewrite Heq. auto.
Qed.

Lemma registries_ok_with_transport s k id :
  registries_ok s -> registries_ok (with_transport s k id).
Proof.
  intros Hok. eapply (registries_ok_opening s); try exact Hok; simpl; eauto.
Qed.

Lemma registries_ok_initialized s id :
  registries_ok s -> is_uuid id = true -> registries_ok (initialized s id).
Proof.
  intros Hok Hid. eapply (registries_ok_opening s); try exact Hok; simpl; eauto.
  - intros h timer Hin. apply in_app_or in Hin as [Hin|[Heq|[]]]; [auto|].
    injection Heq as <- <-. auto.
  - intros k v H. apply lookup_insert_Some in H as [(<- & <-)|[_ H]]; auto.
Qed.

Lemma sse_handler_state s id :
  sse_handler s id =
    ( set_sse (with_transport s SSE (Some id))
        (<[id := length (transports s)]> (sseTransports s)),
      HandledBy (length (transports s)) ).
Proof.
  unfold sse_handler, new_transport, set_sse, buildMcpServer, connect. fields.
  rewrite lookup_snoc. unfold set_transport, with_transport. fields.
  rewrite insert_snoc. reflexivity.
Qed.

Lemma registries_ok_sse_handler s id :
  registries_ok s -> is_uuid id = true -> registries_ok (fst (sse_handler s id)).
Proof.
  intros Hok Hid. rewrite sse_handler_state.
  eapply (registries_ok_opening s); try exact Hok; simpl; eauto.
  intros k v H. apply lookup_insert_Some in H as [(<- & <-)|[_ H]]; auto.
Qed.

(** The init branch of [/mcp] up to the call of [handleRequest]. *)
Lemma mcp_handler_init_branch s req sdk :
  truthy (mcp_session_id req) = false -> is_initialize_body req = true ->
  mcp_handler s req sdk =
    handleRequest (with_transport s StreamableHTTP None) (length (transports s)) sdk.
Proof.
  intros Hid Hinit. unfold mcp_handler. rewrite Hid, Hinit. cbn [andb negb].
  unfold new_transport, buildMcpServer, connect. fields. rewrite lookup_snoc.
  unfold set_transport, with_transport. fields. rewrite insert_snoc. reflexivity.
Qed.

Lemma handleRequest_servers s t sdk :
  servers (fst (handleRequest s t sdk)) = servers s /\
  snd (handleRequest s t sdk) = HandledBy t.
Proof.
  unfold handleRequest. destruct sdk as [|id|]; [auto| |].
  - destruct (transports s !! t) as [tr|] eqn:Ht; [|auto].
    destruct (sessionId tr); [auto|].
    unfold onsessioninitialized. rewrite Ht. auto.
  - fields. split; [|reflexivity].
    destruct (transports s !! t) as [tr|] eqn:Ht.
    + apply (close_transport_fields s t tr Ht).
    + rewrite close_transport_missing; auto.
Qed.

(** [handleRequest] on a registered transport creates no transport. *)
Lemma handleRequest_registered s t sdk tr id :
  transports s !! t = Some tr -> sessionId tr = Some id ->
  length (transports (fst (handleRequest s t sdk))) = length (transports s).
Proof.
  intros Ht Hid. unfold handleRequest. destruct sdk as [|id'|]; [reflexivity| |].
  - rewrite Ht, Hid. reflexivity.
  - fields. destruct (close_transport_fields s t tr Ht) as (-> & _).
    apply length_insert.
Qed.

Lemma registries_ok_handleRequest_registered s t sdk tr id :
  registries_ok s ->
  transports s !! t = Some tr -> sessionId tr = Some id ->
  transport_kind tr = StreamableHTTP ->
  registries_ok (fst (handleRequest s t sdk)).
Proof.
  intros Hok Ht Hid Hk. unfold handleRequest. destruct sdk as [|id'|]; [assumption| |].
  - rewrite Ht, Hid. assumption.
  - fields. apply registries_ok_close_transport; [assumption|].
    intros tr' Ht'. congruence.
Qed.

Lemma registries_ok_mcp_handler s req sdk :
  registries_ok s -> valid_event (McpRequest req sdk) ->
  registries_ok (fst (mcp_handler s req sdk)).
Proof.
  intros Hok Hvalid.
  destruct (truthy (mcp_session_id req)) eqn:Htruthy.
  - unfold mcp_handler. rewrite Htruthy. cbn [andb negb].
    unfold js_get.
    destruct (streamableTransports s !! default "" (mcp_session_id req)) as [t|] eqn:Hreg.
    + cbn [truthy_lookup].
      destruct (streamable_slots s Hok _ t Hreg) as (_ & tr & srv & Ht & Hk & Hid & _).
      eapply registries_ok_handleRequest_registered; eassumption.
    + destruct (bool_decide _); assumption.
  - destruct (is_initialize_body req) eqn:Hinit.
    + rewrite (mcp_handler_init_branch s req sdk Htruthy Hinit).
      destruct sdk as [|id|].
      * apply registries_ok_with_transport, Hok.
      * rewrite <- (mcp_handler_init_branch s req _ Htruthy Hinit),
          (mcp_handler_initializes s req id Htruthy Hinit).
        apply registries_ok_initialized; assumption.
      * cbn [handleRequest fst]. apply registries_ok_close_transport.
        -- apply registries_ok_with_transport, Hok.
        -- intros tr Ht. simpl in Ht. rewrite lookup_snoc in Ht. injection Ht as <-.
           reflexivity.
    + unfold mcp_handler. rewrite Htruthy, Hinit. assumption.
Qed.

Lemma timer_callback_expand close_throws s timer :
  timer_callback close_throws s timer =
    let s2 :=
      {| streamableTransports := delete (timer_session timer) (streamableTransports s);
         sseTransports := sseTransports s;
         transports := transports s;
         servers := servers s; timers := timers s; next_timer := next_timer s;
         now := now s;
         close_calls := (close_calls s ++ [timer_transport timer])%list |} in
    if close_throws (timer_transport timer) then s2
    else close_transport s2 (timer_transport timer).
Proof. reflexivity. Qed.

Lemma timer_callback_kinds close_throws s timer t :
  streamable_transport s t ->
  streamable_transport (timer_callback close_throws s timer) t.
Proof.
  intros Hs. rewrite timer_callback_expand. cbv zeta.
  destruct (close_throws (timer_transport timer)); [exact Hs|].
  match goal with |- streamable_transport (close_transport ?s2 ?t') _ =>
    destruct (transports s2 !! t') as [tr'|] eqn:Ht';
      [destruct (close_transport_fields s2 t' tr' Ht') as (Htr & _)
      |rewrite (close_transport_missing s2 t' Ht'); exact Hs] end.
  intros tr H. rewrite Htr in H. simpl in Ht'.
  apply list_lookup_insert_Some in H as [(Heq & <- & _)|[_ H]].
  - simpl. apply (Hs tr'). rewrite <- Heq. exact Ht'.
  - apply (Hs tr). exact H.
Qed.

Lemma registries_ok_timer_callback close_throws s timer :
  registries_ok s -> streamable_transport s (timer_transport timer) ->
  registries_ok (timer_callback close_throws s timer).
Proof.
  intros Hok Hkind. rewrite timer_callback_expand. cbv zeta.
  match goal with |- registries_ok (if _ then ?s2 else _) =>
    assert (Hok2 : registries_ok s2) end.
  { apply (registries_ok_shrink s); simpl; auto.
    intros k v H. apply lookup_delete_Some in H. tauto. }
  destruct (close_throws (timer_transport timer)); [exact Hok2|].
  apply registries_ok_close_transport; [exact Hok2|exact Hkind].
Qed.

Lemma registries_ok_batch close_throws (batch : list (nat * Timer)) :
  forall s,
    registries_ok s ->
    (forall x, In x batch -> streamable_transport s (timer_transport (snd x))) ->
    registries_ok
      (fold_left (fun acc x => timer_callback close_throws acc (snd x)) batch s).
Proof.
  induction batch as [|x rest IH]; intros s Hok Hkinds; [exact Hok|].
  simpl. apply IH.
  - apply registries_ok_timer_callback; [exact Hok|]. apply Hkinds. left. reflexivity.
  - intros y Hy. apply timer_callback_kinds, Hkinds. right. exact Hy.
Qed.

Lemma registries_ok_elapse close_throws s ms :
  registries_ok s -> registries_ok (elapse close_throws s ms).
Proof.
  intros Hok. unfold elapse. apply registries_ok_batch.
  - apply (registries_ok_shrink s); simpl; auto.
    intros x Hx. apply filter_In in Hx. tauto.
  - intros [h timer] Hx tr Ht. apply filter_In in Hx as [Hx _]. simpl in Ht.
    destruct (timers_streamable s Hok h timer Hx) as (tr0 & Ht0 & Hk).
    simpl in Ht. congruence.
Qed.

Lemma registries_ok_initial : registries_ok initial.
Proof.
  split; simpl.
  - intros id t H. rewrite lookup_empty in H. discriminate.
  - intros id t H. rewrite lookup_empty in H. discriminate.
  - intros t tr srv H. rewrite lookup_nil in H. discriminate.
  - intros t1 t2 tr1 tr2 srv H. rewrite lookup_nil in H. discriminate.
  - intros h timer [].
Qed.

Lemma registries_ok_step s ev :
  registries_ok s -> valid_event ev -> registries_ok (step s ev).
Proof.
  intros Hok Hvalid. destruct ev as [req sdk|id|t|req|ms close_throws]; simpl.
  - apply registries_ok_mcp_handler; assumption.
  - apply registries_ok_sse_handler; assumption.
  - destruct (is_sse s t) eqn:Hsse; [|exact Hok].
    apply registries_ok_sse_on_close; assumption.
  - unfold messages_handler.
    destruct (truthy_lookup _); simpl; [|exact Hok].
    destruct (js_get _ _); exact Hok.
  - apply registries_ok_elapse, Hok.
Qed.

Lemma registries_ok_run evs :
  forall s, registries_ok s -> Forall valid_event evs -> registries_ok (run_events s evs).
Proof.
  induction evs as [|ev rest IH]; intros s Hok Hvalid; [exact Hok|].
  apply Forall_cons in Hvalid as [Hev Hrest]. simpl. apply IH; [|exact Hrest].
  apply registries_ok_step; assumption.
Qed.

(** A request that carries a registered id is handed to the registered
    transport; no server and no transport is created. *)
Lemma mcp_handler_reuses s req sdk id t :
  registries_ok s ->
  mcp_session_id req = Some id -> streamableTransports s !! id = Some t ->
  snd (mcp_handler s req sdk) = HandledBy t /\
  servers (fst (mcp_handler s req sdk)) = servers s /\
  length (transports (fst (mcp_handler s req sdk))) = length (transports s).
Proof.
  intros Hok Hreq Hreg.
  destruct (streamable_slots s Hok id t Hreg) as (Hu & tr & srv & Ht & _ & Hid & _).
  unfold mcp_handler. rewrite Hreq.
  change (default "" (Some id)) with id. cbn [truthy].
  rewrite (is_uuid_truthy id Hu), (js_get_registered _ id t Hreg). cbn [truthy_lookup andb].
  destruct (handleRequest_servers s t sdk) as [Hs Hr].
  split; [exact Hr|]. split; [exact Hs|].
  eapply handleRequest_registered; eassumption.
Qed.

(** Only the init branch of [/mcp] builds a server. *)
Lemma mcp_handler_builds_on_init s req sdk :
  servers (fst (mcp_handler s req sdk)) <> servers s ->
  truthy (mcp_session_id req) = false /\ is_initialize_body req = true /\
  servers (fst (mcp_handler s req sdk)) = S (servers s).
Proof.
  intros Hne.
  destruct (truthy (mcp_session_id req)) eqn:Htruthy.
  - exfalso. apply Hne. unfold mcp_handler. rewrite Htruthy. cbn [andb negb].
    destruct (js_get _ _) as [t|name|]; cbn [truthy_lookup]; try reflexivity.
    apply handleRequest_servers.
  - destruct (is_initialize_body req) eqn:Hinit.
    + split; [reflexivity|]. split; [reflexivity|].
      rewrite (mcp_handler_init_branch s req sdk Htruthy Hinit).
      rewrite (proj1 (handleRequest_servers _ _ _)). reflexivity.
    + exfalso. apply Hne. unfold mcp_handler. rewrite Htruthy, Hinit. reflexivity.
Qed.

(** C4.  In every state the process reaches, each registered session id
    resolves to one live transport that carries that id and is connected to a
    server, and no other transport is connected to that server.  A [/mcp]
    request that carries a registered id is handed to the registered
    transport without a server or a transport being created; a request that
    makes the number of servers change went through the init branch (no
    session id, initialization body), which builds exactly one. *)
Theorem session_id_resolves_to_one_pair (evs : list Event) :
  Forall valid_event evs ->
  let s := run_events initial evs in
  (forall id t, streamableTransports s !! id = Some t -> slot_ok s StreamableHTTP id t) /\
  (forall id t, sseTransports s !! id = Some t -> slot_ok s SSE id t) /\
  (forall t1 t2 tr1 tr2 srv,
     transports s !! t1 = Some tr1 -> transports s !! t2 = Some tr2 ->
     server tr1 = Some srv -> server tr2 = Some srv -> t1 = t2) /\
  (forall req sdk id t,
     mcp_session_id req = Some id -> streamableTransports s !! id = Some t ->
     snd (mcp_handler s req sdk) = HandledBy t /\
     servers (fst (mcp_handler s req sdk)) = servers s /\
     length (transports (fst (mcp_handler s req sdk))) = length (transports s)) /\
  (forall req sdk,
     servers (fst (mcp_handler s req sdk)) <> servers s ->
     truthy (mcp_session_id req) = false /\ is_initialize_body req = true /\
     servers (fst (mcp_handler s req sdk)) = S (servers s)).
Proof.
  intros Hvalid s.
  assert (Hok : registries_ok s)
    by (apply registries_ok_run; [apply registries_ok_initial|exact Hvalid]).
  split; [apply (streamable_slots s Hok)|].
  split; [apply (sse_slots s Hok)|].
  split; [apply (servers_unshared s Hok)|].
  split.
  - intros req sdk id t. apply mcp_handler_reuses, Hok.
  - intros req sdk. apply mcp_handler_builds_on_init.
Qed.

(** ** The idle timer, continued *)

Lemma timer_callback_sse close_throws s timer :
  sseTransports (timer_callback close_throws s timer) = sseTransports s.
Proof.
  rewrite timer_callback_expand. cbv zeta.
  destruct (close_throws (timer_transport timer)); [reflexivity|].
  match goal with |- sseTransports (close_transport ?s2 ?t) = _ =>
    destruct (transports s2 !! t) as [tr|] eqn:Ht;
      [destruct (close_transport_fields s2 t tr Ht) as (_ & -> & _)
      |rewrite (close_transport_missing s2 t Ht)] end; reflexivity.
Qed.

Lemma batch_sse close_throws (batch : list (nat * Timer)) :
  forall s,
    sseTransports (fold_left (fun acc x => timer_callback close_throws acc (snd x)) batch s)
    = sseTransports s.
Proof.
  induction batch as [|x rest IH]; intros s; [reflexivity|].
  simpl. rewrite IH. apply timer_callback_sse.
Qed.

Lemma elapse_sse close_throws s ms :
  sseTransports (elapse close_throws s ms) = sseTransports s.
Proof. unfold elapse. rewrite batch_sse. reflexivity. Qed.

(** C5 (amended).  A stream-style session gets its timer when the session
    is initialized: the deadline lies one hour ([1000 * 60 * 60] ms) after
    that moment.  Whenever a pending timer has come due, the multiplexer
    releases the slot of its session in [streamableTransports] and has called
    [close()] on its transport, whether or not that call throws.  Opening a
    session of the legacy push transport arms no timer, and the passing of
    time leaves [sseTransports] as it is. *)
Theorem idle_timer_evicts_stream_sessions :
  (forall s req id,
     truthy (mcp_session_id req) = false -> is_initialize_body req = true ->
     is_uuid id = true ->
     let s' := fst (mcp_handler s req (sdk_initialize id)) in
     streamableTransports s' !! id = Some (length (transports s)) /\
     In (next_timer s,
         {| deadline := (now s + 3600000)%N; timer_session := id;
            timer_transport := length (transports s) |}) (timers s')) /\
  (forall s h timer ms close_throws,
     In (h, timer) (timers s) -> (deadline timer <= now s + ms)%N ->
     let s' := elapse close_throws s ms in
     streamableTransports s' !! timer_session timer = None /\
     In (timer_transport timer) (close_calls s')) /\
  (forall s id, timers (fst (sse_handler s id)) = timers s) /\
  (forall s ms close_throws, sseTransports (elapse close_throws s ms) = sseTransports s).
Proof.
  split; [|split; [|split]].
  - intros s req id Hid Hinit _. rewrite (mcp_handler_initializes s req id Hid Hinit).
    simpl. split; [apply lookup_insert_eq|].
    apply in_or_app. right. left. reflexivity.
  - intros s h timer ms close_throws Hin Hdue. simpl. unfold elapse.
    assert (Hbatch : In (h, timer) (List.filter (due (now s + ms)) (timers s))).
    { apply filter_In. split; [exact Hin|]. unfold due. simpl.
      apply N.leb_le. exact Hdue. }
    split.
    + apply (batch_establishes
               (fun s => streamableTransports s !! timer_session timer = None)
               close_throws _ (h, timer)); [| |exact Hbatch].
      * intros s0. apply timer_callback_releases.
      * intros s0 x. apply timer_callback_keeps_none.
    + apply (batch_establishes
               (fun s => In (timer_transport timer) (close_calls s))
               close_throws _ (h, timer)); [| |exact Hbatch].
      * intros s0. rewrite timer_callback_close_calls.
        apply in_or_app. right. left. reflexivity.
      * intros s0 x Hs0. rewrite timer_callback_close_calls.
        apply in_or_app. left. exact Hs0.
  - intros s id. rewrite sse_handler_state. reflexivity.
  - intros s ms close_throws. apply elapse_sse.
Qed.

Lemma sample_session_valid : Forall valid_event sample_session.
Proof. repeat constructor. Qed.

Lemma session_id_resolves_to_one_pair_witness :
  Forall valid_event sample_session /\
  streamableTransports (run_events initial sample_session) !! uuid1 = Some 0 /\
  snd (mcp_handler (run_events initial sample_session) follow_up sdk_respond) = HandledBy 0 /\
  servers (fst (mcp_handler (run_events initial sample_session) follow_up sdk_respond)) = 1.
Proof.
  split; [exact sample_session_valid|]. split; [reflexivity|].
  destruct (proj1 (proj2 (proj2 (proj2
              (session_id_resolves_to_one_pair sample_session sample_session_valid))))
              follow_up sdk_respond uuid1 0 eq_refl eq_refl) as (Hreply & Hservers & _).
  split; [exact Hreply|]. rewrite Hservers. reflexivity.
Defined.

Lemma idle_timer_evicts_stream_sessions_witness :
  In (0, timer1) (timers (run_events initial sample_session)) /\
  (deadline timer1 <= now (run_events initial sample_session) + minutes 60)%N /\
  streamableTransports
    (elapse never_throwing (run_events initial sample_session) (minutes 60)) !! uuid1
    = None /\
  In 0 (close_calls (elapse never_throwing (run_events initial sample_session) (minutes 60))).
Proof.
  assert (Hin : In (0, timer1) (timers (run_events initial sample_session)))
    by (left; reflexivity).
  assert (Hdue : (deadline timer1 <= now (run_events initial sample_session) + minutes 60)%N)
    by (apply N.leb_le; reflexivity).
  split; [exact Hin|]. split; [exact Hdue|].
  exact (proj1 (proj2 idle_timer_evicts_stream_sessions)
           (run_events initial sample_session) 0 timer1 (minutes 60) never_throwing
           Hin Hdue).
Defined.

(** C5, as stated, fails twice.  A session of the legacy push transport has
    no timer: it is still registered after two hours without traffic.  The
    timer of a stream-style session is not reset by traffic: a session that
    receives a request after thirty minutes is evicted thirty minutes
    later. *)
Lemma idle_window_is_not_reset_and_not_for_sse :
  sseTransports
    (run_events initial [SseOpen uuid1; Elapse (minutes 120) never_throwing]) !! uuid1
    = Some 0 /\
  streamableTransports
    (run_events initial
       (sample_session ++
        [ Elapse (minutes 30) never_throwing; McpRequest follow_up sdk_respond ])) !! uuid1
    = Some 0 /\
  streamableTransports
    (run_events initial
       (sample_session ++
        [ Elapse (minutes 30) never_throwing; McpRequest follow_up sdk_respond;
          Elapse (minutes 30) never_throwing ])) !! uuid1
    = None.
Proof. split; [|split]; vm_compute; reflexivity. Qed.

(** ** The embedding fan-out of [refreshSchema] *)

Lemma counts_snoc f ps docContent status :
  counts f (ps ++ [(docContent, status)])%list = counts f ps + Nat.b2n (f status).
Proof.
  unfold counts. rewrite List.filter_app, length_app. simpl.
  destruct (f status); reflexivity.
Qed.

Lemma set_status_lookup ps i status docContent status0 :
  ps !! i = Some (docContent, status0) ->
  set_status ps i status !! i = Some (docContent, status).
Proof.
  intros H. unfold set_status. rewrite list_lookup_alter.
  destruct (decide (i = i)); [|congruence]. rewrite H. reflexivity.
Qed.

Lemma set_status_lookup_ne ps i j status :
  i <> j -> set_status ps i status !! j = ps !! j.
Proof. intros H. unfold set_status. apply list_lookup_alter_ne. exact H. Qed.

Lemma set_status_length ps i status : length (set_status ps i status) = length ps.
Proof. apply length_alter. Qed.

Lemma set_status_texts ps i status : map fst (set_status ps i status) = map fst ps.
Proof.
  unfold set_status. revert i. induction ps as [|p rest IH]; intros [|i]; simpl;
    try reflexivity.
  f_equal. apply IH.
Qed.

Lemma counts_set_status f ps i status docContent status0 :
  ps !! i = Some (docContent, status0) ->
  counts f (set_status ps i status) + Nat.b2n (f status0) =
    counts f ps + Nat.b2n (f status).
Proof.
  unfold counts, set_status. revert i.
  induction ps as [|p rest IH]; intros [|i] H; try discriminate.
  - injection H as ->. simpl. destruct (f status), (f status0); simpl; lia.
  - simpl in H. specialize (IH i H). simpl.
    change (list_alter (fun p0 : string * Status => (fst p0, status)) i rest)
      with (alter (fun p0 : string * Status => (fst p0, status)) i rest).
    destruct (f (snd p)); simpl; lia.
Qed.

Lemma in_flight_counts st : in_flight st = counts is_running (promises st).
Proof. reflexivity. Qed.

Lemma unsettled_counts st : unsettled st = counts is_unsettled (promises st).
Proof. reflexivity. Qed.

Lemma seq_snoc k n : k <= n -> (seq k (n - k) ++ [n])%list = seq k (S n - k).
Proof.
  intros H. replace (S n - k) with (S (n - k)) by lia.
  rewrite seq_S. do 2 f_equal. lia.
Qed.

Lemma seq_head k n j rest :
  seq k (n - k) = j :: rest -> j = k /\ k < n /\ rest = seq (S k) (n - S k).
Proof.
  destruct (n - k) as [|m] eqn:Hm; [discriminate|]. simpl. intros H.
  injection H as <- <-. split; [reflexivity|]. split; [lia|].
  f_equal. lia.
Qed.

Section FanOutProperties.

Variable answer : nat -> Error + list Vector.

Local Abbreviation fan_out_ok := (fan_out_ok answer).

Lemma start_keeps st i docContent :
  promises st !! i = Some (docContent, Queued) ->
  in_flight (start st i) = S (in_flight st) /\
  unsettled (start st i) = unsettled st /\
  map fst (promises (start st i)) = map fst (promises st) /\
  (settled_by_own_call answer 0 (promises st) ->
   settled_by_own_call answer 0 (promises (start st i))).
Proof.
  intros Hi. unfold start. rewrite !in_flight_counts, !unsettled_counts. simpl.
  pose proof (counts_set_status is_running _ i Running _ _ Hi) as Hr.
  pose proof (counts_set_status is_unsettled _ i Running _ _ Hi) as Hu.
  simpl in Hr, Hu.
  split; [lia|]. split; [lia|]. split; [apply set_status_texts|].
  intros Hs j d v Hj. destruct (Nat.eq_dec i j) as [<-|Hne].
  - rewrite (set_status_lookup _ _ _ _ _ Hi) in Hj. discriminate.
  - rewrite set_status_lookup_ne in Hj by exact Hne. apply (Hs j d v Hj).
Qed.

Lemma limit_keeps c docs st docContent :
  fan_out_ok c docs st -> unsettled st = length docs ->
  fan_out_ok c (docs ++ [docContent])%list (limit st docContent) /\
  unsettled (limit st docContent) = length (docs ++ [docContent])%list.
Proof.
  intros [[Hcap Hact Hbound (k & Hk & Hq & Hst) Hfull] Htexts Hans] Hun.
  assert (Hnew : (promises st ++ [(docContent, Queued)])%list !! length (promises st)
                 = Some (docContent, Queued)).
  { rewrite lookup_app_r by lia. rewrite Nat.sub_diag. reflexivity. }
  assert (Hans' : settled_by_own_call answer 0 (promises st ++ [(docContent, Queued)])%list).
  { intros j d v Hj. apply lookup_app_Some in Hj as [Hj|[_ Hj]]; [exact (Hans j d v Hj)|].
    destruct (j - length (promises st)) as [|m]; simpl in Hj; discriminate. }
  unfold limit. cbv zeta. rewrite Hcap.
  destruct (Nat.ltb (activeCount st) c) eqn:Hlt.
  - apply Nat.ltb_lt in Hlt.
    assert (Hempty : queue st = []).
    { destruct (queue st) eqn:Hqe; [reflexivity|]. exfalso.
      assert (activeCount st = c) by (apply Hfull; discriminate). lia. }
    assert (Hkn : k = length (promises st)).
    { rewrite Hempty in Hq. destruct (length (promises st) - k) eqn:Hd; [lia|discriminate]. }
    match goal with |- fan_out_ok _ _ (start ?s ?i) /\ _ => set (st1 := s) end.
    destruct (start_keeps st1 (length (promises st)) docContent Hnew)
      as (Hr & Hu & Ht & Hs).
    assert (Hr1 : in_flight st1 = in_flight st).
    { rewrite !in_flight_counts. unfold st1. simpl. rewrite counts_snoc. simpl. lia. }
    assert (Hu1 : unsettled st1 = S (unsettled st)).
    { rewrite !unsettled_counts. unfold st1. simpl. rewrite counts_snoc. simpl. lia. }
    split; [constructor; [constructor|..]|].
    + first [exact Hcap|reflexivity].
    + rewrite Hr, Hr1. simpl. f_equal. exact Hact.
    + simpl. lia.
    + exists (S (length (promises st))). simpl. rewrite set_status_length, length_app. simpl.
      split; [lia|]. split.
      * rewrite Hempty. replace (_ - _) with 0 by lia. reflexivity.
      * intros i d status Hi. destruct (Nat.eq_dec (length (promises st)) i) as [<-|Hne].
        -- rewrite (set_status_lookup _ _ _ _ _ Hnew) in Hi. injection Hi as _ <-.
           split; [discriminate|lia].
        -- rewrite set_status_lookup_ne in Hi by exact Hne.
           apply lookup_app_Some in Hi as [Hi|[Hge Hi]].
           ++ pose proof (lookup_lt_Some _ _ _ Hi). rewrite (Hst i d status Hi). lia.
           ++ destruct (i - length (promises st)) as [|m] eqn:Hd; [lia|discriminate Hi].
    + simpl. rewrite Hempty. congruence.
    + rewrite Ht. unfold st1. simpl. rewrite map_app, Htexts. reflexivity.
    + apply Hs. exact Hans'.
    + rewrite Hu, Hu1, Hun, length_app. simpl. lia.
  - apply Nat.ltb_ge in Hlt. assert (Hc : activeCount st = c) by lia.
    split; [constructor; [constructor|..]|]; simpl.
    + first [exact Hcap|reflexivity].
    + rewrite in_flight_counts. simpl. rewrite counts_snoc. simpl.
      rewrite <- in_flight_counts. lia.
    + exact Hbound.
    + exists k. rewrite length_app. simpl. split; [lia|]. split.
      * rewrite Hq. replace (length (promises st) + 1 - k) with (S (length (promises st)) - k)
          by lia.
        apply seq_snoc. exact Hk.
      * intros i d status Hi. apply lookup_app_Some in Hi as [Hi|[Hge Hi]].
        -- apply (Hst i d status Hi).
        -- destruct (i - length (promises st)) as [|m] eqn:Hd; [|discriminate Hi].
           injection Hi as _ <-. split; [lia|reflexivity].
    + intros _. exact Hc.
    + rewrite map_app, Htexts. reflexivity.
    + exact Hans'.
    + rewrite unsettled_counts. simpl. rewrite counts_snoc, <- unsettled_counts, Hun, length_app.
      simpl. lia.
Qed.

Lemma fold_limit_keeps c (more : list string) :
  forall docs st,
    fan_out_ok c docs st -> unsettled st = length docs ->
    fan_out_ok c (docs ++ more)%list (fold_left limit more st) /\
    unsettled (fold_left limit more st) = length (docs ++ more)%list.
Proof.
  induction more as [|d rest IH]; intros docs st Hok Hun.
  - rewrite app_nil_r. auto.
  - simpl. destruct (limit_keeps c docs st d Hok Hun) as [Hok' Hun'].
    destruct (IH _ _ Hok' Hun') as [H1 H2].
    rewrite <- app_assoc in H1, H2. auto.
Qed.

Lemma fan_out_starts docs :
  fan_out_ok 3 docs (fan_out docs) /\ unsettled (fan_out docs) = length docs.
Proof.
  apply (fold_limit_keeps 3 docs [] (pLimit 3)); [|reflexivity].
  constructor; [constructor|..]; simpl; try reflexivity; try lia.
  - exists 0. split; [lia|]. split; [reflexivity|]. intros i d status H. discriminate.
  - congruence.
  - intros i d v H. discriminate.
Qed.

(** One settlement keeps the facts and fulfils one promise. *)
Lemma settle_keeps c docs st i st' :
  settle answer st i = Some st' ->
  fan_out_ok c docs st ->
  fan_out_ok c docs st' /\ S (unsettled st') = unsettled st.
Proof.
  intros Hsettle [[Hcap Hact Hbound (k & Hk & Hq & Hst) Hfull] Htexts Hans].
  unfold settle in Hsettle.
  destruct (promises st !! i) as [[d status]|] eqn:Hi; [|discriminate].
  destruct status; try discriminate. injection Hsettle as <-.
  assert (Hik : i < k).
  { destruct (Nat.lt_ge_cases i k) as [H|H]; [exact H|].
    apply (Hst i d Running Hi) in H. discriminate. }
  set (v := embed d (answer i)).
  set (ps1 := set_status (promises st) i (Fulfilled v)).
  pose proof (counts_set_status is_running _ i (Fulfilled v) _ _ Hi) as Hr.
  pose proof (counts_set_status is_unsettled _ i (Fulfilled v) _ _ Hi) as Hu.
  fold ps1 in Hr, Hu. simpl in Hr, Hu. rewrite <- in_flight_counts in Hr.
  rewrite <- unsettled_counts in Hu.
  assert (Hans1 : settled_by_own_call answer 0 ps1).
  { intros j d' v' Hj. destruct (Nat.eq_dec i j) as [<-|Hne].
    - unfold ps1 in Hj. rewrite (set_status_lookup _ _ _ _ _ Hi) in Hj.
      injection Hj as <- <-. reflexivity.
    - unfold ps1 in Hj. rewrite set_status_lookup_ne in Hj by exact Hne.
      apply (Hans j d' v' Hj). }
  assert (Hst1 : forall j d' status,
            ps1 !! j = Some (d', status) -> (status = Queued <-> k <= j)).
  { intros j d' status Hj. destruct (Nat.eq_dec i j) as [<-|Hne].
    - unfold ps1 in Hj. rewrite (set_status_lookup _ _ _ _ _ Hi) in Hj.
      injection Hj as _ <-. split; [discriminate|lia].
    - unfold ps1 in Hj. rewrite set_status_lookup_ne in Hj by exact Hne.
      apply (Hst j d' status Hj). }
  assert (Hlen1 : length ps1 = length (promises st)) by apply set_status_length.
  assert (Htexts1 : map fst ps1 = docs).
  { unfold ps1. rewrite set_status_texts. exact Htexts. }
  unfold limiter_next. cbn [queue promises activeCount concurrency]. fold v. fold ps1.
  destruct (queue st) as [|j rest] eqn:Hqueue.
  - split; [constructor; [constructor|..]|]; simpl.
    + exact Hcap.
    + rewrite in_flight_counts. simpl. lia.
    + lia.
    + exists k. rewrite Hlen1. split; [exact Hk|]. split; [exact Hq|exact Hst1].
    + congruence.
    + exact Htexts1.
    + exact Hans1.
    + rewrite unsettled_counts. simpl. lia.
  - symmetry in Hq. apply seq_head in Hq as (-> & Hkn & ->).
    destruct (lookup_lt_is_Some_2 ps1 k) as [[dk sk] Hk1]; [lia|].
    assert (sk = Queued) by (apply (Hst1 k dk sk Hk1); lia). subst sk.
    match goal with |- fan_out_ok _ _ (start ?s ?i) /\ _ => set (st1 := s) end.
    destruct (start_keeps st1 k dk Hk1) as (Hr' & Hu' & Ht' & Hs').
    assert (Hfull' : activeCount st = c) by (apply Hfull; discriminate).
    split; [constructor; [constructor|..]|].
    + exact Hcap.
    + rewrite Hr'. simpl. rewrite in_flight_counts. simpl. lia.
    + simpl. lia.
    + exists (S k). simpl. rewrite set_status_length, Hlen1. split; [lia|].
      split; [reflexivity|].
      intros j d' status Hj. destruct (Nat.eq_dec k j) as [<-|Hne].
      * rewrite (set_status_lookup _ _ _ _ _ Hk1) in Hj. injection Hj as _ <-.
        split; [discriminate|lia].
      * rewrite set_status_lookup_ne in Hj by exact Hne.
        rewrite (Hst1 j d' status Hj). lia.
    + intros _. simpl. lia.
    + rewrite Ht'. exact Htexts1.
    + apply Hs'. exact Hans1.
    + rewrite Hu'. rewrite unsettled_counts. simpl. lia.
Qed.

Lemma play_keeps c docs order :
  forall st st',
    play answer st order = Some st' ->
    fan_out_ok c docs st ->
    fan_out_ok c docs st' /\ unsettled st' + length order = unsettled st.
Proof.
  induction order as [|i rest IH]; intros st st' H Hok.
  - injection H as <-. simpl. auto with lia.
  - simpl in H. destruct (settle answer st i) as [st1|] eqn:Hs; [|discriminate].
    destruct (settle_keeps c docs st i st1 Hs Hok) as [Hok1 Hun1].
    destruct (IH st1 st' H Hok1) as [Hok' Hun']. split; [exact Hok'|]. simpl. lia.
Qed.

(** While a promise is not fulfilled, some call is in flight and can be
    settled. *)
Lemma pending_promise ps :
  Promise_all ps = None ->
  exists i docContent status,
    ps !! i = Some (docContent, status) /\ is_unsettled status = true.
Proof.
  induction ps as [|[d status] rest IH]; [discriminate|]. simpl.
  destruct status as [| |v].
  - intros _. exists 0, d, Queued. auto.
  - intros _. exists 0, d, Running. auto.
  - destruct (Promise_all rest); [discriminate|]. intros _.
    destruct (IH eq_refl) as (i & d' & s & Hi & Hs). exists (S i), d', s. auto.
Qed.

Lemma some_call_in_flight ps :
  counts is_running ps <> 0 -> exists i docContent, ps !! i = Some (docContent, Running).
Proof.
  unfold counts. induction ps as [|[d status] rest IH]; simpl; [congruence|].
  destruct status; simpl.
  - intros H. destruct (IH H) as (i & d' & Hi). exists (S i), d'. exact Hi.
  - intros _. exists 0, d. reflexivity.
  - intros H. destruct (IH H) as (i & d' & Hi). exists (S i), d'. exact Hi.
Qed.

Lemma can_settle c docs st :
  0 < c -> fan_out_ok c docs st -> Promise_all (promises st) = None ->
  exists i st', settle answer st i = Some st'.
Proof.
  intros Hc [[Hcap Hact Hbound (k & Hk & Hq & Hst) Hfull] _ _] Hp.
  destruct (pending_promise _ Hp) as (i & d & status & Hi & Hs).
  assert (Hrun : exists j dj, promises st !! j = Some (dj, Running)).
  { destruct status; try discriminate Hs.
    - apply some_call_in_flight. rewrite <- in_flight_counts, <- Hact.
      pose proof (lookup_lt_Some _ _ _ Hi) as Hlt.
      assert (Hki : k <= i) by (apply (Hst i d Queued Hi); reflexivity).
      rewrite Hfull; [lia|]. rewrite Hq.
      destruct (length (promises st) - k) eqn:Hd; [lia|discriminate].
    - eauto. }
  destruct Hrun as (j & dj & Hj). exists j. eexists. unfold settle. rewrite Hj. reflexivity.
Qed.

Lemma validVectors_successes ps :
  forall k vectors,
    settled_by_own_call answer k ps -> Promise_all ps = Some vectors ->
    validVectors vectors = successes answer k (map fst ps).
Proof.
  induction ps as [|[d status] rest IH]; intros k vectors Hs Hp.
  - injection Hp as <-. reflexivity.
  - simpl in Hp. destruct status as [| |v]; try discriminate.
    destruct (Promise_all rest) as [vs|] eqn:Hrest; [|discriminate]. injection Hp as <-.
    assert (Hrest' : settled_by_own_call answer (S k) rest).
    { intros i d' v' Hi. rewrite (Hs (S i) d' v' Hi). do 2 f_equal. lia. }
    assert (Hv : v = embed d (answer k)).
    { rewrite (Hs 0 d v eq_refl). do 2 f_equal. lia. }
    specialize (IH (S k) vs Hrest' eq_refl). simpl. subst v. unfold embed.
    destruct (answer k) as [e|[|embedding data]]; simpl; rewrite IH; reflexivity.
Qed.

Lemma points_lookup (valid : list Embedded) :
  length (points valid) = length valid /\
  forall j e, valid !! j = Some e ->
    points valid !! j =
      Some {| point_id := j; point_vector := vec e; payload_text := chunk e |}.
Proof.
  unfold points. split; [apply length_imap|].
  intros j e H. rewrite list_lookup_imap, H. reflexivity.
Qed.

Variable splitText : string -> Error + list string.
Variable COL : string.
Variable qdrant_fulfils : QdrantCall -> bool.

(** C9.  Whatever the batch and whatever the order in which the embedding
    calls settle, at most three calls are in flight in every state the
    fan-out of [refreshSchema] reaches; a fulfilled promise holds the result
    of its own call, whatever happened to the others, and no failure ends the
    batch: while a promise is open some call can settle, and a batch of [n]
    chunks is through after [n] settlements.  Then the result set is exactly
    the chunks whose embedding succeeded, in split order, and [refreshSchema]
    goes on to the vector store: nothing when no chunk succeeded, otherwise
    the collection is recreated with the size of the first vector and, when
    that call is fulfilled, the upsert carries one point per successful chunk,
    numbered from 0, with the chunk's vector and text. *)
Theorem embedding_fan_out_is_bounded_and_isolated (docs : list string)
    (order : list nat) (st : FanOut) :
  play answer (fan_out docs) order = Some st ->
  in_flight st <= 3 /\
  map fst (promises st) = docs /\
  (forall i docContent v,
     promises st !! i = Some (docContent, Fulfilled v) ->
     v = embed docContent (answer i)) /\
  (Promise_all (promises st) = None -> exists i st', settle answer st i = Some st') /\
  unsettled st + length order = length docs /\
  (forall vectors,
     Promise_all (promises st) = Some vectors ->
     validVectors vectors = successes answer 0 docs /\
     (forall schemaSDL,
        splitText schemaSDL = inr docs ->
        refreshSchema splitText COL qdrant_fulfils answer schemaSDL order =
          Some (inr (recreate_and_upsert COL qdrant_fulfils vectors))) /\
     match successes answer 0 docs with
     | [] => recreate_and_upsert COL qdrant_fulfils vectors = []
     | first :: _ =>
         let recreate := recreateCollection COL (length (vec first)) "Cosine" in
         if qdrant_fulfils recreate then
           exists pts,
             recreate_and_upsert COL qdrant_fulfils vectors = [ recreate; upsert COL pts ] /\
             length pts = length (successes answer 0 docs) /\
             forall j e,
               successes answer 0 docs !! j = Some e ->
               pts !! j =
                 Some {| point_id := j; point_vector := vec e; payload_text := chunk e |}
         else recreate_and_upsert COL qdrant_fulfils vectors = [ recreate ]
     end).
Proof.
  intros Hplay.
  destruct (fan_out_starts docs) as [Hok0 Hun0].
  destruct (play_keeps 3 docs order _ st Hplay Hok0) as [Hok Hun].
  pose proof Hok as [[Hcap Hact Hbound _ _] Htexts Hans].
  split; [rewrite <- Hact; exact Hbound|]. split; [exact Htexts|]. split; [exact Hans|].
  split; [apply (can_settle 3 docs); [lia|exact Hok]|].
  split; [lia|].
  intros vectors Hall.
  assert (Hvalid : validVectors vectors = successes answer 0 docs).
  { rewrite <- Htexts. apply validVectors_successes; assumption. }
  split; [exact Hvalid|]. split.
  - intros schemaSDL Hsplit. unfold refreshSchema. rewrite Hsplit.
    destruct docs as [|d rest]; [|simpl Nat.eqb; cbv iota; rewrite Hplay, Hall; reflexivity].
    simpl. destruct order; [|discriminate Hplay]. injection Hplay as <-.
    injection Hall as <-. reflexivity.
  - unfold recreate_and_upsert. rewrite Hvalid.
    destruct (successes answer 0 docs) as [|first rest] eqn:Hsucc; [reflexivity|].
    cbv zeta. unfold truthy_array. cbn [negb].
    destruct (qdrant_fulfils _); [|reflexivity].
    eexists. split; [reflexivity|]. apply points_lookup.
Qed.

End FanOutProperties.

Lemma embedding_fan_out_is_bounded_and_isolated_witness :
  exists st,
    play two_failures (fan_out ten_chunks) ten_schedule = Some st /\
    in_flight st <= 3 /\
    refreshSchema one_split "graphql-schema" store_is_up two_failures "type Query" ten_schedule
      = Some (inr [ recreateCollection "graphql-schema" 2 "Cosine";
                    upsert "graphql-schema"
                      (points (successes two_failures 0 ten_chunks)) ]) /\
    map chunk (successes two_failures 0 ten_chunks)
      = [ "c0"; "c1"; "c2"; "c4"; "c5"; "c6"; "c8"; "c9" ].
Proof.
  destruct (play two_failures (fan_out ten_chunks) ten_schedule) as [st|] eqn:Hplay;
    [|vm_compute in Hplay; discriminate].
  exists st.
  destruct (embedding_fan_out_is_bounded_and_isolated two_failures one_split
              "graphql-schema" store_is_up ten_chunks ten_schedule st Hplay)
    as (Hb & _ & _ & _ & _ & Hfin).
  split; [reflexivity|]. split; [exact Hb|]. split; [|reflexivity].
  destruct (Promise_all (promises st)) as [vectors|] eqn:Hall;
    [|vm_compute in Hplay; injection Hplay as <-; discriminate Hall].
  destruct (Hfin vectors eq_refl) as (Hvalid & Hrun & _).
  rewrite (Hrun "type Query" eq_refl). unfold recreate_and_upsert. rewrite Hvalid.
  reflexivity.
Defined.

(* ===================================================================== *)
(** * Part 8. Further properties of the code                              *)
(* ===================================================================== *)

(** ** The tool handlers on every path *)

Lemma every_result_run {A} (P : A -> Prop) (m : Async A) (w : World) :
  every_result P m -> exists a, snd (run w m) = inr a /\ P a.
Proof.
  induction m as [a|e|X e k IH]; simpl; intros H.
  - eauto.
  - destruct H.
  - destruct (IH (w X e) (H (w X e))) as (a & Ha & HP).
    destruct (run w (k (w X e))). eauto.
Qed.

Lemma run_await {A X} (w : World) (e : Eff X) (k : Error + X -> Async A) :
  run w (Await e k) =
    (Called e :: fst (run w (k (w _ e))), snd (run w (k (w _ e)))).
Proof. simpl. destruct (run w (k (w X e))). reflexivity. Qed.

Section FurtherToolProperties.

Variable env : Env.
Variable JSON_parse : string -> Error + Json.
Variable JSON_stringify : Json -> string.
Variable parse : string -> Error + DocumentNode.
Variable coerced_gt0 : Json -> Error + bool.

Local Abbreviation tool := (query_graphql env JSON_parse JSON_stringify parse coerced_gt0).
Local Abbreviation third_block := (execute env JSON_parse JSON_stringify coerced_gt0).

Lemma execute_single_text query pv :
  every_result single_text (third_block query pv).
Proof.
  unfold execute. simpl. intros [err|response]; simpl; [split; auto|].
  intros [err|responseText]; simpl; [split; auto|].
  destruct (ok response); simpl; [|split; auto].
  unfold parse_response, and_then.
  destruct (JSON_parse responseText) as [err|data]; simpl; [split; auto|].
  destruct (data_errors data) as [err|errors]; simpl; [split; auto|].
  destruct (errors_present coerced_gt0 errors) as [err|[|]]; split; auto.
Qed.

Lemma query_graphql_single_text query variables :
  every_result single_text (tool query variables).
Proof.
  rewrite handler_unfold.
  unfold parse_variables, and_then.
  assert (Hrest : forall pv,
    every_result single_text
      (bind (mutation_gate env parse query)
         (fun c => match c with
                   | Return r => Ret r
                   | Normal _ => third_block query pv
                   end))).
  { intros pv. unfold mutation_gate.
    destruct (parse query) as [err|doc]; simpl; [split; auto|].
    destruct (isMutation doc && negb (ALLOW_MUTATIONS env)); simpl; [split; auto|].
    exact (execute_single_text query pv). }
  destruct variables as [s|]; [|exact (Hrest None)].
  destruct (truthy_string s); [|exact (Hrest None)].
  destruct (JSON_parse s) as [err|parsed]; simpl; [split; auto|].
  exact (Hrest (Some parsed)).
Qed.

Lemma search_schema_single_text question k :
  every_result single_text (search_schema question k).
Proof.
  unfold search_schema. simpl. intros [err|hits]; simpl; [split; auto|].
  destruct (Nat.eqb (length hits) 0); split; auto.
Qed.

(** X1.  Whatever the outside world answers, both tool handlers return: no path
    ends in an exception, and the result is always exactly one item of type
    "text", with the error flag absent or [true]. *)
Theorem tools_always_return_one_text_item (w : World) :
  (forall query variables,
     exists r, snd (run w (tool query variables)) = inr r /\ single_text r) /\
  (forall question k,
     exists r, snd (run w (search_schema question k)) = inr r /\ single_text r).
Proof.
  split.
  - intros query variables. apply every_result_run, query_graphql_single_text.
  - intros question k. apply every_result_run, search_schema_single_text.
Qed.

End FurtherToolProperties.


(** ** The request that [query-graphql] sends *)

Lemma own_property_snoc fields k v k' :
  own_property (fields ++ [(k, v)]) k' =
    if String.eqb k k' then Some v else own_property fields k'.
Proof.
  induction fields as [|[k0 v0] rest IH]; simpl.
  - destruct (String.eqb k k'); reflexivity.
  - rewrite IH. destruct (String.eqb k k'); [reflexivity|].
    destruct (own_property rest k'); reflexivity.
Qed.

Lemma own_property_replace fields k v k' :
  existsb (fun kv => String.eqb (fst kv) k) fields = true ->
  own_property (map (fun kv => if String.eqb (fst kv) k then (k, v) else kv) fields) k' =
    if String.eqb k k' then Some v else own_property fields k'.
Proof.
  induction fields as [|[k0 v0] rest IH]; simpl; [discriminate|].
  intros H. destruct (String.eqb k0 k) eqn:Hk0.
  - apply String.eqb_eq in Hk0. subst k0. simpl.
    destruct (existsb (fun kv => String.eqb (fst kv) k) rest) eqn:Hrest.
    + rewrite (IH eq_refl). destruct (String.eqb k k'); [reflexivity|].
      destruct (own_property rest k'); reflexivity.
    + assert (Hid : map (fun kv : string * Json =>
                           if String.eqb (fst kv) k then (k, v) else kv) rest = rest).
      { clear -Hrest. induction rest as [|[k1 v1] rest IH]; [reflexivity|].
        simpl in *. apply orb_false_iff in Hrest as [H1 H2].
        rewrite H1, (IH H2). reflexivity. }
      assert (Hnone : String.eqb k k' = true -> own_property rest k' = None).
      { intros Hk. apply String.eqb_eq in Hk. subst k'. clear -Hrest.
        induction rest as [|[k1 v1] rest IH]; [reflexivity|].
        simpl in *. apply orb_false_iff in Hrest as [H1 H2].
        rewrite (IH H2), H1. reflexivity. }
      rewrite Hid. destruct (String.eqb k k') eqn:Hk.
      * rewrite (Hnone eq_refl). reflexivity.
      * reflexivity.
  - simpl in H. simpl. rewrite (IH H).
    destruct (String.eqb k k') eqn:Hk; [reflexivity|].
    destruct (own_property rest k'); [reflexivity|].
    reflexivity.
Qed.

(** In [{ ...base, ...extra }] the value of a key is the one [extra] gives
    it, else the one of [base]. *)
Lemma own_property_spread extra :
  forall base k,
    own_property (spread base extra) k =
      match own_property extra k with
      | Some v => Some v
      | None => own_property base k
      end.
Proof.
  induction extra as [|[k0 v0] rest IH]; intros base k; [reflexivity|].
  simpl. rewrite IH. destruct (own_property rest k); [reflexivity|].
  destruct (existsb (fun kv => String.eqb (fst kv) k0) base) eqn:Hex.
  - rewrite (own_property_replace base k0 v0 k Hex).
    destruct (String.eqb k0 k); reflexivity.
  - rewrite own_property_snoc. destruct (String.eqb k0 k); reflexivity.
Qed.

Section RequestProperties.

Variable env : Env.
Variable JSON_parse : string -> Error + Json.
Variable JSON_stringify : Json -> string.
Variable parse : string -> Error + DocumentNode.
Variable coerced_gt0 : Json -> Error + bool.

Local Abbreviation tool := (query_graphql env JSON_parse JSON_stringify parse coerced_gt0).
Local Abbreviation third_block := (execute env JSON_parse JSON_stringify coerced_gt0).

(** X2.  The [headers] option that [query-graphql] hands to [fetch] is the
    object [{ "Content-Type": "application/json" }] with the own properties of
    [HEADERS] spread over it.  Under every key of [HEADERS] the object holds
    the configured value, also under the key [Content-Type]; under
    [Content-Type] it holds "application/json" when [HEADERS] has no key
    spelled exactly so; it has no other key.  The keys are those of the
    object, compared by spelling: a configured [content-type] in another
    letter case is a second key next to the default.  What [fetch] makes of
    the object on the wire is outside the statement. *)
Theorem headers_option_is_content_type_spread_with_HEADERS query pv k :
  own_property (headers (request_init env query pv)) k =
    match own_property (HEADERS env) k with
    | Some v => Some v
    | None => if String.eqb "Content-Type" k then Some (JString "application/json")
              else None
    end.
Proof. unfold request_init. simpl. apply own_property_spread. Qed.

(** The calls of the third block. *)
Lemma execute_calls (w : World) query pv :
  fst (run w (third_block query pv)) =
    let req := fetch (ENDPOINT env) (request_init env query pv) in
    match w _ req with
    | inl _ => [Called req]
    | inr response => [Called req; Called (response_text response)]
    end.
Proof.
  unfold execute. simpl try_catch. rewrite run_await. cbv zeta. cbn [fst].
  destruct (w Response (fetch (ENDPOINT env) (request_init env query pv)))
    as [err|response]; [reflexivity|].
  simpl try_catch. rewrite run_await. cbn [fst]. f_equal. f_equal.
  destruct (w string (response_text response)) as [err|responseText]; [reflexivity|].
  simpl. destruct (ok response); simpl; [|reflexivity].
  unfold parse_response, and_then.
  destruct (JSON_parse responseText) as [err|data]; simpl; [reflexivity|].
  destruct (data_errors data) as [err|errors]; simpl; [reflexivity|].
  destruct (errors_present coerced_gt0 errors) as [err|[|]]; reflexivity.
Qed.

Lemma handler_cases query variables :
  (exists r, tool query variables = Ret r) \/
  (exists pv, passes_checks env JSON_parse parse query variables pv).
Proof.
  unfold passes_checks, variables_accepted.
  assert (Hgate : forall pv,
    (exists r, and_then (mutation_gate env parse query)
                 (fun _ => third_block query pv) = Ret r) \/
    (exists doc, parse query = inr doc /\
                 isMutation doc && negb (ALLOW_MUTATIONS env) = false)).
  { intros pv. unfold mutation_gate, and_then.
    destruct (parse query) as [err|doc]; simpl; [eauto|].
    destruct (isMutation doc && negb (ALLOW_MUTATIONS env)) eqn:Hm; simpl; [eauto|].
    right. exists doc. split; [reflexivity|exact Hm]. }
  rewrite handler_unfold. unfold parse_variables.
  destruct variables as [s|].
  - destruct (truthy_string s).
    + destruct (JSON_parse s) as [err|parsed]; simpl; [eauto|].
      unfold and_then at 1. simpl.
      destruct (Hgate (Some parsed)) as [H|H]; [left; exact H|right].
      exists (Some parsed). eauto.
    + unfold and_then at 1. simpl.
      destruct (Hgate None) as [H|H]; [left; exact H|right]. exists None. eauto.
  - unfold and_then at 1. simpl.
    destruct (Hgate None) as [H|H]; [left; exact H|right]. exists None. eauto.
Qed.

(** X3.  A call of [query-graphql] sends at most one request, and never
    retries: either it awaits nothing, or its calls are one [fetch], followed
    by one reading of the body when the [fetch] is fulfilled.  The [fetch]
    goes to [ENDPOINT] with method POST and carries the query string as it
    was given and the parsed variables ([undefined] for absent or empty
    variables). *)
Theorem query_graphql_sends_at_most_one_request (w : World) query variables :
  fst (run w (tool query variables)) = [] \/
  exists pv,
    variables_accepted JSON_parse variables pv /\
    let init := request_init env query pv in
    let req := fetch (ENDPOINT env) init in
    method init = "POST" /\
    body init = {| body_query := query; body_variables := pv |} /\
    fst (run w (tool query variables)) =
      match w _ req with
      | inl _ => [Called req]
      | inr response => [Called req; Called (response_text response)]
      end.
Proof.
  destruct (handler_cases query variables) as [[r Hr]|[pv Hc]].
  - left. rewrite Hr. reflexivity.
  - right. exists pv. split; [apply Hc|]. cbv zeta.
    split; [reflexivity|]. split; [reflexivity|].
    rewrite (handler_passes_checks _ _ _ _ _ _ _ _ Hc). apply execute_calls.
Qed.

(** What the third block returns for a [2xx] answer whose body parses. *)
Lemma execute_parsed (w : World) query pv response responseText data :
  w _ (fetch (ENDPOINT env) (request_init env query pv)) = inr response ->
  w _ (response_text response) = inr responseText ->
  ok response = true -> JSON_parse responseText = inr data ->
  snd (run w (third_block query pv)) =
    inr match data_errors data with
        | inl err =>
            error_result ("Failed to execute GraphQL query: " ++ message err)
        | inr errors =>
            match errors_present coerced_gt0 errors with
            | inl err =>
                error_result ("Failed to execute GraphQL query: " ++ message err)
            | inr true =>
                text_result
                  ("GraphQL query executed, but the response contains errors: "
                     ++ JSON_stringify data)
            | inr false => text_result (JSON_stringify data)
            end
        end.
Proof.
  intros Hf Ht Hok Hp.
  rewrite (execute_responded _ _ _ _ w query pv response responseText Hf Ht), Hok.
  unfold parse_response, and_then. rewrite Hp. simpl.
  destruct (data_errors data) as [err|errors]; simpl; [reflexivity|].
  destruct (errors_present coerced_gt0 errors) as [err|[|]]; reflexivity.
Qed.

(** X4.  When the upstream answers with a [2xx] status and a JSON body that
    carries no errors ([data.errors && data.errors.length > 0] evaluates,
    without throwing, to a falsy value), the result is the body re-serialized
    by [JSON.stringify(data, null, 2)], without the error flag, after exactly
    one [fetch] and one reading of the body. *)
Theorem query_graphql_returns_the_upstream_data (w : World) query variables pv
    response responseText data errors :
  passes_checks env JSON_parse parse query variables pv ->
  w _ (fetch (ENDPOINT env) (request_init env query pv)) = inr response ->
  w _ (response_text response) = inr responseText ->
  ok response = true ->
  JSON_parse responseText = inr data ->
  data_errors data = inr errors ->
  errors_present coerced_gt0 errors = inr false ->
  run w (tool query variables) =
    ( [ Called (fetch (ENDPOINT env) (request_init env query pv));
        Called (response_text response) ],
      inr (text_result (JSON_stringify data)) ).
Proof.
  intros Hc Hf Ht Hok Hp He Hno.
  rewrite (surjective_pairing (run w (tool query variables))).
  rewrite (handler_passes_checks _ _ _ _ _ _ _ _ Hc).
  rewrite execute_calls, (execute_parsed w query pv response responseText data Hf Ht Hok Hp).
  cbv zeta. rewrite Hf, He, Hno. reflexivity.
Qed.

(** X5.  An [errors] member counts only when it is a non-empty array (or
    another truthy value with a positive [length]): for a body whose [errors]
    is an array, the result carries the "contains errors" label exactly when
    the array is non-empty; an empty array, [null] or a missing member give
    the plain data.  For another value the comparison [errors.length > 0]
    decides, and when it throws the call ends in the outer [catch]: an
    [errors] object whose [length] is an object with an own [toString] gives
    "Failed to execute GraphQL query: Cannot convert object to primitive
    value" with the error flag. *)
Theorem empty_errors_are_not_errors (w : World) query variables pv
    response responseText fields :
  passes_checks env JSON_parse parse query variables pv ->
  w _ (fetch (ENDPOINT env) (request_init env query pv)) = inr response ->
  w _ (response_text response) = inr responseText ->
  ok response = true ->
  JSON_parse responseText = inr (JObject fields) ->
  snd (run w (tool query variables)) =
    inr match own_property fields "errors" with
        | Some (JArray (_ :: _)) =>
            text_result
              ("GraphQL query executed, but the response contains errors: "
                 ++ JSON_stringify (JObject fields))
        | Some (JArray []) | Some JNull | None =>
            text_result (JSON_stringify (JObject fields))
        | Some other =>
            match errors_present coerced_gt0 (Some other) with
            | inr true =>
                text_result
                  ("GraphQL query executed, but the response contains errors: "
                     ++ JSON_stringify (JObject fields))
            | inr false => text_result (JSON_stringify (JObject fields))
            | inl err =>
                error_result ("Failed to execute GraphQL query: " ++ message err)
            end
        end /\
  (forall members l,
     own_property fields "errors" = Some (JObject members) ->
     own_property members "length" = Some (JObject l) ->
     own_property l "toString" <> None ->
     snd (run w (tool query variables)) =
       inr (error_result
              "Failed to execute GraphQL query: Cannot convert object to primitive value")).
Proof.
  intros Hc Hf Ht Hok Hp.
  rewrite (handler_passes_checks _ _ _ _ _ _ _ _ Hc).
  rewrite (execute_parsed w query pv response responseText _ Hf Ht Hok Hp).
  simpl data_errors. cbv iota. split.
  - f_equal.
    destruct (own_property fields "errors") as [[| | | |[|e es]|]|]; try reflexivity;
      destruct (errors_present _ _) as [err|[|]]; reflexivity.
  - intros members l He Hl Hs. rewrite He. simpl. rewrite Hl. simpl.
    destruct (own_property l "toString"); [reflexivity|congruence].
Qed.

(** X6.  A [2xx] answer whose body is the JSON value [null] is reported like a
    network failure: reading [data.errors] throws inside the outer [try], so
    the result has the error flag and the label of an unreachable upstream,
    although the upstream has answered. *)
Theorem null_body_is_reported_as_unreachable (w : World) query variables pv
    response responseText :
  passes_checks env JSON_parse parse query variables pv ->
  w _ (fetch (ENDPOINT env) (request_init env query pv)) = inr response ->
  w _ (response_text response) = inr responseText ->
  ok response = true ->
  JSON_parse responseText = inr JNull ->
  exists r,
    snd (run w (tool query variables)) = inr r /\
    r = error_result
          "Failed to execute GraphQL query: Cannot read properties of null (reading 'errors')" /\
    class_of_text (result_text r) = Some UpstreamUnreachable.
Proof.
  intros Hc Hf Ht Hok Hp. eexists. split; [|split; [reflexivity|]].
  - rewrite (handler_passes_checks _ _ _ _ _ _ _ _ Hc).
    rewrite (execute_parsed w query pv response responseText _ Hf Ht Hok Hp).
    reflexivity.
  - vm_compute. reflexivity.
Qed.

(** X7.  [search-schema] makes exactly one call, to the retrieval pipeline,
    and a failure of that call comes back as a result with the error flag and
    the text "Failed to search schema: " followed by the message; a call
    without [k] searches with [k = 5]. *)
Theorem search_schema_reports_pipeline_failure (w : World) question k err :
  w _ (semanticSearch question k) = inl err ->
  run w (search_schema question k) =
    ( [Called (semanticSearch question k)],
      inr (error_result ("Failed to search schema: " ++ message err)) ) /\
  search_schema_tool question None = search_schema question 5%float.
Proof.
  intros Hw. split; [|reflexivity].
  unfold search_schema. simpl. rewrite Hw. reflexivity.
Qed.

End RequestProperties.


Lemma typename_passes_checks :
  passes_checks (sample_env false None) sample_JSON_parse sample_parse
    "{ __typename }" None None.
Proof. split; [reflexivity|]. eexists. split; reflexivity. Qed.

Lemma query_graphql_returns_the_upstream_data_witness :
  run (upstream_200 "{}") (sample_query_graphql false "{ __typename }" None) =
    ( [ Called typename_request; Called (response_text ok_response) ],
      inr (text_result "{}") ).
Proof.
  exact (query_graphql_returns_the_upstream_data (sample_env false None)
           sample_JSON_parse sample_JSON_stringify sample_parse sample_gt0
           (upstream_200 "{}") "{ __typename }" None None ok_response "{}"
           (JObject []) None
           typename_passes_checks eq_refl eq_refl eq_refl eq_refl eq_refl eq_refl).
Defined.

Lemma empty_errors_are_not_errors_witness :
  snd (run (upstream_200 errors_body) (sample_query_graphql false "{ __typename }" None)) =
    inr (text_result
           ("GraphQL query executed, but the response contains errors: "
              ++ errors_pretty)).
Proof.
  exact (proj1 (empty_errors_are_not_errors (sample_env false None)
           sample_JSON_parse sample_JSON_stringify sample_parse sample_gt0
           (upstream_200 errors_body) "{ __typename }" None None ok_response errors_body
           [("errors", JArray [JObject [("message", JString "boom")]])]
           typename_passes_checks eq_refl eq_refl eq_refl eq_refl)).
Defined.

Lemma null_body_is_reported_as_unreachable_witness :
  exists r,
    snd (run (upstream_200 "null") (sample_query_graphql false "{ __typename }" None))
      = inr r /\
    r = error_result
          "Failed to execute GraphQL query: Cannot read properties of null (reading 'errors')" /\
    class_of_text (result_text r) = Some UpstreamUnreachable.
Proof.
  exact (null_body_is_reported_as_unreachable (sample_env false None)
           sample_JSON_parse sample_JSON_stringify sample_parse sample_gt0
           (upstream_200 "null") "{ __typename }" None None ok_response "null"
           typename_passes_checks eq_refl eq_refl eq_refl eq_refl).
Defined.

Lemma search_schema_reports_pipeline_failure_witness :
  run pipeline_fails (search_schema "What fields are on User?" 5%float) =
    ( [Called (semanticSearch "What fields are on User?" 5%float)],
      inr (error_result "Failed to search schema: Connection refused") ).
Proof.
  exact (proj1 (search_schema_reports_pipeline_failure pipeline_fails
                  "What fields are on User?" 5%float _ eq_refl)).
Defined.

(** ** Routing *)

Lemma mounted_self mount : mounted mount mount = true.
Proof. unfold mounted. rewrite String.eqb_refl. reflexivity. Qed.

(** The requests that a route takes. *)
Lemma dispatch_routed_cases (env : Env) (req : Request) (h : RouteHandler) :
  dispatch env app req = Routed h ->
  (h = McpHandler /\ req_path req = "/mcp" /\ authenticateApiKey env req = next) \/
  (h = SseHandler /\ req_path req = "/sse" /\
   (req_method req = GET \/ req_method req = HEAD)) \/
  (h = MessagesHandler /\ req_path req = "/messages" /\ req_method req = POST /\
   authenticateApiKey env req = next).
Proof.
  unfold app, routes. cbn [Datatypes.app dispatch handles_method].
  destruct (String.eqb (req_path req) "/mcp") eqn:Hmcp.
  - apply String.eqb_eq in Hmcp. rewrite Hmcp, mounted_self.
    destruct (authenticateApiKey env req) eqn:Hauth; [|discriminate].
    change (mounted "/messages" "/mcp") with false. cbn [andb].
    intros H. injection H as <-. left. auto.
  - cbn [andb].
    destruct (String.eqb (req_path req) "/sse") eqn:Hsse.
    + apply String.eqb_eq in Hsse. rewrite Hsse.
      change (mounted "/mcp" "/sse") with false.
      change (mounted "/messages" "/sse") with false. cbn [andb].
      destruct (req_method req) eqn:Hm; cbn [Method_eqb String.eqb Ascii.eqb andb negb];
        try discriminate; intros H; injection H as <-; right; left; auto.
    + cbn [andb].
      destruct (String.eqb (req_path req) "/messages") eqn:Hmsg.
      * apply String.eqb_eq in Hmsg. rewrite Hmsg.
        change (mounted "/mcp" "/messages") with false. rewrite mounted_self.
        destruct (authenticateApiKey env req) eqn:Hauth; [|discriminate].
        cbn [andb].
        destruct (req_method req) eqn:Hm; cbn [Method_eqb andb negb]; try discriminate.
        intros H. injection H as <-. right. right. auto.
      * cbn [andb]. destruct (mounted "/mcp" (req_path req));
          [destruct (authenticateApiKey env req)|];
          (destruct (mounted "/messages" (req_path req));
             [destruct (authenticateApiKey env req)|]); discriminate.
Qed.

(** X8.  No request reaches the handler of [/mcp] or of [/messages] without
    having passed [authenticateApiKey]: the two [app.use] layers stand before
    every route they guard, whatever the method.  The handler of [/sse] is
    reached without the check, by GET and, as Express answers HEAD with the
    GET handler, by HEAD; the handler of [/messages] is reached by POST
    only. *)
Theorem routed_requests_have_passed_the_check (env : Env) (req : Request)
    (h : RouteHandler) :
  dispatch env app req = Routed h ->
  match h with
  | McpHandler => authenticateApiKey env req = next
  | SseHandler => req_method req = GET \/ req_method req = HEAD
  | MessagesHandler => req_method req = POST /\ authenticateApiKey env req = next
  end /\
  forall key session param init,
    dispatch env app (request HEAD "/sse" key session param init) = Routed SseHandler.
Proof.
  intros H. split; [|reflexivity].
  destruct (dispatch_routed_cases env req h H)
    as [(-> & _ & Hauth)|[(-> & _ & Hm)|(-> & _ & Hm & Hauth)]]; auto.
Qed.

Lemma routed_requests_have_passed_the_check_witness :
  dispatch secret_env app (request POST "/messages" (Some "secret") None (Some uuid1) false)
    = Routed MessagesHandler /\
  authenticateApiKey secret_env
    (request POST "/messages" (Some "secret") None (Some uuid1) false) = next.
Proof.
  split; [reflexivity|].
  exact (proj2 (proj1 (routed_requests_have_passed_the_check secret_env
                  (request POST "/messages" (Some "secret") None (Some uuid1) false)
                  MessagesHandler eq_refl))).
Defined.


(** ** The life of a session *)

Lemma timer_callback_subset close_throws s timer k v :
  streamableTransports (timer_callback close_throws s timer) !! k = Some v ->
  streamableTransports s !! k = Some v.
Proof.
  unfold timer_callback. destruct (close_throws (timer_transport timer)).
  - simpl. intros H. apply lookup_delete_Some in H. tauto.
  - match goal with |- streamableTransports (close_transport ?s' ?t) !! _ = _ -> _ =>
      destruct (close_transport_registry s' t) as [->|[id ->]] end; simpl; intros H.
    + apply lookup_delete_Some in H. tauto.
    + apply lookup_delete_Some in H as [_ H]. apply lookup_delete_Some in H. tauto.
Qed.

Lemma batch_subset close_throws (batch : list (nat * Timer)) k v :
  forall s,
    streamableTransports
      (fold_left (fun acc x => timer_callback close_throws acc (snd x)) batch s) !! k
      = Some v ->
    streamableTransports s !! k = Some v.
Proof.
  induction batch as [|x rest IH]; intros s H; [exact H|].
  simpl in H. apply IH in H. eapply timer_callback_subset. exact H.
Qed.

Lemma elapse_subset close_throws s ms k v :
  streamableTransports (elapse close_throws s ms) !! k = Some v ->
  streamableTransports s !! k = Some v.
Proof. unfold elapse. intros H. apply batch_subset in H. exact H. Qed.

(** The reuse branch of [/mcp]. *)
Lemma mcp_handler_reuse_branch s req sdk id t :
  registries_ok s ->
  mcp_session_id req = Some id -> streamableTransports s !! id = Some t ->
  mcp_handler s req sdk = handleRequest s t sdk.
Proof.
  intros Hok Hreq Hreg.
  destruct (streamable_slots s Hok id t Hreg) as (Hu & _).
  unfold mcp_handler. rewrite Hreq.
  change (default "" (Some id)) with id. cbn [truthy].
  rewrite (is_uuid_truthy id Hu), (js_get_registered _ id t Hreg). reflexivity.
Qed.

(** X9.  A session id that the handshake has registered is accepted until the
    session is closed and unknown afterwards: when the SDK closes the
    transport while it handles a request for the id (a DELETE), the slot is
    released, the transport is marked closed, and every later request that
    carries the id is answered 400 without touching the state. *)
Theorem closed_session_is_unknown (evs : list Event) (req : Request) id t :
  Forall valid_event evs ->
  mcp_session_id req = Some id ->
  streamableTransports (run_events initial evs) !! id = Some t ->
  let s := run_events initial evs in
  let s' := fst (mcp_handler s req sdk_close) in
  snd (mcp_handler s req sdk_close) = HandledBy t /\
  streamableTransports s' !! id = None /\
  (exists tr, transports s' !! t = Some tr /\ closed tr = true) /\
  forall req' sdk',
    mcp_session_id req' = Some id ->
    mcp_handler s' req' sdk' = (s', RejectedJson 400 bad_handshake).
Proof.
  intros Hvalid Hreq Hreg. cbv zeta.
  assert (Hok : registries_ok (run_events initial evs))
    by (apply registries_ok_run; [apply registries_ok_initial|exact Hvalid]).
  remember (run_events initial evs) as s eqn:Es. clear Es.
  destruct (streamable_slots s Hok id t Hreg) as (Hu & tr & srv & Ht & _ & Hid & _).
  rewrite (mcp_handler_reuse_branch s req sdk_close id t Hok Hreq Hreg).
  cbn [handleRequest fst snd].
  destruct (close_transport_fields s t tr Ht) as (Htr & _ & _ & _ & Hstream).
  rewrite Hid, (is_uuid_truthy id Hu) in Hstream.
  assert (Hnone : streamableTransports (close_transport s t) !! id = None).
  { rewrite Hstream. apply lookup_delete_eq. }
  split; [reflexivity|split; [exact Hnone|split]].
  - exists (mark_closed tr). rewrite Htr. split; [|reflexivity].
    apply list_lookup_insert_eq. eapply lookup_lt_Some. exact Ht.
  - intros req' sdk' Hreq'. eapply unknown_uuid_is_rejected; eassumption.
Qed.

(** X10.  The side channel follows the stream: a POST to [/messages] with the
    id of an open push stream is handed to the transport of that stream and
    leaves the state as it is; once the stream has closed, the same POST is
    answered 400.  Right after [GET /sse] has drawn an id, a POST with that id
    reaches the new transport. *)
Theorem messages_follow_the_push_stream (evs : list Event) (req : Request) id t :
  Forall valid_event evs ->
  query_sessionId req = Some id ->
  sseTransports (run_events initial evs) !! id = Some t ->
  let s := run_events initial evs in
  let s' := step s (SseClose t) in
  messages_handler s req = (s, HandledBy t) /\
  sseTransports s' !! id = None /\
  messages_handler s' req = (s', RejectedText 400 "Unknown or expired sessionId") /\
  forall s0,
    messages_handler (fst (sse_handler s0 id)) req =
      (fst (sse_handler s0 id), HandledBy (length (transports s0))).
Proof.
  intros Hvalid Hreq Hreg. cbv zeta.
  assert (Hok : registries_ok (run_events initial evs))
    by (apply registries_ok_run; [apply registries_ok_initial|exact Hvalid]).
  remember (run_events initial evs) as s eqn:Es. clear Es.
  destruct (sse_slots s Hok id t Hreg) as (Hu & tr & srv & Ht & Hk & Hid & _).
  assert (Hnone : sseTransports (step s (SseClose t)) !! id = None).
  { unfold step, is_sse, sse_on_close. rewrite Ht, Hk, Hid. simpl.
    apply lookup_delete_eq. }
  split; [|split; [exact Hnone|split]].
  - unfold messages_handler. rewrite Hreq.
    change (default "undefined" (Some id)) with id.
    rewrite (js_get_registered _ id t Hreg). reflexivity.
  - eapply unknown_uuid_message_is_rejected; eassumption.
  - intros s0. unfold messages_handler. rewrite Hreq.
    change (default "undefined" (Some id)) with id.
    rewrite sse_handler_state. cbn [fst].
    rewrite (js_get_registered _ id (length (transports s0))); [reflexivity|].
    simpl. apply lookup_insert_eq.
Qed.

Lemma handleRequest_registered_subset s t sdk tr id0 k v :
  transports s !! t = Some tr -> sessionId tr = Some id0 ->
  streamableTransports (fst (handleRequest s t sdk)) !! k = Some v ->
  streamableTransports s !! k = Some v.
Proof.
  intros Ht Hid. unfold handleRequest. destruct sdk as [|id'|]; [auto| |].
  - rewrite Ht, Hid. auto.
  - cbn [fst]. destruct (close_transport_registry s t) as [->|[id ->]]; [auto|].
    intros H. apply lookup_delete_Some in H. tauto.
Qed.

(** X11.  A slot of [streamableTransports] is only ever written by the init
    branch of [/mcp]: if a step of the process makes an id resolve to a
    transport it did not resolve to before, the step is a request without
    session id and with an initialization body for which the SDK drew that
    id, and the transport is the one just created.  No step points an id at
    an existing transport. *)
Theorem ids_are_registered_only_by_the_init_branch (evs : list Event) (ev : Event) id t :
  Forall valid_event evs ->
  streamableTransports (step (run_events initial evs) ev) !! id = Some t ->
  let s := run_events initial evs in
  streamableTransports s !! id = Some t \/
  exists req,
    ev = McpRequest req (sdk_initialize id) /\
    truthy (mcp_session_id req) = false /\ is_initialize_body req = true /\
    t = length (transports s).
Proof.
  intros Hvalid Hstep. cbv zeta.
  assert (Hok : registries_ok (run_events initial evs))
    by (apply registries_ok_run; [apply registries_ok_initial|exact Hvalid]).
  remember (run_events initial evs) as s eqn:Es. clear Es.
  destruct ev as [req sdk|id'|t'|req|ms close_throws]; cbn [step] in Hstep.
  - destruct (truthy (mcp_session_id req)) eqn:Htruthy.
    + left. revert Hstep. unfold mcp_handler. rewrite Htruthy. cbn [andb negb].
      unfold js_get.
      destruct (streamableTransports s !! default "" (mcp_session_id req)) as [t0|] eqn:Hreg.
      * cbn [truthy_lookup].
        destruct (streamable_slots s Hok _ t0 Hreg) as (_ & tr & srv & Ht & _ & Hid & _).
        apply (handleRequest_registered_subset s t0 sdk tr _ id t Ht Hid).
      * destruct (bool_decide _); auto.
    + destruct (is_initialize_body req) eqn:Hinit.
      * destruct sdk as [|id0|].
        -- left. rewrite (mcp_handler_init_branch s req _ Htruthy Hinit) in Hstep.
           exact Hstep.
        -- rewrite (mcp_handler_initializes s req id0 Htruthy Hinit) in Hstep.
           simpl in Hstep. apply lookup_insert_Some in Hstep as [(<- & <-)|[_ H]];
             [right; exists req; auto|left; exact H].
        -- left. rewrite (mcp_handler_init_branch s req _ Htruthy Hinit) in Hstep.
           cbn [handleRequest fst] in Hstep.
           destruct (close_transport_registry (with_transport s StreamableHTTP None)
                       (length (transports s))) as [Heq|[id0 Heq]];
             rewrite Heq in Hstep; [exact Hstep|].
           apply lookup_delete_Some in Hstep. tauto.
      * left. revert Hstep. unfold mcp_handler. rewrite Htruthy, Hinit. auto.
  - left. rewrite sse_handler_state in Hstep. exact Hstep.
  - left. destruct (is_sse s t'); [|exact Hstep].
    revert Hstep. unfold sse_on_close.
    destruct (transports s !! t') as [tr|]; [|auto].
    destruct (sessionId tr); auto.
  - left. revert Hstep. unfold messages_handler.
    destruct (truthy_lookup _); simpl; [|auto]. destruct (js_get _ _); auto.
  - left. eapply elapse_subset. exact Hstep.
Qed.

(** ** The pending timers *)

Lemma close_transport_state s t tr :
  transports s !! t = Some tr ->
  close_transport s t =
    let closing :=
      match sessionId tr with
      | Some id => truthy_string id
      | None => false
      end in
    {| streamableTransports :=
         match sessionId tr with
         | Some id => if closing then delete id (streamableTransports s)
                      else streamableTransports s
         | None => streamableTransports s
         end;
       sseTransports := sseTransports s;
       transports := <[t := mark_closed tr]> (transports s);
       servers := servers s;
       timers :=
         match sessionTimeoutHandle tr with
         | Some h =>
             if closing
             then List.filter (fun ht => negb (Nat.eqb (fst ht) h)) (timers s)
             else timers s
         | None => timers s
         end;
       next_timer := next_timer s; now := now s; close_calls := close_calls s |}.
Proof.
  intros Ht. unfold close_transport. rewrite Ht. unfold onclose, set_transport. fields.
  rewrite list_lookup_insert_eq by (eapply lookup_lt_Some; eassumption). fields.
  destruct (sessionId tr) as [id|]; [|destruct (sessionTimeoutHandle tr); reflexivity].
  destruct (truthy_string id); [|destruct (sessionTimeoutHandle tr); reflexivity].
  destruct (sessionTimeoutHandle tr) as [h|]; reflexivity.
Qed.

(** A step that creates no transport, arms no timer and leaves the clock
    alone keeps the timers in order, provided the slots that remain are still
    covered. *)
Lemma timers_ok_frame batch batch' s s' :
  timers_ok_with batch s ->
  (forall t tr', transports s' !! t = Some tr' ->
     exists tr0, transports s !! t = Some tr0 /\
                 sessionTimeoutHandle tr0 = sessionTimeoutHandle tr' /\
                 sessionId tr0 = sessionId tr') ->
  (forall t tr0, transports s !! t = Some tr0 ->
     exists tr', transports s' !! t = Some tr' /\
                 sessionTimeoutHandle tr' = sessionTimeoutHandle tr0 /\
                 sessionId tr' = sessionId tr0) ->
  next_timer s' = next_timer s -> now s' = now s ->
  (forall x, In x (timers s') -> In x (timers s)) ->
  (forall id t, streamableTransports s' !! id = Some t ->
     (exists h d, In (h, {| deadline := d; timer_session := id; timer_transport := t |})
                     (timers s')) \/
     (exists h timer, In (h, timer) batch' /\ timer_session timer = id)) ->
  timers_ok_with batch' s'.
Proof.
  intros [Hown Hfresh Hun Hwin Hslot] Hback Hforth Hnext Hnow Hsub Hcov.
  split.
  - intros h timer Hin. destruct (Hown h timer (Hsub _ Hin)) as (tr0 & Ht0 & Hh & Hi).
    destruct (Hforth _ tr0 Ht0) as (tr' & Ht' & Hh' & Hi'). exists tr'.
    split; [exact Ht'|]. split; congruence.
  - intros t tr' h Ht' Hh. destruct (Hback t tr' Ht') as (tr0 & Ht0 & Hh0 & _).
    rewrite Hnext. apply (Hfresh t tr0 h Ht0). congruence.
  - intros t1 t2 tr1 tr2 h H1 H2 Hh1 Hh2.
    destruct (Hback t1 tr1 H1) as (tr1' & H1' & Hh1' & _).
    destruct (Hback t2 tr2 H2) as (tr2' & H2' & Hh2' & _).
    apply (Hun t1 t2 tr1' tr2' h H1' H2'); congruence.
  - intros h timer Hin. rewrite Hnow. apply (Hwin h timer). apply Hsub. exact Hin.
  - exact Hcov.
Qed.

Lemma mark_closed_back (l : list Transport) t tr :
  l !! t = Some tr ->
  forall t0 tr', <[t := mark_closed tr]> l !! t0 = Some tr' ->
    exists tr0, l !! t0 = Some tr0 /\
                sessionTimeoutHandle tr0 = sessionTimeoutHandle tr' /\
                sessionId tr0 = sessionId tr'.
Proof.
  intros Ht t0 tr' H.
  apply list_lookup_insert_Some in H as [(<- & <- & _)|[_ H]]; eauto.
Qed.

Lemma mark_closed_forth (l : list Transport) t tr :
  l !! t = Some tr ->
  forall t0 tr0, l !! t0 = Some tr0 ->
    exists tr', <[t := mark_closed tr]> l !! t0 = Some tr' /\
                sessionTimeoutHandle tr' = sessionTimeoutHandle tr0 /\
                sessionId tr' = sessionId tr0.
Proof.
  intros Ht t0 tr0 H. destruct (decide (t = t0)) as [Heq|Hne].
  - exists (mark_closed tr). rewrite <- Heq in *.
    rewrite list_lookup_insert_eq by (eapply lookup_lt_Some; eassumption).
    rewrite Ht in H. injection H as <-. auto.
  - exists tr0. rewrite list_lookup_insert_ne by exact Hne. auto.
Qed.

Lemma timers_ok_close_transport batch s t :
  timers_ok_with batch s -> timers_ok_with batch (close_transport s t).
Proof.
  intros Hok. destruct (transports s !! t) as [tr|] eqn:Ht;
    [|rewrite close_transport_missing; assumption].
  rewrite (close_transport_state s t tr Ht). cbv zeta.
  apply (timers_ok_frame batch batch s); fields; try reflexivity; try exact Hok.
  - apply mark_closed_back. exact Ht.
  - apply mark_closed_forth. exact Ht.
  - intros x. destruct (sessionTimeoutHandle tr); [|auto].
    destruct (sessionId tr) as [id|]; [|auto].
    destruct (truthy_string id); [|auto]. intros Hx. apply filter_In in Hx. tauto.
  - intros id0 t0 Hslot.
    assert (Hslot0 : streamableTransports s !! id0 = Some t0).
    { destruct (sessionId tr) as [id|]; [|exact Hslot].
      destruct (truthy_string id); [|exact Hslot].
      apply lookup_delete_Some in Hslot. tauto. }
    destruct (slot_timer batch s Hok id0 t0 Hslot0) as [(h0 & d & Hin)|Hb]; [|right; exact Hb].
    left. exists h0, d.
    destruct (sessionTimeoutHandle tr) as [h|] eqn:Hh; [|exact Hin].
    destruct (sessionId tr) as [id|] eqn:Hid; [|exact Hin].
    destruct (truthy_string id) eqn:Htruthy; [|exact Hin].
    apply filter_In. split; [exact Hin|]. simpl.
    apply negb_true_iff, Nat.eqb_neq. intros ->.
    destruct (timer_owner batch s Hok h _ Hin) as (tr0 & Ht0 & Hh0 & Hid0).
    simpl in Ht0, Hid0.
    assert (t0 = t) by (eapply (handles_unshared batch s Hok); eassumption). subst t0.
    assert (id0 = id) by congruence. subst id0.
    rewrite lookup_delete_eq in Hslot. discriminate.
Qed.


Lemma lookup_snoc_cases {A} (l : list A) (x : A) i y :
  (l ++ [x])%list !! i = Some y -> l !! i = Some y \/ (i = length l /\ y = x).
Proof. intros H. apply lookup_snoc_Some in H as [[_ H]|[-> ->]]; auto. Qed.

(** A new transport without a timer. *)
Lemma timers_ok_unarmed s s' tr_new :
  timers_ok s ->
  transports s' = (transports s ++ [tr_new])%list ->
  sessionTimeoutHandle tr_new = None ->
  next_timer s' = next_timer s -> now s' = now s -> timers s' = timers s ->
  streamableTransports s' = streamableTransports s ->
  timers_ok s'.
Proof.
  intros [Hown Hfresh Hun Hwin Hslot] Htr Hnone Hnext Hnow Htimers Hstream.
  split; rewrite ?Htimers, ?Hnext, ?Hnow, ?Hstream; try assumption.
  - intros h timer Hin. destruct (Hown h timer Hin) as (tr0 & Ht0 & ?).
    exists tr0. rewrite Htr. split; [apply lookup_app_l_Some; exact Ht0|assumption].
  - intros t tr h Ht Hh. rewrite Htr in Ht.
    apply lookup_snoc_cases in Ht as [Ht|[_ ->]]; [eauto|congruence].
  - intros t1 t2 tr1 tr2 h H1 H2 Hh1 Hh2. rewrite Htr in H1, H2.
    apply lookup_snoc_cases in H1 as [H1|[_ ->]]; [|congruence].
    apply lookup_snoc_cases in H2 as [H2|[_ ->]]; [eauto|congruence].
Qed.

Lemma timers_ok_with_transport s k id :
  timers_ok s -> timers_ok (with_transport s k id).
Proof. intros Hok. eapply (timers_ok_unarmed s); try exact Hok; reflexivity. Qed.

Lemma timers_ok_initialized s id :
  timers_ok s -> timers_ok (initialized s id).
Proof.
  intros [Hown Hfresh Hun Hwin Hslot]. split; simpl.
  - intros h timer Hin. apply in_app_or in Hin as [Hin|[Heq|[]]].
    + destruct (Hown h timer Hin) as (tr0 & Ht0 & ?).
      exists tr0. split; [apply lookup_app_l_Some; exact Ht0|assumption].
    + injection Heq as <- <-. simpl. eexists. split; [apply lookup_snoc|]. auto.
  - intros t tr h Ht Hh. apply lookup_snoc_cases in Ht as [Ht|[_ ->]].
    + specialize (Hfresh t tr h Ht Hh). lia.
    + simpl in Hh. injection Hh as <-. lia.
  - intros t1 t2 tr1 tr2 h H1 H2 Hh1 Hh2.
    apply lookup_snoc_cases in H1 as [H1|[-> ->]];
      apply lookup_snoc_cases in H2 as [H2|[-> ->]].
    + eauto.
    + simpl in Hh2. injection Hh2 as <-. specialize (Hfresh t1 tr1 _ H1 Hh1). lia.
    + simpl in Hh1. injection Hh1 as <-. specialize (Hfresh t2 tr2 _ H2 Hh2). lia.
    + reflexivity.
  - intros h timer Hin. apply in_app_or in Hin as [Hin|[Heq|[]]];
      [exact (Hwin h timer Hin)|].
    injection Heq as <- <-. simpl. unfold timeoutMs. lia.
  - intros id0 t Hslot0. left.
    apply lookup_insert_Some in Hslot0 as [(<- & <-)|[_ Hslot0]].
    + eexists _, _. apply in_or_app. right. left. reflexivity.
    + destruct (Hslot id0 t Hslot0) as [(h & d & Hin)|(h & timer & [] & _)].
      exists h, d. apply in_or_app. left. exact Hin.
Qed.

Lemma timers_ok_sse_handler s id :
  timers_ok s -> timers_ok (fst (sse_handler s id)).
Proof.
  intros Hok. rewrite sse_handler_state.
  eapply (timers_ok_unarmed s); try exact Hok; reflexivity.
Qed.

Lemma timers_ok_sse_on_close s t :
  timers_ok s -> timers_ok (sse_on_close s t).
Proof.
  intros Hok. unfold sse_on_close.
  destruct (transports s !! t) as [tr|] eqn:Ht; [|assumption].
  destruct (sessionId tr) as [id|]; [|assumption].
  apply (timers_ok_frame [] [] s); unfold set_transport, set_sse; fields;
    try reflexivity; try exact Hok; auto.
  - apply mark_closed_back. exact Ht.
  - apply mark_closed_forth. exact Ht.
  - apply (slot_timer [] s Hok).
Qed.

(** One callback of a batch of due timers. *)
Lemma timers_ok_timer_callback close_throws x rest s :
  timers_ok_with (x :: rest) s ->
  timers_ok_with rest (timer_callback close_throws s (snd x)).
Proof.
  intros Hok. rewrite timer_callback_expand. cbv zeta.
  match goal with |- timers_ok_with _ (if _ then ?s2 else _) =>
    assert (Hok2 : timers_ok_with rest s2) end.
  { apply (timers_ok_frame (x :: rest) rest s); fields; try reflexivity; try exact Hok;
      eauto.
    intros id t Hslot. apply lookup_delete_Some in Hslot as [Hne Hslot].
    destruct (slot_timer _ s Hok id t Hslot) as [Hp|(h & timer & [Heq|Hin] & Hs)].
    - left. exact Hp.
    - subst x. simpl in Hne. congruence.
    - right. eauto. }
  destruct (close_throws (timer_transport (snd x))); [exact Hok2|].
  apply timers_ok_close_transport. exact Hok2.
Qed.

Lemma timers_ok_batch close_throws (batch : list (nat * Timer)) :
  forall s,
    timers_ok_with batch s ->
    timers_ok (fold_left (fun acc x => timer_callback close_throws acc (snd x)) batch s).
Proof.
  induction batch as [|x rest IH]; intros s Hok; [exact Hok|].
  simpl. apply IH. apply timers_ok_timer_callback. exact Hok.
Qed.

Lemma timers_ok_elapse close_throws s ms :
  timers_ok s -> timers_ok (elapse close_throws s ms).
Proof.
  intros [Hown Hfresh Hun Hwin Hslot]. unfold elapse. apply timers_ok_batch.
  split; simpl.
  - intros h timer Hin. apply filter_In in Hin as [Hin _]. apply (Hown h timer Hin).
  - exact Hfresh.
  - exact Hun.
  - intros h timer Hin. apply filter_In in Hin as [Hin Hnot].
    unfold due in Hnot. simpl in Hnot. apply negb_true_iff, N.leb_gt in Hnot.
    destruct (Hwin h timer Hin) as [_ Hle]. lia.
  - intros id t Hslot0.
    destruct (Hslot id t Hslot0) as [(h & d & Hin)|(h & timer & [] & _)].
    destruct (due (now s + ms)
                (h, {| deadline := d; timer_session := id; timer_transport := t |}))
      eqn:Hdue.
    + right. eexists _, _. split; [apply filter_In; split; [exact Hin|exact Hdue]|].
      reflexivity.
    + left. exists h, d. apply filter_In. split; [exact Hin|]. rewrite Hdue. reflexivity.
Qed.

Lemma timers_ok_initial : timers_ok initial.
Proof.
  split; simpl.
  - intros h timer [].
  - intros t tr h H. rewrite lookup_nil in H. discriminate.
  - intros t1 t2 tr1 tr2 h H. rewrite lookup_nil in H. discriminate.
  - intros h timer [].
  - intros id t H. rewrite lookup_empty in H. discriminate.
Qed.

Lemma timers_ok_handleRequest_registered s t sdk tr id :
  timers_ok s -> transports s !! t = Some tr -> sessionId tr = Some id ->
  timers_ok (fst (handleRequest s t sdk)).
Proof.
  intros Hok Ht Hid. unfold handleRequest. destruct sdk as [|id'|]; [assumption| |].
  - rewrite Ht, Hid. assumption.
  - cbn [fst]. apply timers_ok_close_transport. exact Hok.
Qed.

Lemma timers_ok_step s ev :
  registries_ok s -> timers_ok s -> timers_ok (step s ev).
Proof.
  intros Hreg Hok. destruct ev as [req sdk|id|t|req|ms close_throws]; cbn [step].
  - destruct (truthy (mcp_session_id req)) eqn:Htruthy.
    + unfold mcp_handler. rewrite Htruthy. cbn [andb negb]. unfold js_get.
      destruct (streamableTransports s !! default "" (mcp_session_id req)) as [t|] eqn:Hslot.
      * cbn [truthy_lookup].
        destruct (streamable_slots s Hreg _ t Hslot) as (_ & tr & srv & Ht & _ & Hid & _).
        eapply timers_ok_handleRequest_registered; eassumption.
      * destruct (bool_decide _); assumption.
    + destruct (is_initialize_body req) eqn:Hinit.
      * destruct sdk as [|id|].
        -- rewrite (mcp_handler_init_branch s req _ Htruthy Hinit).
           apply timers_ok_with_transport, Hok.
        -- rewrite (mcp_handler_initializes s req id Htruthy Hinit).
           apply timers_ok_initialized, Hok.
        -- rewrite (mcp_handler_init_branch s req _ Htruthy Hinit).
           cbn [handleRequest fst]. apply timers_ok_close_transport.
           apply timers_ok_with_transport, Hok.
      * unfold mcp_handler. rewrite Htruthy, Hinit. assumption.
  - apply timers_ok_sse_handler, Hok.
  - destruct (is_sse s t); [|exact Hok]. apply timers_ok_sse_on_close, Hok.
  - unfold messages_handler.
    destruct (truthy_lookup _); simpl; [|exact Hok]. destruct (js_get _ _); exact Hok.
  - apply timers_ok_elapse, Hok.
Qed.

Lemma timers_ok_run evs :
  forall s, registries_ok s -> timers_ok s -> Forall valid_event evs ->
            timers_ok (run_events s evs).
Proof.
  induction evs as [|ev rest IH]; intros s Hreg Hok Hvalid; [exact Hok|].
  apply Forall_cons in Hvalid as [Hev Hrest]. simpl. apply IH; [| |exact Hrest].
  - apply registries_ok_step; assumption.
  - apply timers_ok_step; assumption.
Qed.

Lemma elapse_releases close_throws s h timer ms :
  In (h, timer) (timers s) -> (deadline timer <= now s + ms)%N ->
  streamableTransports (elapse close_throws s ms) !! timer_session timer = None.
Proof.
  intros Hin Hdue. unfold elapse.
  apply (batch_establishes
           (fun s => streamableTransports s !! timer_session timer = None)
           close_throws _ (h, timer)).
  - intros s0. apply timer_callback_releases.
  - intros s0 x. apply timer_callback_keeps_none.
  - apply filter_In. split; [exact Hin|]. unfold due. simpl. apply N.leb_le. exact Hdue.
Qed.

(** X13.  Closing a session cancels its timer: after the SDK has closed the
    transport of a registered session while handling a request for it, no
    pending timer refers to that transport, so no callback will later run for
    the closed session. *)
Theorem closing_a_session_cancels_its_timer (evs : list Event) (req : Request) id t :
  Forall valid_event evs ->
  mcp_session_id req = Some id ->
  streamableTransports (run_events initial evs) !! id = Some t ->
  forall h timer,
    In (h, timer) (timers (fst (mcp_handler (run_events initial evs) req sdk_close))) ->
    timer_transport timer <> t.
Proof.
  intros Hvalid Hreq Hslot.
  assert (Hreg : registries_ok (run_events initial evs))
    by (apply registries_ok_run; [apply registries_ok_initial|exact Hvalid]).
  assert (Hok : timers_ok (run_events initial evs))
    by (apply timers_ok_run;
        [apply registries_ok_initial|apply timers_ok_initial|exact Hvalid]).
  remember (run_events initial evs) as s eqn:Es. clear Es.
  destruct (streamable_slots s Hreg id t Hslot) as (Hu & tr & srv & Ht & _ & Hid & _).
  destruct (slot_timer [] s Hok id t Hslot) as [(h0 & d & Hin0)|(h0 & tm & [] & _)].
  destruct (timer_owner [] s Hok _ _ Hin0) as (tr0 & Ht0 & Hh0 & _). simpl in Ht0.
  rewrite Ht in Ht0. injection Ht0 as <-.
  rewrite (mcp_handler_reuse_branch s req sdk_close id t Hreg Hreq Hslot).
  cbn [handleRequest fst]. rewrite (close_transport_state s t tr Ht). cbv zeta. fields.
  rewrite Hh0, Hid, (is_uuid_truthy id Hu).
  intros h timer Hin Heq. apply filter_In in Hin as [Hin Hne]. simpl in Hne.
  apply negb_true_iff, Nat.eqb_neq in Hne. apply Hne.
  destruct (timer_owner [] s Hok _ _ Hin) as (tr1 & Ht1 & Hh1 & _).
  rewrite Heq, Ht in Ht1. injection Ht1 as <-. congruence.
Qed.

(** X14.  No stream-style session is registered for more than an hour, with
    or without traffic.  In every state the process reaches, each slot of
    [streamableTransports] has a pending timer for its id and its transport
    whose deadline lies in the future and at most 3 600 000 ms ahead; hence
    once an hour has passed, however the callbacks' [close()] calls end, no
    stream-style session is left. *)
Theorem no_stream_session_outlives_one_hour (evs : list Event) :
  Forall valid_event evs ->
  let s := run_events initial evs in
  (forall id t,
     streamableTransports s !! id = Some t ->
     exists h d,
       In (h, {| deadline := d; timer_session := id; timer_transport := t |}) (timers s) /\
       (now s < d /\ d <= now s + 3600000)%N) /\
  (forall close_throws ms,
     (3600000 <= ms)%N -> streamableTransports (elapse close_throws s ms) = ∅).
Proof.
  intros Hvalid. cbv zeta.
  assert (Hok : timers_ok (run_events initial evs))
    by (apply timers_ok_run;
        [apply registries_ok_initial|apply timers_ok_initial|exact Hvalid]).
  remember (run_events initial evs) as s eqn:Es. clear Es.
  assert (Hslot : forall id t,
    streamableTransports s !! id = Some t ->
    exists h d,
      In (h, {| deadline := d; timer_session := id; timer_transport := t |}) (timers s) /\
      (now s < d /\ d <= now s + 3600000)%N).
  { intros id t H.
    destruct (slot_timer [] s Hok id t H) as [(h & d & Hin)|(h & tm & [] & _)].
    exists h, d. split; [exact Hin|]. apply (timer_window [] s Hok _ _ Hin). }
  split; [exact Hslot|].
  intros close_throws ms Hms. apply map_empty. intros id.
  destruct (streamableTransports (elapse close_throws s ms) !! id) as [t|] eqn:Hafter;
    [|reflexivity].
  exfalso. pose proof (elapse_subset _ _ _ _ _ Hafter) as Hbefore.
  destruct (Hslot id t Hbefore) as (h & d & Hin & _ & Hle).
  assert (Hnone : streamableTransports (elapse close_throws s ms) !! id = None).
  { apply (elapse_releases close_throws s h _ ms Hin). simpl. lia. }
  congruence.
Qed.

(** A timer callback leaves the slots of the other session ids alone. *)
Lemma timer_callback_keeps_other close_throws s timer tr id t :
  transports s !! timer_transport timer = Some tr ->
  sessionId tr = Some (timer_session timer) ->
  timer_session timer <> id ->
  streamableTransports s !! id = Some t ->
  streamableTransports (timer_callback close_throws s timer) !! id = Some t.
Proof.
  intros Ht Hid Hne Hslot. rewrite timer_callback_expand. cbv zeta.
  destruct (close_throws (timer_transport timer)).
  - fields. rewrite lookup_delete_ne by exact Hne. exact Hslot.
  - match goal with |- context [close_transport ?s2 ?t'] =>
      rewrite (close_transport_state s2 t' tr Ht) end.
    cbv zeta. fields. rewrite Hid.
    destruct (truthy_string (timer_session timer));
      rewrite ?lookup_delete_ne by exact Hne; exact Hslot.
Qed.

(** It changes no session id of a transport. *)
Lemma timer_callback_keeps_sessionId close_throws s timer t tr :
  transports s !! t = Some tr ->
  exists tr', transports (timer_callback close_throws s timer) !! t = Some tr' /\
              sessionId tr' = sessionId tr.
Proof.
  intros Ht. rewrite timer_callback_expand. cbv zeta.
  destruct (close_throws (timer_transport timer)); [exists tr; auto|].
  match goal with |- context [close_transport ?s2 ?t'] =>
    destruct (transports s2 !! t') as [tr0|] eqn:Ht0;
      [rewrite (close_transport_state s2 t' tr0 Ht0)
      |rewrite (close_transport_missing s2 t' Ht0); exists tr; auto] end.
  cbv zeta. fields. cbn [transports] in Ht0.
  destruct (Nat.eq_dec (timer_transport timer) t) as [Heq|Hne].
  - rewrite Heq in *. rewrite Ht in Ht0. injection Ht0 as <-.
    exists (mark_closed tr). split; [|reflexivity].
    apply list_lookup_insert_eq. eapply lookup_lt_Some. exact Ht.
  - exists tr. split; [|reflexivity].
    rewrite list_lookup_insert_ne by exact Hne. exact Ht.
Qed.

Lemma batch_keeps_other close_throws id t (batch : list (nat * Timer)) :
  forall s,
    (forall x : nat * Timer, In x batch ->
       timer_session (snd x) <> id /\
       exists tr, transports s !! timer_transport (snd x) = Some tr /\
                  sessionId tr = Some (timer_session (snd x))) ->
    streamableTransports s !! id = Some t ->
    streamableTransports
      (fold_left (fun acc x => timer_callback close_throws acc (snd x)) batch s) !! id
      = Some t.
Proof.
  induction batch as [|x rest IH]; intros s Hbatch Hslot; [exact Hslot|].
  simpl. destruct (Hbatch x (or_introl eq_refl)) as (Hne & tr & Ht & Hid).
  apply IH.
  - intros y Hy. destruct (Hbatch y (or_intror Hy)) as (Hney & try & Hty & Hidy).
    split; [exact Hney|].
    destruct (timer_callback_keeps_sessionId close_throws s (snd x) _ _ Hty)
      as (tr' & Ht' & Hid').
    exists tr'. split; [exact Ht'|]. rewrite Hid'. exact Hidy.
  - eapply timer_callback_keeps_other; eassumption.
Qed.

(** X12.  A session is evicted by the clock only through a timer armed for
    its own id: when time passes and no timer that carries the id of a
    registered session comes due, the session stays registered with its
    transport, whatever timers of other sessions fire meanwhile and whether or
    not their [close()] throws, and a request with the id is still handled by
    that transport. *)
Theorem a_session_is_evicted_only_by_its_own_timer (evs : list Event) id t ms close_throws :
  Forall valid_event evs ->
  streamableTransports (run_events initial evs) !! id = Some t ->
  (forall h timer,
     In (h, timer) (timers (run_events initial evs)) ->
     timer_session timer = id -> (now (run_events initial evs) + ms < deadline timer)%N) ->
  let s' := elapse close_throws (run_events initial evs) ms in
  streamableTransports s' !! id = Some t /\
  forall req sdk,
    mcp_session_id req = Some id -> snd (mcp_handler s' req sdk) = HandledBy t.
Proof.
  intros Hvalid Hslot Hlate. cbv zeta.
  assert (Hreg : registries_ok (run_events initial evs))
    by (apply registries_ok_run; [apply registries_ok_initial|exact Hvalid]).
  assert (Hok : timers_ok (run_events initial evs))
    by (apply timers_ok_run;
        [apply registries_ok_initial|apply timers_ok_initial|exact Hvalid]).
  assert (Hreg' : registries_ok
                    (elapse close_throws (run_events initial evs) ms)).
  { apply (registries_ok_step _ (Elapse ms close_throws) Hreg). exact I. }
  remember (run_events initial evs) as s eqn:Es. clear Es.
  assert (Hkept : streamableTransports (elapse close_throws s ms) !! id = Some t).
  { unfold elapse. apply batch_keeps_other; [|exact Hslot].
    intros [h timer] Hx. apply filter_In in Hx as [Hin Hdue].
    unfold due in Hdue. apply N.leb_le in Hdue. cbn [snd] in *.
    split.
    - intros Heq. specialize (Hlate h timer Hin Heq). lia.
    - destruct (timer_owner [] s Hok h timer Hin) as (tr & Ht & _ & Hid).
      exists tr. split; [exact Ht|exact Hid]. }
  split; [exact Hkept|].
  intros req sdk Hreq.
  rewrite (mcp_handler_reuse_branch _ req sdk id t Hreg' Hreq Hkept).
  destruct sdk as [|id'|]; cbn [handleRequest]; try reflexivity.
  destruct (transports _ !! t) as [tr|]; [|reflexivity].
  destruct (sessionId tr); reflexivity.
Qed.


(** ** The test client against the tool handlers *)

Lemma getResultText_single_text stringify r :
  single_text r -> getResultText stringify r = result_text r.
Proof.
  intros [Hc _]. unfold getResultText. rewrite Hc. simpl.
  unfold result_text. rewrite Hc. reflexivity.
Qed.

Section ClientProperties.

Variable env : Env.
Variable JSON_parse : string -> Error + Json.
Variable JSON_stringify : Json -> string.
Variable parse : string -> Error + DocumentNode.
Variable coerced_gt0 : Json -> Error + bool.
Variable stringify : list Content -> string.

Local Abbreviation tool := (query_graphql env JSON_parse JSON_stringify parse coerced_gt0).

(** X15.  The client reads what the handlers wrote: for every result that
    [query-graphql] or [search-schema] returns, [getResultText] is the text
    the handler put into the result; the [JSON.stringify] fallback of the
    client is never taken. *)
Theorem client_reads_the_text_of_every_result (w : World) :
  (forall query variables,
     exists r, snd (run w (tool query variables)) = inr r /\
               content r = [ {| type := "text"; text := getResultText stringify r |} ]) /\
  (forall question k,
     exists r, snd (run w (search_schema question k)) = inr r /\
               content r = [ {| type := "text"; text := getResultText stringify r |} ]).
Proof.
  split.
  - intros query variables.
    destruct (every_result_run _ _ w
                (query_graphql_single_text env JSON_parse JSON_stringify parse
                   coerced_gt0 query variables)) as (r & Hr & Hs).
    exists r. split; [exact Hr|].
    rewrite (getResultText_single_text stringify r Hs). apply Hs.
  - intros question k.
    destruct (every_result_run _ _ w (search_schema_single_text question k))
      as (r & Hr & Hs).
    exists r. split; [exact Hr|].
    rewrite (getResultText_single_text stringify r Hs). apply Hs.
Qed.

(** X16.  The client's check of the mutation test cannot succeed against the
    mutation gate: the gate answers with the error flag set, so for a
    mutation that the server refuses the client logs "Received an error as
    expected (might be disallowed or other)", never "Received expected
    mutation disallowed error", which it reserves for results without the
    error flag. *)
Theorem client_takes_the_refusal_for_some_error (w : World) query doc variables pv :
  parse query = inr doc ->
  has_mutation_operation doc ->
  variables_accepted JSON_parse variables pv ->
  ALLOW_MUTATIONS env = false ->
  (exists r, snd (run w (tool query variables)) = inr r /\
             includes (getResultText stringify r) "Mutations are not allowed" = true /\
             mutation_log stringify r = ErrorAsExpected) /\
  (forall r, mutation_log stringify r = ExpectedDisallowed -> isError r <> Some true).
Proof.
  intros Hparse Hmut Hv Hflag. apply isMutation_iff in Hmut. split.
  - eexists. split.
    + rewrite handler_unfold, (parse_variables_accepted _ _ _ Hv). unfold and_then. simpl.
      rewrite (mutation_gate_parsed _ _ _ _ Hparse), Hmut, Hflag. reflexivity.
    + split; vm_compute; reflexivity.
  - intros r. unfold mutation_log, truthy_flag.
    destruct (isError r) as [[|]|]; simpl; discriminate.
Qed.

End ClientProperties.

Lemma client_takes_the_refusal_for_some_error_witness :
  exists r,
    snd (run (upstream_200 "{}") (sample_query_graphql false mutation_query None)) = inr r /\
    includes (getResultText plain_stringify r) "Mutations are not allowed" = true /\
    mutation_log plain_stringify r = ErrorAsExpected.
Proof.
  exact (proj1 (client_takes_the_refusal_for_some_error (sample_env false None)
                  sample_JSON_parse sample_JSON_stringify sample_parse sample_gt0
                  plain_stringify (upstream_200 "{}") mutation_query mutation_document
                  None None eq_refl mutation_document_has_mutation eq_refl eq_refl)).
Defined.

(** ** The environment *)

Section EnvironmentProperties.

Variable is_url : string -> bool.
Variable JSON_parse : string -> Error + Json.
Variable JSON_stringify : Json -> string.
Variable parse : string -> Error + DocumentNode.
Variable coerced_gt0 : Json -> Error + bool.

Lemma parse_ALLOW_MUTATIONS_true v b :
  parse_ALLOW_MUTATIONS v = Some b -> (b = true <-> v = Some "true").
Proof.
  unfold parse_ALLOW_MUTATIONS. destruct v as [s|]; simpl.
  - destruct (String.eqb s "true") eqn:Ht.
    + apply String.eqb_eq in Ht. subst s. simpl. intros H. injection H as <-. tauto.
    + simpl. destruct (String.eqb s "false"); [|discriminate].
      intros H. injection H as <-. split; [discriminate|].
      intros H. injection H as ->. discriminate.
  - intros H. injection H as <-. split; discriminate.
Qed.

Lemma EnvSchema_parse_ALLOW_MUTATIONS process_env env :
  EnvSchema_parse is_url JSON_parse process_env = Some env ->
  parse_ALLOW_MUTATIONS (process_env "ALLOW_MUTATIONS") = Some (ALLOW_MUTATIONS env).
Proof.
  unfold EnvSchema_parse.
  destruct (parse_ENDPOINT is_url _); [|discriminate].
  destruct (parse_ALLOW_MUTATIONS _) as [allow|]; [|discriminate].
  destruct (parse_HEADERS JSON_parse _); [|discriminate].
  intros H. injection H as <-. reflexivity.
Qed.

(** X17.  Mutations are executed only when [ALLOW_MUTATIONS] is exactly the
    string "true": for a server whose environment parses, a query with a
    mutation operation (and acceptable variables) is sent to the upstream if
    the variable is "true", and is refused with the error flag and without any
    call if it is unset or "false". *)
Theorem mutations_need_ALLOW_MUTATIONS_true process_env env query doc variables pv :
  EnvSchema_parse is_url JSON_parse process_env = Some env ->
  parse query = inr doc ->
  has_mutation_operation doc ->
  variables_accepted JSON_parse variables pv ->
  let tool := query_graphql env JSON_parse JSON_stringify parse coerced_gt0 in
  (process_env "ALLOW_MUTATIONS" = Some "true" ->
     exists k, tool query variables =
               Await (fetch (ENDPOINT env) (request_init env query pv)) k) /\
  (process_env "ALLOW_MUTATIONS" <> Some "true" ->
     tool query variables =
       Ret (error_result
              "Mutations are not allowed. Set ALLOW_MUTATIONS=true to enable them.")).
Proof.
  intros Henv Hparse Hmut Hv. cbv zeta.
  pose proof (parse_ALLOW_MUTATIONS_true _ _
                (EnvSchema_parse_ALLOW_MUTATIONS process_env env Henv)) as Hallow.
  apply isMutation_iff in Hmut. split; intros Hvar.
  - rewrite (handler_passes_checks env JSON_parse JSON_stringify parse coerced_gt0
               query variables pv).
    + apply execute_fetches.
    + split; [exact Hv|]. exists doc. split; [exact Hparse|].
      rewrite (proj2 Hallow Hvar). apply andb_false_r.
  - assert (Hoff : ALLOW_MUTATIONS env = false).
    { destruct (ALLOW_MUTATIONS env); [|reflexivity]. exfalso. apply Hvar, Hallow.
      reflexivity. }
    rewrite handler_unfold, (parse_variables_accepted _ _ _ Hv). unfold and_then. simpl.
    rewrite (mutation_gate_parsed _ _ _ _ Hparse), Hmut, Hoff. reflexivity.
Qed.

(** X18.  A malformed setting stops the start-up instead of being ignored:
    the environment does not parse when [ALLOW_MUTATIONS] is set to anything
    but "true" or "false" (so "TRUE" or "1" do not silently disable
    mutations), when [HEADERS] is set and is not valid JSON, or when
    [ENDPOINT] is set and is not a URL.  When it parses, unset variables take
    their defaults: the name "mcp-graphql-srv" and no mutations. *)
Theorem malformed_settings_stop_the_startup (process_env : string -> option string) :
  ((exists v, process_env "ALLOW_MUTATIONS" = Some v /\ v <> "true" /\ v <> "false") \/
   (exists v err, process_env "HEADERS" = Some v /\ JSON_parse v = inl err) \/
   (exists v, process_env "ENDPOINT" = Some v /\ is_url v = false) ->
   EnvSchema_parse is_url JSON_parse process_env = None) /\
  (forall env,
     EnvSchema_parse is_url JSON_parse process_env = Some env ->
     (process_env "NAME" = None -> NAME env = "mcp-graphql-srv") /\
     (process_env "ALLOW_MUTATIONS" = None -> ALLOW_MUTATIONS env = false) /\
     MCP_API_KEY env = process_env "MCP_API_KEY").
Proof.
  split.
  - unfold EnvSchema_parse.
    intros [(v & Hv & Ht & Hf)|[(v & err & Hv & Hp)|(v & Hv & Hu)]].
    + rewrite Hv. unfold parse_ALLOW_MUTATIONS. simpl.
      apply String.eqb_neq in Ht, Hf. rewrite Ht, Hf. simpl.
      destruct (parse_ENDPOINT is_url _); reflexivity.
    + rewrite Hv. unfold parse_HEADERS. simpl. rewrite Hp.
      destruct (parse_ENDPOINT is_url _); [|reflexivity].
      destruct (parse_ALLOW_MUTATIONS _); reflexivity.
    + rewrite Hv. unfold parse_ENDPOINT. simpl. rewrite Hu. reflexivity.
  - intros env Henv.
    assert (Hoff : process_env "ALLOW_MUTATIONS" = None -> ALLOW_MUTATIONS env = false).
    { intros Hnone.
      pose proof (EnvSchema_parse_ALLOW_MUTATIONS process_env env Henv) as Hallow.
      rewrite Hnone in Hallow. simpl in Hallow. injection Hallow as <-. reflexivity. }
    revert Henv Hoff. unfold EnvSchema_parse.
    destruct (parse_ENDPOINT is_url _); [|discriminate].
    destruct (parse_ALLOW_MUTATIONS _) as [allow|]; [|discriminate].
    destruct (parse_HEADERS JSON_parse _); [|discriminate].
    intros H. injection H as <-. simpl. intros Hoff. split; [|split].
    + intros ->. reflexivity.
    + exact Hoff.
    + reflexivity.
Qed.

End EnvironmentProperties.

Lemma sample_environment_parses :
  EnvSchema_parse sample_is_url sample_JSON_parse (sample_process_env "true")
    = Some (sample_env true None).
Proof. reflexivity. Qed.

Lemma mutations_need_ALLOW_MUTATIONS_true_witness :
  EnvSchema_parse sample_is_url sample_JSON_parse (sample_process_env "true")
    = Some (sample_env true None) /\
  sample_process_env "true" "ALLOW_MUTATIONS" = Some "true" /\
  exists k,
    sample_query_graphql true mutation_query None =
      Await (fetch "http://localhost:4000/graphql"
               (request_init (sample_env true None) mutation_query None)) k.
Proof.
  split; [exact sample_environment_parses|]. split; [reflexivity|].
  exact (proj1 (mutations_need_ALLOW_MUTATIONS_true sample_is_url sample_JSON_parse
                  sample_JSON_stringify sample_parse sample_gt0
                  (sample_process_env "true") (sample_env true None)
                  mutation_query mutation_document None None
                  sample_environment_parses eq_refl mutation_document_has_mutation
                  eq_refl) eq_refl).
Defined.

Lemma malformed_settings_stop_the_startup_witness :
  sample_process_env "TRUE" "ALLOW_MUTATIONS" = Some "TRUE" /\
  EnvSchema_parse sample_is_url sample_JSON_parse (sample_process_env "TRUE") = None.
Proof.
  split; [reflexivity|].
  apply (proj1 (malformed_settings_stop_the_startup sample_is_url sample_JSON_parse
                  (sample_process_env "TRUE"))).
  left. exists "TRUE". split; [reflexivity|]. split; discriminate.
Defined.


(** ** The session properties on the sample session *)

Lemma push_stream_valid : Forall valid_event [ SseOpen uuid1 ].
Proof. repeat constructor. Qed.

Lemma closed_session_is_unknown_witness :
  streamableTransports (run_events initial sample_session) !! uuid1 = Some 0 /\
  snd (mcp_handler (run_events initial sample_session) follow_up sdk_close) = HandledBy 0 /\
  streamableTransports
    (fst (mcp_handler (run_events initial sample_session) follow_up sdk_close)) !! uuid1
    = None.
Proof.
  split; [reflexivity|].
  pose proof (closed_session_is_unknown sample_session follow_up uuid1 0
                sample_session_valid eq_refl eq_refl) as H.
  cbv zeta in H. destruct H as (Hreply & Hnone & _).
  split; [exact Hreply|exact Hnone].
Defined.

Lemma messages_follow_the_push_stream_witness :
  sseTransports (run_events initial [ SseOpen uuid1 ]) !! uuid1 = Some 0 /\
  messages_handler (run_events initial [ SseOpen uuid1 ]) side_post
    = (run_events initial [ SseOpen uuid1 ], HandledBy 0) /\
  sseTransports (step (run_events initial [ SseOpen uuid1 ]) (SseClose 0)) !! uuid1 = None.
Proof.
  split; [reflexivity|].
  pose proof (messages_follow_the_push_stream [ SseOpen uuid1 ] side_post uuid1 0
                push_stream_valid eq_refl eq_refl) as H.
  cbv zeta in H. destruct H as (Hreply & Hnone & _).
  split; [exact Hreply|exact Hnone].
Defined.

Lemma ids_are_registered_only_by_the_init_branch_witness :
  streamableTransports
    (step (run_events initial []) (McpRequest init_request (sdk_initialize uuid1))) !! uuid1
    = Some 0 /\
  (streamableTransports (run_events initial []) !! uuid1 = Some 0 \/
   exists req,
     McpRequest init_request (sdk_initialize uuid1) = McpRequest req (sdk_initialize uuid1) /\
     truthy (mcp_session_id req) = false /\ is_initialize_body req = true /\
     0 = length (transports (run_events initial []))).
Proof.
  split; [reflexivity|].
  exact (ids_are_registered_only_by_the_init_branch []
           (McpRequest init_request (sdk_initialize uuid1)) uuid1 0
           (Forall_nil_2 valid_event) eq_refl).
Defined.

Lemma closing_a_session_cancels_its_timer_witness :
  In (0, timer1) (timers (run_events initial sample_session)) /\
  forall h timer,
    In (h, timer)
       (timers (fst (mcp_handler (run_events initial sample_session) follow_up sdk_close))) ->
    timer_transport timer <> 0.
Proof.
  split; [left; reflexivity|].
  exact (closing_a_session_cancels_its_timer sample_session follow_up uuid1 0
           sample_session_valid eq_refl eq_refl).
Defined.

Lemma no_stream_session_outlives_one_hour_witness :
  streamableTransports (run_events initial sample_session) !! uuid1 = Some 0 /\
  streamableTransports
    (elapse never_throwing (run_events initial sample_session) (minutes 60)) = ∅.
Proof.
  split; [reflexivity|].
  apply (proj2 (no_stream_session_outlives_one_hour sample_session sample_session_valid)).
  apply N.leb_le. reflexivity.
Defined.

Lemma a_session_is_evicted_only_by_its_own_timer_witness :
  streamableTransports (run_events initial sample_session) !! uuid1 = Some 0 /\
  streamableTransports
    (elapse never_throwing (run_events initial sample_session) (minutes 59)) !! uuid1
    = Some 0.
Proof.
  split; [reflexivity|].
  apply (a_session_is_evicted_only_by_its_own_timer sample_session uuid1 0 (minutes 59)
           never_throwing sample_session_valid eq_refl).
  intros h timer [Heq|[]] _. injection Heq as _ <-. reflexivity.
Defined.
